(** * MNIST 1-layer network: the training and testing passes of [main.c]

    A shallow embedding of [trainLayer] and [testLayer] (src/main.c).

    - A C [double] is a primitive binary64 float ([PrimFloat.float]) with the
      IEEE-754 round-to-nearest-even operations of the kernel.
    - A C [int] is a [Z]; the only arithmetic on one is [errCount++], whose
      32-bit wrap-around is written out.
    - The fixed-size arrays [input], [weight], [pixel], [cell] and [val] are
      lists read and written by index; the loops run over [seq 0 n] exactly as
      the [for] loops run over [0 .. n-1]. An index outside a list reads a
      default and writes nothing, where C leaves the access undefined; the
      theorems assume the array sizes ([wf_cell], [wf_image]).
    - The structures and the constants [NUMBER_OF_INPUT_CELLS],
      [NUMBER_OF_OUTPUT_CELLS] and [LEARNING_RATE] are declared in headers
      that are not part of main.c: the fields are those main.c uses, and the
      constants are parameters. *)

From stdpp Require Import base list.
From Stdlib Require Import ZArith Floats Lia.

Set Warnings "-inexact-float".

Local Open Scope Z_scope.

(** ** Numbers *)

Abbreviation double := PrimFloat.float.

#[global] Instance double_inhabited : Inhabited double := populate 0%float.

(** [(double) z] for an [int] (or an integer constant) [z]. *)
Definition of_int (z : Z) : double :=
  if z <? 0 then (- PrimFloat.of_uint63 (Uint63.of_Z (- z)))%float
  else PrimFloat.of_uint63 (Uint63.of_Z z).

Definition INT_MAX : Z := 2147483647.

(** [e + 1] on a 32-bit [int], two's complement. *)
Definition int_incr (e : Z) : Z := (e + 1 + 2 ^ 31) mod 2 ^ 32 - 2 ^ 31.

(** ** Data *)

(** [struct Cell]: the cached input, the weights and the output of one output
    cell. Only 0 and 1 are ever stored in [input], and it is only tested
    against zero. *)
Record Cell : Type := mkCell {
  input : list Z;
  weight : list double;
  output : double
}.

#[global] Instance Cell_inhabited : Inhabited Cell := populate (mkCell [] [] 0%float).

(** [struct Layer]: the array [cell]. *)
Abbreviation Layer := (list Cell).

(** [MNIST_Image]: the array [pixel] of intensity bytes. *)
Record MNIST_Image : Type := mkImage { pixel : list Z }.

Abbreviation MNIST_Label := Z.

(** [Vector]: the array [val]. *)
Abbreviation Vector := (list double).

(** One record of the image file with its record of the label file. *)
Abbreviation Sample := (MNIST_Image * MNIST_Label)%type.

Definition set_input (c : Cell) (v : list Z) : Cell := mkCell v (weight c) (output c).
Definition set_weight (c : Cell) (v : list double) : Cell := mkCell (input c) v (output c).
Definition set_output (c : Cell) (v : double) : Cell := mkCell (input c) (weight c) v.

(** [p ? 1 : 0] *)
Definition binarize (p : Z) : Z := if p =? 0 then 0 else 1.

Section Network.

Variable NUMBER_OF_INPUT_CELLS : nat.
Variable NUMBER_OF_OUTPUT_CELLS : nat.
Variable LEARNING_RATE : double.

(** *** The forward computation of one cell (main.c 84-92 and 170-177)

    One iteration of the loop over [j]: write [input[j]], then add
    [weight[j]] to the running sum when [input[j]] is non-zero. *)
Definition forward_step (img : MNIST_Image) (st : Cell * double) (j : nat) : Cell * double :=
  let c := set_input st.1 (<[j := binarize (pixel img !!! j)]> (input st.1)) in
  if (input c !!! j) =? 0 then (c, st.2)
  else (c, (st.2 + (weight c !!! j))%float).

Definition computeCell (img : MNIST_Image) (c : Cell) : Cell :=
  let st := fold_left (forward_step img) (seq 0 NUMBER_OF_INPUT_CELLS) (c, 0%float) in
  set_output st.1 (st.2 / of_int (Z.of_nat NUMBER_OF_INPUT_CELLS))%float.

(** *** The weight update of one cell (main.c 94-101) *)
Definition update_step (temp : double) (c : Cell) (j : nat) : Cell :=
  if (input c !!! j) =? 0 then c
  else set_weight c (<[j := ((weight c !!! j) + temp)%float]> (weight c)).

Definition updateCell (targetValue : double) (c : Cell) : Cell :=
  let err := (targetValue - output c)%float in
  let temp := (err * LEARNING_RATE)%float in
  fold_left (update_step temp) (seq 0 NUMBER_OF_INPUT_CELLS) c.

(** *** The target vector

    Modelled from the spec: [getTargetOutput] is defined in 1lnn.c, which is
    not among the sources. Section 4.1: a vector of length C with 1.0 at index
    [label] and 0.0 elsewhere. *)
Definition getTargetOutput (lbl : MNIST_Label) : Vector :=
  (fun i : nat => if Z.of_nat i =? lbl then 1%float else 0%float)
    <$> seq 0 NUMBER_OF_OUTPUT_CELLS.

(** *** The prediction

    Modelled from the spec: [getLayerPrediction] is defined in 1lnn.c, which
    is not among the sources. Section 4.2, [predict]: the scan runs over the
    indices 0..C-1 and keeps the first maximum found; a later output replaces
    the kept one only when it is strictly greater. *)
Definition predict_step (outs : Vector) (st : nat * double) (i : nat) : nat * double :=
  if (st.2 <? outs !!! i)%float then (i, outs !!! i) else st.

Definition predict (outs : Vector) : nat :=
  (fold_left (predict_step outs) (seq 0 NUMBER_OF_OUTPUT_CELLS) (0%nat, outs !!! 0%nat)).1.

Definition getLayerPrediction (l : Layer) : Z := Z.of_nat (predict (output <$> l)).

(** *** The loops over the output cells

    The body of the loop over [i] reads and writes [cell[i]] only (and reads
    the image and the target; [c_output], [err] and [temp] are local to the
    body), so the iterations are independent. The loops are modelled in
    index order; [train_cells_any_order] and [test_cells_any_order] show
    that any other order of the iterations, as an [omp parallel for] may
    run them, leaves the same layer. *)
Definition train_cell (img : MNIST_Image) (targetOutput : Vector) (l : Layer) (i : nat) : Layer :=
  <[i := updateCell (targetOutput !!! i) (computeCell img (l !!! i))]> l.

Definition test_cell (img : MNIST_Image) (l : Layer) (i : nat) : Layer :=
  <[i := computeCell img (l !!! i)]> l.

Definition train_cells (img : MNIST_Image) (targetOutput : Vector) (l : Layer) : Layer :=
  fold_left (train_cell img targetOutput) (seq 0 NUMBER_OF_OUTPUT_CELLS) l.

Definition test_cells (img : MNIST_Image) (l : Layer) : Layer :=
  fold_left (test_cell img) (seq 0 NUMBER_OF_OUTPUT_CELLS) l.

(** *** The passes over the data set

    The image and label files are read record by record; [samples] is the
    list of the (image, label) pairs the loop over [imgCount] reads, so its
    length is the number of images of the pass. The state of the loop is the
    layer and [errCount]. [testLayer] computes the target vector too, and
    never reads it. *)
Definition count_error (predictedNum : Z) (lbl : MNIST_Label) (errCount : Z) : Z :=
  if predictedNum =? lbl then errCount else int_incr errCount.

Definition train_sample (st : Layer * Z) (s : Sample) : Layer * Z :=
  let targetOutput := getTargetOutput s.2 in
  let l := train_cells s.1 targetOutput st.1 in
  let predictedNum := getLayerPrediction l in
  (l, count_error predictedNum s.2 st.2).

Definition test_sample (st : Layer * Z) (s : Sample) : Layer * Z :=
  let l := test_cells s.1 st.1 in
  let predictedNum := getLayerPrediction l in
  (l, count_error predictedNum s.2 st.2).

(** [100.0 - (double)errCount / (double)(images) * 100] *)
Definition success_rate (errCount : Z) (images : nat) : double :=
  (100 - of_int errCount / of_int (Z.of_nat images) * 100)%float.

(** What a pass leaves behind: the layer, and the two numbers it reports. *)
Record Pass : Type := mkPass {
  layer_after : Layer;
  errCount : Z;
  successRate : double
}.

Definition trainLayer (l : Layer) (samples : list Sample) : Pass :=
  let st := fold_left train_sample samples (l, 0) in
  mkPass st.1 st.2 (success_rate st.2 (length samples)).

Definition testLayer (l : Layer) (samples : list Sample) : Pass :=
  let st := fold_left test_sample samples (l, 0) in
  mkPass st.1 st.2 (success_rate st.2 (length samples)).

End Network.

(** ** Reading the loops

    What the specification says the loops compute, stated on whole arrays. *)

(** The sum, in index order, of the weights at the positions where the mask
    is 1. *)
Definition sum_active (mask : list Z) (ws : list double) : double :=
  fold_left PrimFloat.add ((filter (fun p : Z * double => p.1 = 1) (zip mask ws)).*2) 0%float.

(** The weight at a position after an update by [temp], given the cached
    input at that position. *)
Definition updated (temp : double) (x : Z) (w : double) : double :=
  if x =? 0 then w else (w + temp)%float.

(** The arrays of a cell and of an image have [n] elements. *)
Definition wf_cell (n : nat) (c : Cell) : Prop :=
  length (input c) = n /\ length (weight c) = n.

Definition wf_image (n : nat) (img : MNIST_Image) : Prop :=
  length (pixel img) = n.

(** The predictions a pass makes, sample by sample. *)
Fixpoint train_predictions (n k : nat) (rate : double) (l : Layer) (samples : list Sample) : list Z :=
  match samples with
  | [] => []
  | s :: rest =>
      let l' := train_cells n k rate s.1 (getTargetOutput k s.2) l in
      getLayerPrediction k l' :: train_predictions n k rate l' rest
  end.

Fixpoint test_predictions (n k : nat) (l : Layer) (samples : list Sample) : list Z :=
  match samples with
  | [] => []
  | s :: rest =>
      let l' := test_cells n k s.1 l in
      getLayerPrediction k l' :: test_predictions n k l' rest
  end.

(** The number of samples whose prediction differs from the label. *)
Definition mismatches (predictions : list Z) (samples : list Sample) : nat :=
  length (filter (fun p : Z * Sample => p.1 <> p.2.2) (zip predictions samples)).

(** A double in [0,1). *)
Definition in_unit (w : double) : Prop :=
  (0 <=? w)%float = true /\ (w <? 1)%float = true.

(** The sign of a double: 1, -1, or 0 for a zero (and for a NaN). *)
Definition fsign (x : double) : Z :=
  if (0 <? x)%float then 1 else if (x <? 0)%float then -1 else 0.

(** ** The scenario of section 8: N = 4, C = 2, learning rate 1.0 *)
Definition scenario_cell0 : Cell := mkCell [0; 0; 0; 0] [0.5; 0.5; 0.5; 0.5]%float 0%float.
Definition scenario_cell1 : Cell := mkCell [0; 0; 0; 0] [0.2; 0.2; 0.2; 0.2]%float 0%float.

Definition scenario_layer : Layer := [scenario_cell0; scenario_cell1].

Definition scenario_sample : Sample := (mkImage [1; 0; 1; 0], 1).

(** A cell whose two active weights nearly cancel, and an image that
    activates them: the output is 2^-55. *)
Definition absorbing_cell : Cell :=
  mkCell [0; 0; 0; 0] [1; -0x1.fffffffffffffp-1; 0.5; 0.5]%float 0%float.

Definition absorbing_image : MNIST_Image := mkImage [255; 255; 0; 0].

(** ** Binary64 values and rounding

    The values of doubles as integers, and the rounding of the kernel's
    specification of the operations ([SpecFloat]), for the numeric claims. *)

(** Three values in units of 2^-1074, the least positive double: 1.0; the
    power 2^1024, which no finite double reaches; and the place given to the
    infinities among the values. *)
Definition unit_val : Z := 2 ^ 1074.
Definition overflow_val : Z := 2 ^ 2098.
Definition beyond_val : Z := 2 ^ 2100.

Arguments unit_val : simpl never.
Arguments overflow_val : simpl never.
Arguments beyond_val : simpl never.

(** The value of a non-NaN binary64 number in units of 2^-1074: every finite
    double is an integer in that unit. An infinity is placed beyond every
    finite one. *)
Definition sval (x : spec_float) : Z :=
  match x with
  | S754_zero _ => 0
  | S754_infinity s => if s then - beyond_val else beyond_val
  | S754_nan => 0
  | S754_finite s m e => if s then - (Z.pos m * 2 ^ (e + 1074)) else Z.pos m * 2 ^ (e + 1074)
  end.

Definition fval (x : float) : Z := sval (Prim2SF x).

Definition SFis_nan (x : spec_float) : bool :=
  match x with S754_nan => true | _ => false end.

(** Where the fraction A/B lies between its floor and the next integer. *)
Definition loc_of (A B : Z) : location :=
  if A mod B =? 0 then loc_Exact else loc_Inexact (2 * (A mod B) ?= B).

(** A shift record holds the floor of A/B and the place of A/B above it. *)
Definition represents (r : shr_record) (A B : Z) : Prop :=
  shr_m r = A / B /\ loc_of_shr_record r = loc_of A B.

(** The exponent [binary_round_aux] rounds at. *)
Definition rexp (mx ex : Z) : Z := Z.max ex (fexp prec emax (Zdigits2 mx + ex)).

(** What [binary_round_aux] builds from the rounded mantissa [m1] at the
    exponent [e1]. *)
Definition round_finish (s : bool) (m1 e1 : Z) : spec_float :=
  let e2 := rexp m1 e1 in
  match m1 / 2 ^ (e2 - e1) with
  | Z0 => S754_zero s
  | Zpos m => if e2 <=? emax - prec then S754_finite s m e2 else S754_infinity s
  | Zneg _ => S754_nan
  end.

Definition SFis_finite (x : spec_float) : bool :=
  match x with S754_zero _ | S754_finite _ _ _ => true | _ => false end.

Definition signed (s : bool) (v : Z) : Z := if s then - v else v.

(** The exponent, in units of 2^-1074, at which a positive value [V] in
    those units is rounded: its digits beyond 53. *)
Definition gexp (V : Z) : Z := Z.max (Zdigits2 V - 53) 0.

(** [r] is a rounding of the exact value [V], in units of 2^-1074: zero for
    0 and otherwise the floor or the ceiling of [V] at the exponent [gexp],
    exact on a multiple of it, or the infinity of its sign. *)
Definition rounds_to (V : Z) (r : spec_float) : Prop :=
  (V = 0 /\ SFis_finite r = true /\ sval r = 0)
  \/ (V <> 0
      /\ exists m1,
           let W := Z.abs V in
           let g := gexp W in
           W / 2 ^ g <= m1 <= W / 2 ^ g + 1
           /\ (W mod 2 ^ g = 0 -> m1 = W / 2 ^ g)
           /\ (0 < g -> 2 ^ 52 <= m1)
           /\ ((SFis_finite r = true /\ sval r = Z.sgn V * (m1 * 2 ^ g))
               \/ (r = S754_infinity (V <? 0) /\ overflow_val <= m1 * 2 ^ g))).

Definition SFis_valid_finite (x : spec_float) : Prop :=
  valid_binary x = true /\ SFis_finite x = true.

(** ** The parallel loops, statement by statement

    [#pragma omp parallel for] (main.c 81 and 168) hands the iterations of
    the loop over the cells to several threads. The layer is shared: a
    statement of any iteration is given the whole layer and may read and
    write any cell of it. The variables declared in the body of the loop are
    private to the iteration. The image and the target vector are only
    read. *)

(** The variables local to one iteration: [c_output] ([c_output_test] in
    [testLayer]), [err] and [temp]. *)
Record Locals : Type := mkLocals {
  c_output : double;
  err : double;
  temp : double
}.

#[global] Instance Locals_inhabited : Inhabited Locals :=
  populate (mkLocals 0%float 0%float 0%float).

(** The accesses to the layer as the source writes them:
    [l->cell[i].input[j]], [l->cell[i].weight[j]] and [l->cell[i].output],
    read and assigned. *)
Definition read_input (l : Layer) (i j : nat) : Z := input (l !!! i) !!! j.

Definition write_input (l : Layer) (i j : nat) (v : Z) : Layer :=
  <[i := set_input (l !!! i) (<[j := v]> (input (l !!! i)))]> l.

Definition read_weight (l : Layer) (i j : nat) : double := weight (l !!! i) !!! j.

Definition write_weight (l : Layer) (i j : nat) (v : double) : Layer :=
  <[i := set_weight (l !!! i) (<[j := v]> (weight (l !!! i)))]> l.

Definition read_output (l : Layer) (i : nat) : double := output (l !!! i).

Definition write_output (l : Layer) (i : nat) (v : double) : Layer :=
  <[i := set_output (l !!! i) v]> l.

(** A statement acts on the shared layer and on the locals of the iteration
    that executes it. *)
Abbreviation Stmt := (Layer * Locals -> Layer * Locals)%type.

(** main.c 87-89 (and 173-175), the two statements of the loop over [j] in
    the iteration [i]: the assignment of [input[j]], and the conditional
    addition to [c_output]. *)
Definition forward_stmts (img : MNIST_Image) (i j : nat) : list Stmt :=
  [ fun st => (write_input st.1 i j (binarize (pixel img !!! j)), st.2);
    fun st =>
      if read_input st.1 i j =? 0 then st
      else (st.1, mkLocals (c_output st.2 + read_weight st.1 i j)%float (err st.2) (temp st.2)) ].

(** main.c 84-92 (and 170-177): [c_output = 0], the loop over [j], and the
    assignment of the output. *)
Definition forward_body (n : nat) (img : MNIST_Image) (i : nat) : list Stmt :=
  (fun st => (st.1, mkLocals 0%float (err st.2) (temp st.2)))
  :: concat (forward_stmts img i <$> seq 0 n)
  ++ [fun st => (write_output st.1 i (c_output st.2 / of_int (Z.of_nat n))%float, st.2)].

(** main.c 99-100: the statement of the second loop over [j]. *)
Definition update_stmt (i j : nat) : Stmt :=
  fun st =>
    if read_input st.1 i j =? 0 then st
    else (write_weight st.1 i j (read_weight st.1 i j + temp st.2)%float, st.2).

(** main.c 94-101: [err], [temp], and the loop over [j]. *)
Definition update_body (n : nat) (rate : double) (targetOutput : Vector) (i : nat)
    : list Stmt :=
  (fun st =>
     (st.1, mkLocals (c_output st.2) (targetOutput !!! i - read_output st.1 i)%float
              (temp st.2)))
  :: (fun st => (st.1, mkLocals (c_output st.2) (err st.2) (err st.2 * rate)%float))
  :: (update_stmt i <$> seq 0 n).

(** The body of the loop of [trainLayer] for the iteration [i], and that of
    [testLayer]. *)
Definition train_body (n : nat) (rate : double) (img : MNIST_Image) (targetOutput : Vector)
    (i : nat) : list Stmt :=
  forward_body n img i ++ update_body n rate targetOutput i.

Definition test_body (n : nat) (img : MNIST_Image) (i : nat) : list Stmt :=
  forward_body n img i.

(** The state of a parallel loop: the shared layer and, for every iteration,
    the number of statements it has executed and its locals. One step lets
    the iteration [i] execute its next statement on the layer as it is; an
    iteration that has finished, or an index that is no iteration, does
    nothing. *)
Definition omp_step (body : nat -> list Stmt) (st : Layer * list (nat * Locals)) (i : nat)
    : Layer * list (nat * Locals) :=
  match st.2 !! i with
  | Some (pc, loc) =>
      match body i !! pc with
      | Some stmt =>
          let r := stmt (st.1, loc) in
          (r.1, <[i := (S pc, r.2)]> st.2)
      | None => st
      end
  | None => st
  end.

(** A schedule is the list of the iterations in the order in which they
    take their steps. The locals start with whatever the stack holds. *)
Definition omp_run (body : nat -> list Stmt) (schedule : list nat) (l : Layer)
    (locals : list Locals) : Layer * list (nat * Locals) :=
  fold_left (omp_step body) schedule (l, pair 0%nat <$> locals).

(** Every iteration has executed all of its statements. *)
Definition omp_finished (body : nat -> list Stmt) (threads : list (nat * Locals)) : bool :=
  forallb (fun t : nat * (nat * Locals) => Nat.eqb t.2.1 (length (body t.1)))
    (zip (seq 0 (length threads)) threads).

(** The statements of a body, one after the other, with no other iteration
    in between. *)
Definition run_stmts (body : list Stmt) (st : Layer * Locals) : Layer * Locals :=
  fold_left (fun (st : Layer * Locals) (stmt : Stmt) => stmt st) body st.

(** A statement is local to the cell [i] when it keeps the number of the
    cells, leaves every other cell as it is, and what it leaves in the cell
    [i] and in the locals depends on no other cell. *)
Definition local_to (i : nat) (stmt : Stmt) : Prop :=
  (forall l loc, length (stmt (l, loc)).1 = length l)
  /\ (forall l loc k, k <> i -> (stmt (l, loc)).1 !! k = l !! k)
  /\ (forall l l' loc, l !! i = l' !! i ->
        (stmt (l, loc)).1 !! i = (stmt (l', loc)).1 !! i
        /\ (stmt (l, loc)).2 = (stmt (l', loc)).2).

(** What a run of a parallel loop has reached from the layer [l0] and the
    locals [locals0]: the cell [i] and the locals of the iteration [i] are
    those that a prefix of the body of [i], run alone from [l0], leaves. *)
Definition omp_reached (body : nat -> list Stmt) (l0 : Layer) (locals0 : list Locals)
    (st : Layer * list (nat * Locals)) : Prop :=
  length st.1 = length l0 /\ length st.2 = length locals0
  /\ forall i loc, locals0 !! i = Some loc ->
       exists pc, (pc <= length (body i))%nat
         /\ st.1 !! i = (run_stmts (take pc (body i)) (l0, loc)).1 !! i
         /\ st.2 !! i = Some (pc, (run_stmts (take pc (body i)) (l0, loc)).2).

(** A loop that is not the source's, with a race: every iteration reads the
    output of the cell 0 into [c_output] and then assigns it, incremented,
    to the output of the cell 0. *)
Definition shared_cell_body (i : nat) : list Stmt :=
  [ fun st => (st.1, mkLocals (read_output st.1 0) (err st.2) (temp st.2));
    fun st => (write_output st.1 0 (c_output st.2 + 1)%float, st.2) ].

(** ** One cell through a training pass *)
Definition train_cell_pass (n k : nat) (rate : double) (i : nat) (c : Cell)
    (samples : list Sample) : Cell :=
  fold_left
    (fun (c : Cell) (s : Sample) =>
       updateCell n rate (getTargetOutput k s.2 !!! i) (computeCell n s.1 c))
    samples c.

(** Two samples with the same label whose images have the same non-zero
    pixels. *)
Definition same_shape (s1 s2 : Sample) : Prop :=
  s1.2 = s2.2 /\ binarize <$> pixel s1.1 = binarize <$> pixel s2.1.

(** The sizes of the arrays of a cell. *)
Definition cell_sizes (c : Cell) : nat * nat := (length (input c), length (weight c)).

(** ** The program (main.c 210-235)

    [initLayer] is defined in 1lnn.c, which is not among the sources: the
    layer it leaves is the argument [outputLayer]. The training pass reads
    the training files and the evaluation pass the testing files; [main]
    returns 0. What it leaves are the two passes; the lines it prints and
    the clock are not modelled. *)
Definition main (n k : nat) (rate : double) (outputLayer : Layer)
    (training testing : list Sample) : Pass * Pass * Z :=
  let tr := trainLayer n k rate outputLayer training in
  let te := testLayer n k (layer_after tr) testing in
  (tr, te, 0).

(** An interleaving of the two iterations of the scenario's training loop,
    statement by statement: 16 steps each. *)
Definition scenario_schedule : list nat :=
  [0; 1; 1; 0; 0; 0; 1; 0; 1; 1; 0; 1; 0; 0; 1; 1;
   0; 1; 0; 1; 0; 1; 1; 0; 1; 1; 1; 0; 0; 0; 0; 1]%nat.

(** What the locals of the two iterations hold before they are assigned. *)
Definition scenario_locals : list Locals :=
  [mkLocals 3%float 4%float 5%float; mkLocals 0%float 1%float 2%float].

(** A cell with a NaN among its weights. *)
Definition poisoned_cell : Cell :=
  mkCell [0; 0; 0; 0] [nan; 0.5; 0.5; 0.5]%float 0%float.

(** The loop of [testLayer] with the prediction as a parameter.
    [getLayerPrediction] is called by main.c (180) and defined in 1lnn.c;
    what is proved of the pass with any function of the layer in its place
    holds whatever 1lnn.c defines. *)
Definition test_sample_with (prediction : Layer -> Z) (n k : nat) (st : Layer * Z)
    (s : Sample) : Layer * Z :=
  let l := test_cells n k s.1 st.1 in
  let predictedNum := prediction l in
  (l, count_error predictedNum s.2 st.2).

Definition testLayer_with (prediction : Layer -> Z) (n k : nat) (l : Layer)
    (samples : list Sample) : Pass :=
  let st := fold_left (test_sample_with prediction n k) samples (l, 0) in
  mkPass st.1 st.2 (success_rate st.2 (length samples)).

(** The samples that the layer [l], as it is, does not predict right. *)
Definition test_misses (prediction : Layer -> Z) (n k : nat) (l : Layer)
    (samples : list Sample) : nat :=
  length (filter (fun s : Sample => prediction (test_cells n k s.1 l) <> s.2) samples).


(** ** The scenario, run *)

Example scenario_outputs :
  output <$> test_cells 4 2 scenario_sample.1 scenario_layer = [0.25; 0.1]%float.
Proof. vm_compute. reflexivity. Qed.

Example scenario_prediction :
  getLayerPrediction 2 (test_cells 4 2 scenario_sample.1 scenario_layer) = 0.
Proof. vm_compute. reflexivity. Qed.

Example scenario_training :
  weight <$> layer_after (trainLayer 4 2 1%float scenario_layer [scenario_sample])
  = [ [0.25; 0.5; 0.25; 0.5]; [1.1; 0.2; 1.1; 0.2] ]%float
  /\ errCount (trainLayer 4 2 1%float scenario_layer [scenario_sample]) = 1
  /\ successRate (trainLayer 4 2 1%float scenario_layer [scenario_sample]) = 0%float.
Proof. vm_compute. repeat split; reflexivity. Qed.


(** ** Binary64 values *)

Lemma pow2_pos n : 0 <= n -> 0 < 2 ^ n.
Proof. intros. apply Z.pow_pos_nonneg; lia. Qed.

Lemma unit_val_pos : 0 < unit_val.
Proof. apply pow2_pos. lia. Qed.

Lemma overflow_val_pos : 0 < overflow_val.
Proof. apply pow2_pos. lia. Qed.

Lemma beyond_val_pos : 0 < beyond_val.
Proof. apply pow2_pos. lia. Qed.

Lemma overflow_lt_beyond : overflow_val < beyond_val.
Proof. apply Z.pow_lt_mono_r; lia. Qed.

Lemma unit_lt_overflow : 2 ^ 53 * unit_val < overflow_val.
Proof.
  unfold unit_val, overflow_val. rewrite <- (Z.pow_add_r 2 53 1074) by lia.
  apply Z.pow_lt_mono_r; lia.
Qed.

Lemma mul_pow2_lt a e p q :
  0 <= a < 2 ^ p -> 0 <= e <= q -> 0 <= p -> a * 2 ^ e < 2 ^ (p + q).
Proof.
  intros Ha He Hp. rewrite (Z.pow_add_r 2 p q) by lia.
  assert (0 < 2 ^ e) by (apply pow2_pos; lia).
  assert (2 ^ e <= 2 ^ q) by (apply Z.pow_le_mono_r; lia).
  nia.
Qed.

Lemma mul_pow2_ge a e p q :
  2 ^ p <= a -> 0 <= q <= e -> 0 <= p -> 2 ^ (p + q) <= a * 2 ^ e.
Proof.
  intros Ha He Hp. rewrite (Z.pow_add_r 2 p q) by lia.
  assert (0 < 2 ^ q) by (apply pow2_pos; lia).
  assert (0 < 2 ^ p) by (apply pow2_pos; lia).
  assert (2 ^ q <= 2 ^ e) by (apply Z.pow_le_mono_r; lia).
  nia.
Qed.

Lemma digits2_pos_bounds (m : positive) :
  2 ^ (Z.pos (digits2_pos m) - 1) <= Z.pos m < 2 ^ Z.pos (digits2_pos m).
Proof.
  induction m as [m IH|m IH|]; simpl digits2_pos.
  - rewrite Pos2Z.inj_succ, Z.pow_succ_r by lia.
    replace (Z.succ (Z.pos (digits2_pos m)) - 1) with (Z.succ (Z.pos (digits2_pos m) - 1)) by lia.
    rewrite Z.pow_succ_r by lia. lia.
  - rewrite Pos2Z.inj_succ, Z.pow_succ_r by lia.
    replace (Z.succ (Z.pos (digits2_pos m)) - 1) with (Z.succ (Z.pos (digits2_pos m) - 1)) by lia.
    rewrite Z.pow_succ_r by lia. lia.
  - simpl. lia.
Qed.

Lemma fexp_eq z : fexp prec emax z = Z.max (z - 53) (-1074).
Proof. reflexivity. Qed.

(** A valid finite double has a 53-digit mantissa, or the least exponent
    and at most 53 digits; and its exponent is at most 971. *)
Lemma bounded_inv m e :
  bounded prec emax m e = true ->
  -1074 <= e <= 971
  /\ Z.pos m < 2 ^ 53
  /\ (-1074 < e -> 2 ^ 52 <= Z.pos m).
Proof.
  unfold bounded, canonical_mantissa. rewrite fexp_eq.
  intros H. apply andb_prop in H. destruct H as [H1 H2].
  apply Z.eqb_eq in H1. apply Z.leb_le in H2. change (emax - prec) with 971 in H2.
  pose proof (digits2_pos_bounds m) as [Hlo Hhi].
  set (d := Z.pos (digits2_pos m)) in *.
  assert (Hd : d <= 53) by lia.
  split; [lia|]. split.
  - eapply Z.lt_le_trans; [exact Hhi|]. apply Z.pow_le_mono_r; lia.
  - intros He. assert (d = 53) by lia. subst d. rewrite H in Hlo. exact Hlo.
Qed.

Lemma finite_val_bounds m e :
  bounded prec emax m e = true ->
  0 < Z.pos m * 2 ^ (e + 1074) < overflow_val.
Proof.
  intros H. apply bounded_inv in H. destruct H as (He & Hm & _).
  assert (0 < 2 ^ (e + 1074)) by (apply Z.pow_pos_nonneg; lia).
  split; [lia|].
  change overflow_val with (2 ^ (53 + 2045)). apply mul_pow2_lt; lia.
Qed.

Lemma compare_scale a b p : 0 < p -> (a * p ?= b * p) = (a ?= b).
Proof.
  intros Hp. destruct (Z.compare_spec a b).
  - subst. apply Z.compare_refl.
  - apply Z.compare_lt_iff. nia.
  - apply Z.compare_gt_iff. nia.
Qed.

Lemma scaled_lt c a b p q :
  0 <= c -> a < 2 * c -> c <= b -> 0 < p -> 2 <= q -> a * p < b * (p * q).
Proof.
  intros Hc Ha Hb Hp Hq.
  assert (a * p < 2 * c * p) by nia.
  assert (2 * c <= b * q) by nia.
  nia.
Qed.

(** On valid doubles the order by exponent, then mantissa, is the order of
    the values. *)
Lemma finite_compare m1 e1 m2 e2 :
  bounded prec emax m1 e1 = true -> bounded prec emax m2 e2 = true ->
  match e1 ?= e2 with
  | Lt => Lt
  | Gt => Gt
  | Eq => Pos.compare_cont Eq m1 m2
  end = (Z.pos m1 * 2 ^ (e1 + 1074) ?= Z.pos m2 * 2 ^ (e2 + 1074)).
Proof.
  intros H1 H2. apply bounded_inv in H1, H2.
  destruct H1 as (He1 & Hm1 & Hn1), H2 as (He2 & Hm2 & Hn2).
  destruct (Z.compare_spec e1 e2) as [Heq|Hlt|Hgt].
  - subst e2. change (Pos.compare_cont Eq m1 m2) with (Z.pos m1 ?= Z.pos m2).
    symmetry. apply compare_scale. apply Z.pow_pos_nonneg; lia.
  - symmetry. apply Z.compare_lt_iff.
    replace (e2 + 1074) with ((e1 + 1074) + (e2 - e1)) by lia.
    rewrite (Z.pow_add_r 2 (e1 + 1074) (e2 - e1)) by lia.
    assert (0 < 2 ^ (e1 + 1074)) by (apply Z.pow_pos_nonneg; lia).
    assert (2 ^ 1 <= 2 ^ (e2 - e1)) by (apply Z.pow_le_mono_r; lia).
    specialize (Hn2 ltac:(lia)). change (2 ^ 1) with 2 in *.
    apply (scaled_lt (2 ^ 52)); try assumption; lia.
  - symmetry. apply Z.compare_gt_iff.
    replace (e1 + 1074) with ((e2 + 1074) + (e1 - e2)) by lia.
    rewrite (Z.pow_add_r 2 (e2 + 1074) (e1 - e2)) by lia.
    assert (0 < 2 ^ (e2 + 1074)) by (apply Z.pow_pos_nonneg; lia).
    assert (2 ^ 1 <= 2 ^ (e1 - e2)) by (apply Z.pow_le_mono_r; lia).
    specialize (Hn1 ltac:(lia)). change (2 ^ 1) with 2 in *.
    apply (scaled_lt (2 ^ 52)); try assumption; lia.
Qed.

Ltac compare_by_lia :=
  f_equal; symmetry;
  match goal with
  | |- (_ ?= _) = Eq => apply Z.compare_eq_iff
  | |- (_ ?= _) = Lt => apply Z.compare_lt_iff
  | |- (_ ?= _) = Gt => apply Z.compare_gt_iff
  end; lia.

Lemma SFcompare_sval x y :
  valid_binary x = true -> valid_binary y = true ->
  SFis_nan x = false -> SFis_nan y = false ->
  SFcompare x y = Some (sval x ?= sval y).
Proof.
  intros Hx Hy Nx Ny.
  pose proof beyond_val_pos as P. pose proof overflow_lt_beyond as Q.
  destruct x as [sx|sx| |sx mx ex], y as [sy|sy| |sy my ey]; try discriminate;
    simpl in Hx, Hy;
    try (pose proof (finite_val_bounds _ _ Hx) as Bx);
    try (pose proof (finite_val_bounds _ _ Hy) as By);
    unfold SFcompare, sval;
    try (destruct sx, sy; compare_by_lia); try (destruct sx; compare_by_lia);
    try (destruct sy; compare_by_lia).
  destruct sx, sy; try compare_by_lia.
  - rewrite Z.compare_opp, <- (finite_compare _ _ _ _ Hy Hx).
    change (PosDef.Pos.compare_cont Eq mx my) with (mx ?= my)%positive.
    change (Pos.compare_cont Eq my mx) with (my ?= mx)%positive.
    rewrite (Z.compare_antisym ey ex), (Pos.compare_antisym my mx).
    destruct (ey ?= ex); simpl; try reflexivity.
    destruct (my ?= mx)%positive; reflexivity.
  - f_equal. apply finite_compare; assumption.
Qed.

Lemma SFcompare_nan_l y : SFcompare S754_nan y = None.
Proof. reflexivity. Qed.

Lemma SFcompare_nan_r x : SFcompare x S754_nan = None.
Proof. destruct x; reflexivity. Qed.

(** *** Comparisons of primitive doubles *)

Lemma is_nan_spec x : is_nan x = SFis_nan (Prim2SF x).
Proof.
  unfold is_nan. rewrite eqb_spec. unfold SFeqb.
  destruct (Prim2SF x) as [s|s| |s m e] eqn:E; try reflexivity.
  - destruct s; reflexivity.
  - simpl. rewrite Z.compare_refl, Pos.compare_cont_refl. destruct s; reflexivity.
Qed.

Lemma ltb_fval x y :
  is_nan x = false -> is_nan y = false -> (x <? y)%float = (fval x <? fval y).
Proof.
  rewrite !is_nan_spec. intros Nx Ny.
  rewrite ltb_spec. unfold SFltb.
  rewrite SFcompare_sval by auto using Prim2SF_valid.
  unfold fval, Z.ltb. destruct (_ ?= _); reflexivity.
Qed.

Lemma leb_fval x y :
  is_nan x = false -> is_nan y = false -> (x <=? y)%float = (fval x <=? fval y).
Proof.
  rewrite !is_nan_spec. intros Nx Ny.
  rewrite leb_spec. unfold SFleb.
  rewrite SFcompare_sval by auto using Prim2SF_valid.
  unfold fval, Z.leb. destruct (_ ?= _); reflexivity.
Qed.

Lemma eqb_fval x y :
  is_nan x = false -> is_nan y = false -> (x =? y)%float = (fval x =? fval y).
Proof.
  rewrite !is_nan_spec. intros Nx Ny.
  rewrite eqb_spec. unfold SFeqb.
  rewrite SFcompare_sval by auto using Prim2SF_valid.
  unfold fval.
  destruct (Z.compare_spec (sval (Prim2SF x)) (sval (Prim2SF y))) as [H|H|H]; symmetry;
    [apply Z.eqb_eq; exact H | apply Z.eqb_neq; lia | apply Z.eqb_neq; lia].
Qed.

(** A comparison that holds has no NaN on either side. *)
Lemma ltb_not_nan x y : (x <? y)%float = true -> is_nan x = false /\ is_nan y = false.
Proof.
  rewrite ltb_spec, !is_nan_spec. unfold SFltb.
  destruct (Prim2SF x), (Prim2SF y); simpl; try discriminate; auto.
Qed.

Lemma leb_not_nan x y : (x <=? y)%float = true -> is_nan x = false /\ is_nan y = false.
Proof.
  rewrite leb_spec, !is_nan_spec. unfold SFleb.
  destruct (Prim2SF x), (Prim2SF y); simpl; try discriminate; auto.
Qed.

(** ** Rounding *)

Lemma loc_of_cases A B :
  0 < B ->
  (A mod B = 0 /\ loc_of A B = loc_Exact)
  \/ (0 < 2 * (A mod B) < B /\ loc_of A B = loc_Inexact Lt)
  \/ (2 * (A mod B) = B /\ loc_of A B = loc_Inexact Eq)
  \/ (B < 2 * (A mod B) < 2 * B /\ loc_of A B = loc_Inexact Gt).
Proof.
  intros HB. unfold loc_of.
  pose proof (Z.mod_pos_bound A B HB) as Hf.
  destruct (Z.eqb_spec (A mod B) 0) as [E|E]; [left; auto|].
  destruct (Z.compare_spec (2 * (A mod B)) B); [right; right; left | right; left | right; right; right];
    split; try reflexivity; lia.
Qed.

Lemma half_xI p : Z.pos p~1 / 2 = Z.pos p /\ Z.pos p~1 mod 2 = 1.
Proof.
  split; symmetry.
  - apply (Z.div_unique _ _ _ 1); lia.
  - apply (Z.mod_unique _ _ (Z.pos p)); lia.
Qed.

Lemma half_xO p : Z.pos p~0 / 2 = Z.pos p /\ Z.pos p~0 mod 2 = 0.
Proof.
  split; symmetry.
  - apply (Z.div_unique _ _ _ 0); lia.
  - apply (Z.mod_unique _ _ (Z.pos p)); lia.
Qed.

Lemma shr_1_represents r A B :
  0 <= A -> 0 < B -> represents r A B -> represents (shr_1 r) A (B * 2).
Proof.
  intros HA HB [Hm Hl].
  assert (Hq : A / (B * 2) = (A / B) / 2) by (rewrite Z.div_div by lia; reflexivity).
  assert (Hr : A mod (B * 2) = A mod B + B * ((A / B) mod 2)) by (apply Z.rem_mul_r; lia).
  pose proof (Z.mod_pos_bound A B HB) as Hf.
  assert (Hm0 : 0 <= A / B) by (apply Z.div_pos; lia).
  unfold represents. rewrite Hq. unfold loc_of. rewrite Hr.
  destruct (loc_of_cases A B HB) as [[Hc Hl']|[[Hc Hl']|[[Hc Hl']|[Hc Hl']]]];
    rewrite Hl' in Hl; clear Hl';
    destruct r as [m rb sb]; simpl in Hm, Hl; subst m;
    destruct rb, sb; try discriminate; clear Hl;
    destruct (A / B) as [|p|p] eqn:Em; try lia;
    try (destruct p as [p|p|]); cbn [shr_1 shr_m orb loc_of_shr_record].
  all: try (destruct (half_xI p) as [-> ->]).
  all: try (destruct (half_xO p) as [-> ->]).
  all: try change (1 / 2) with 0; try change (1 mod 2) with 1;
       try change (0 / 2) with 0; try change (0 mod 2) with 0.
  all: split; [reflexivity|].
  all: destruct (Z.eqb_spec (A mod B + B * 0) 0); destruct (Z.eqb_spec (A mod B + B * 1) 0); try lia.
  all: try reflexivity.
  all: f_equal; symmetry;
       first [ apply Z.compare_eq_iff; lia | apply Z.compare_lt_iff; lia | apply Z.compare_gt_iff; lia ].
Qed.

Lemma iter_shr_1_represents p r A B :
  0 <= A -> 0 < B -> represents r A B ->
  represents (iter_pos shr_1 p r) A (B * 2 ^ Z.pos p).
Proof.
  intros HA. revert r B.
  induction p as [p IH|p IH|]; intros r B HB Hr; simpl iter_pos.
  - assert (P : 0 < 2 ^ Z.pos p) by (apply Z.pow_pos_nonneg; lia).
    replace (B * 2 ^ Z.pos p~1) with (B * 2 * 2 ^ Z.pos p * 2 ^ Z.pos p).
    + apply IH; [nia|]. apply IH; [lia|]. apply shr_1_represents; assumption.
    + replace (Z.pos p~1) with (1 + Z.pos p + Z.pos p) by lia.
      rewrite (Z.pow_add_r 2 (1 + Z.pos p) (Z.pos p)) by lia.
      rewrite (Z.pow_add_r 2 1 (Z.pos p)) by lia. change (2 ^ 1) with 2. ring.
  - assert (P : 0 < 2 ^ Z.pos p) by (apply Z.pow_pos_nonneg; lia).
    replace (B * 2 ^ Z.pos p~0) with (B * 2 ^ Z.pos p * 2 ^ Z.pos p).
    + apply IH; [nia|]. apply IH; assumption.
    + replace (Z.pos p~0) with (Z.pos p + Z.pos p) by lia.
      rewrite (Z.pow_add_r 2 (Z.pos p) (Z.pos p)) by lia. ring.
  - change (2 ^ 1) with 2. apply shr_1_represents; assumption.
Qed.

Lemma record_of_loc_represents A B :
  0 < B -> represents (shr_record_of_loc (A / B) (loc_of A B)) A B.
Proof.
  intros HB. split.
  - destruct (loc_of A B) as [|[| |]]; reflexivity.
  - destruct (loc_of A B) as [|[| |]]; reflexivity.
Qed.

(** The first shift of [binary_round_aux]: to the exponent [rexp]. *)
Lemma shr_fexp_spec A B ex :
  0 <= A -> 0 < B ->
  exists mrs,
    shr_fexp prec emax (A / B) ex (loc_of A B) = (mrs, rexp (A / B) ex)
    /\ represents mrs A (B * 2 ^ (rexp (A / B) ex - ex)).
Proof.
  intros HA HB. unfold shr_fexp, shr, rexp.
  set (f := fexp prec emax (Zdigits2 (A / B) + ex)).
  destruct (f - ex) as [|p|p] eqn:En.
  - exists (shr_record_of_loc (A / B) (loc_of A B)). split.
    + f_equal. lia.
    + replace (Z.max ex f - ex) with 0 by lia. rewrite Z.mul_1_r.
      apply record_of_loc_represents, HB.
  - exists (iter_pos shr_1 p (shr_record_of_loc (A / B) (loc_of A B))). split.
    + f_equal. lia.
    + replace (Z.max ex f - ex) with (Z.pos p) by lia.
      apply iter_shr_1_represents; try assumption.
      apply record_of_loc_represents, HB.
  - exists (shr_record_of_loc (A / B) (loc_of A B)). split.
    + f_equal. lia.
    + replace (Z.max ex f - ex) with 0 by lia. rewrite Z.mul_1_r.
      apply record_of_loc_represents, HB.
Qed.

(** Rounding to nearest even picks the floor or the next integer, and the
    floor when the fraction is an integer. *)
Lemma round_nearest_even_bounds mrs A B :
  0 < B -> represents mrs A B ->
  let m1 := round_nearest_even (shr_m mrs) (loc_of_shr_record mrs) in
  A / B <= m1 <= A / B + 1 /\ (A mod B = 0 -> m1 = A / B).
Proof.
  intros HB [Hm Hl]. rewrite Hm, Hl. simpl.
  destruct (loc_of_cases A B HB) as [[Hc ->]|[[Hc ->]|[[Hc ->]|[Hc ->]]]]; simpl.
  - split; [lia | reflexivity].
  - split; [lia | lia].
  - destruct (Z.even (A / B)); split; lia.
  - split; lia.
Qed.

Lemma binary_round_aux_eq s A B ex :
  0 <= A -> 0 < B ->
  let e1 := rexp (A / B) ex in
  let B' := B * 2 ^ (e1 - ex) in
  exists m1,
    A / B' <= m1 <= A / B' + 1
    /\ (A mod B' = 0 -> m1 = A / B')
    /\ binary_round_aux prec emax s (A / B) ex (loc_of A B) = round_finish s m1 e1.
Proof.
  intros HA HB e1 B'.
  destruct (shr_fexp_spec A B ex HA HB) as (mrs & E1 & R1).
  fold e1 in E1, R1. fold B' in R1.
  assert (HB' : 0 < B').
  { unfold B'. apply Z.mul_pos_pos; [exact HB|]. apply Z.pow_pos_nonneg; [lia|].
    unfold e1, rexp. lia. }
  pose proof (round_nearest_even_bounds mrs A B' HB' R1) as [Hb Hx].
  set (m1 := round_nearest_even (shr_m mrs) (loc_of_shr_record mrs)) in *.
  exists m1. split; [exact Hb|]. split; [exact Hx|].
  assert (Hm1 : 0 <= m1).
  { assert (0 <= A / B') by (apply Z.div_pos; lia). lia. }
  destruct (shr_fexp_spec m1 1 e1 Hm1 ltac:(lia)) as (mrs2 & E2 & [R2 _]).
  rewrite Z.div_1_r in E2, R2.
  assert (L : loc_of m1 1 = loc_Exact) by (unfold loc_of; rewrite Z.mod_1_r; reflexivity).
  rewrite L in E2. rewrite Z.mul_1_l in R2.
  unfold binary_round_aux. rewrite E1. fold m1. rewrite E2.
  unfold round_finish. rewrite R2. reflexivity.
Qed.

Lemma Zdigits2_bounds m :
  0 < m -> 2 ^ (Zdigits2 m - 1) <= m < 2 ^ Zdigits2 m.
Proof.
  destruct m as [|p|p]; try lia. intros _. simpl. apply digits2_pos_bounds.
Qed.

Lemma Zdigits2_nonneg m : 0 <= Zdigits2 m.
Proof. destruct m; simpl; lia. Qed.

Lemma rexp_ge mx ex : ex <= rexp mx ex /\ -1074 <= rexp mx ex /\ Zdigits2 mx + ex - 53 <= rexp mx ex.
Proof. unfold rexp. rewrite fexp_eq. lia. Qed.

(** The mantissa before rounding has at most 53 digits, and exactly 53
    when the rounding exponent is above both the given and the least one. *)
Lemma shifted_mantissa_bounds mx ex :
  0 <= mx ->
  let e1 := rexp mx ex in
  mx / 2 ^ (e1 - ex) < 2 ^ 53
  /\ (-1074 < e1 -> ex < e1 -> 2 ^ 52 <= mx / 2 ^ (e1 - ex)).
Proof.
  intros Hm e1. pose proof (rexp_ge mx ex) as (H1 & H2 & H3). fold e1 in H1, H2, H3.
  assert (P : 0 < 2 ^ (e1 - ex)) by (apply pow2_pos; lia).
  destruct (Z.eq_dec mx 0) as [->|Hnz].
  - rewrite Z.div_0_l by lia. split; [apply pow2_pos; lia|].
    intros Ha Hb. unfold e1, rexp in Ha, Hb. rewrite fexp_eq in Ha, Hb. simpl in Ha, Hb. lia.
  - pose proof (Zdigits2_bounds mx ltac:(lia)) as [Hlo Hhi].
    pose proof (Zdigits2_nonneg mx) as Hd.
    set (d := Zdigits2 mx) in *.
    split.
    + apply Z.div_lt_upper_bound; [exact P|].
      rewrite <- (Z.pow_add_r 2 (e1 - ex) 53) by lia.
      eapply Z.lt_le_trans; [exact Hhi|]. apply Z.pow_le_mono_r; lia.
    + intros Ha Hb.
      assert (He : e1 = d + ex - 53) by (unfold e1, rexp; rewrite fexp_eq; fold d; unfold e1, rexp in Ha, Hb; rewrite fexp_eq in Ha, Hb; fold d in Ha, Hb; lia).
      apply Z.div_le_lower_bound; [exact P|].
      rewrite <- (Z.pow_add_r 2 (e1 - ex) 52) by lia.
      replace (e1 - ex + 52) with (d - 1) by lia. exact Hlo.
Qed.

(** The value [round_finish] builds is that of the mantissa it is given. *)
Lemma round_finish_value s m1 e1 :
  0 <= m1 <= 2 ^ 53 -> -1074 <= e1 ->
  (SFis_finite (round_finish s m1 e1) = true
   /\ sval (round_finish s m1 e1) = signed s (m1 * 2 ^ (e1 + 1074)))
  \/ (round_finish s m1 e1 = S754_infinity s /\ 0 < m1
      /\ (972 <= e1 \/ (971 <= e1 /\ m1 = 2 ^ 53))).
Proof.
  intros Hm He. unfold round_finish.
  destruct (Z.eq_dec m1 0) as [->|Hnz].
  - rewrite Z.div_0_l.
    + left. split; [reflexivity|]. simpl. destruct s; reflexivity.
    + apply Z.pow_nonzero; [lia|]. pose proof (rexp_ge 0 e1). lia.
  - pose proof (Zdigits2_bounds m1 ltac:(lia)) as [Hlo Hhi].
    pose proof (Zdigits2_nonneg m1) as Hd.
    destruct (Z.eq_dec m1 (2 ^ 53)) as [E|NE].
    + assert (D : Zdigits2 m1 = 54).
      { assert (Hhi' : 2 ^ 53 < 2 ^ Zdigits2 m1) by lia.
        assert (Hlo' : 2 ^ (Zdigits2 m1 - 1) <= 2 ^ 53) by lia.
        apply Z.pow_lt_mono_r_iff in Hhi'; [|lia|lia].
        apply Z.pow_le_mono_r_iff in Hlo'; lia. }
      assert (R : rexp m1 e1 = e1 + 1) by (unfold rexp; rewrite fexp_eq, D; lia).
      rewrite R. replace (e1 + 1 - e1) with 1 by lia.
      rewrite E. change (2 ^ 53 / 2 ^ 1) with (Z.pos (2 ^ 52)).
      change (emax - prec) with 971.
      destruct (Z.leb_spec (e1 + 1) 971).
      * left. split; [reflexivity|]. unfold sval, signed.
        replace (e1 + 1 + 1074) with (1 + (e1 + 1074)) by lia.
        rewrite (Z.pow_add_r 2 1 (e1 + 1074)) by lia.
        change (Z.pos (2 ^ 52)) with (2 ^ 52). change (2 ^ 53) with (2 ^ 52 * 2 ^ 1).
        destruct s; ring.
      * right. split; [reflexivity|]. split; [lia|]. right. split; [lia | reflexivity].
    + assert (D : Zdigits2 m1 <= 53).
      { assert (Hlt : 2 ^ (Zdigits2 m1 - 1) < 2 ^ 53) by lia.
        destruct (Z.eq_dec (Zdigits2 m1) 0) as [Z0|NZ]; [lia|].
        apply Z.pow_lt_mono_r_iff in Hlt; lia. }
      assert (R : rexp m1 e1 = e1) by (unfold rexp; rewrite fexp_eq; lia).
      rewrite R, Z.sub_diag. change (2 ^ 0) with 1. rewrite Z.div_1_r.
      destruct m1 as [|p|p]; try lia.
      change (emax - prec) with 971.
      destruct (Z.leb_spec e1 971).
      * left. split; [reflexivity|]. unfold sval, signed. destruct s; reflexivity.
      * right. split; [reflexivity|]. split; [lia|]. left. lia.
Qed.

(** [binary_round_aux] on the floor [mx] and the location [lx] of the
    fraction A/B, to be scaled by 2^ex: the result carries a mantissa [m1]
    that is the floor or the ceiling of the fraction at the rounding
    exponent, or it is an infinity. *)
Lemma binary_round_aux_value s A B mx lx ex :
  0 <= A -> 0 < B -> mx = A / B -> lx = loc_of A B ->
  let e1 := rexp mx ex in
  let B' := B * 2 ^ (e1 - ex) in
  let r := binary_round_aux prec emax s mx ex lx in
  exists m1,
    A / B' <= m1 <= A / B' + 1
    /\ (A mod B' = 0 -> m1 = A / B')
    /\ (-1074 < e1 -> ex < e1 -> 2 ^ 52 <= m1)
    /\ ((SFis_finite r = true /\ sval r = signed s (m1 * 2 ^ (e1 + 1074)))
        \/ (r = S754_infinity s /\ 0 < m1
            /\ (972 <= e1 \/ (971 <= e1 /\ m1 = 2 ^ 53)))).
Proof.
  intros HA HB -> -> e1 B' r.
  destruct (binary_round_aux_eq s A B ex HA HB) as (m1 & Hb & Hx & Hr).
  fold e1 in Hb, Hx, Hr. fold B' in Hb, Hx. fold r in Hr.
  pose proof (rexp_ge (A / B) ex) as (G1 & G2 & _). fold e1 in G1, G2.
  assert (Hq : A / B' = A / B / 2 ^ (e1 - ex)) by (unfold B'; rewrite Z.div_div; [reflexivity | lia | apply pow2_pos; lia]).
  assert (Hm0 : 0 <= A / B) by (apply Z.div_pos; lia).
  destruct (shifted_mantissa_bounds (A / B) ex Hm0) as [S1 S2].
  fold e1 in S1, S2. rewrite <- Hq in S1, S2.
  assert (H0 : 0 <= A / B').
  { rewrite Hq. apply Z.div_pos; [exact Hm0 | apply pow2_pos; lia]. }
  exists m1. split; [exact Hb|]. split; [exact Hx|]. split.
  - intros Ha Hc. specialize (S2 Ha Hc). lia.
  - rewrite Hr. apply round_finish_value; lia.
Qed.

Lemma Zdigits2_unique x d :
  0 < x -> 2 ^ (d - 1) <= x < 2 ^ d -> Zdigits2 x = d.
Proof.
  intros Hx [Hlo Hhi].
  pose proof (Zdigits2_bounds x Hx) as [Glo Ghi].
  pose proof (Zdigits2_nonneg x) as Gd.
  assert (Hd : 0 < d).
  { destruct (Z_lt_le_dec 0 d) as [|Hle]; [assumption|].
    destruct (Z.eq_dec d 0) as [->|]; [simpl in Hhi; lia|].
    rewrite Z.pow_neg_r in Hhi by lia. lia. }
  assert (G0 : Zdigits2 x <> 0) by (destruct x; simpl; lia).
  assert (A1 : 2 ^ (d - 1) < 2 ^ Zdigits2 x) by lia.
  assert (A2 : 2 ^ (Zdigits2 x - 1) < 2 ^ d) by lia.
  apply Z.pow_lt_mono_r_iff in A1; [|lia|lia].
  apply Z.pow_lt_mono_r_iff in A2; [|lia|lia].
  lia.
Qed.

Lemma Zdigits2_shift x k :
  0 < x -> 0 <= k -> Zdigits2 (x * 2 ^ k) = Zdigits2 x + k.
Proof.
  intros Hx Hk.
  pose proof (Zdigits2_bounds x Hx) as [Glo Ghi].
  pose proof (Zdigits2_nonneg x) as Gd.
  assert (G0 : Zdigits2 x <> 0) by (destruct x; simpl; lia).
  pose proof (pow2_pos k Hk) as P.
  apply Zdigits2_unique; [nia|].
  replace (Zdigits2 x + k - 1) with (Zdigits2 x - 1 + k) by lia.
  rewrite (Z.pow_add_r 2 (Zdigits2 x - 1) k), (Z.pow_add_r 2 (Zdigits2 x) k) by lia.
  nia.
Qed.

Lemma Zdigits2_mono x y : 0 < x -> x <= y -> Zdigits2 x <= Zdigits2 y.
Proof.
  intros Hx Hxy.
  pose proof (Zdigits2_bounds x Hx) as [Glo Ghi].
  pose proof (Zdigits2_bounds y ltac:(lia)) as [Flo Fhi].
  pose proof (Zdigits2_nonneg y).
  assert (A1 : 2 ^ (Zdigits2 x - 1) < 2 ^ Zdigits2 y) by lia.
  apply Z.pow_lt_mono_r_iff in A1; lia.
Qed.

Lemma shl_align_spec mx ex ex' :
  snd (shl_align mx ex ex') = Z.min ex ex'
  /\ Z.pos (fst (shl_align mx ex ex')) = Z.pos mx * 2 ^ (ex - Z.min ex ex').
Proof.
  unfold shl_align. destruct (ex' - ex) as [|d|d] eqn:E; simpl.
  - replace (Z.min ex ex') with ex by lia. rewrite Z.sub_diag. split; lia.
  - replace (Z.min ex ex') with ex by lia. rewrite Z.sub_diag. split; lia.
  - replace (Z.min ex ex') with ex' by lia. split; [reflexivity|].
    change (Pos.iter xO mx d) with (shift_pos d mx). rewrite shift_pos_correct.
    replace (ex - ex') with (Z.pos d) by lia. rewrite Z.mul_comm. reflexivity.
Qed.

(** Rounding the positive integer [m * 2^e] to a double: the result is the
    floor or the ceiling of the value at the exponent [gexp], exact when the
    value is a multiple of it, or an infinity. *)
Lemma binary_round_value s m e :
  -1074 <= e ->
  let V := Z.pos m * 2 ^ (e + 1074) in
  let g := gexp V in
  let r := binary_round prec emax s m e in
  exists m1,
    V / 2 ^ g <= m1 <= V / 2 ^ g + 1
    /\ (V mod 2 ^ g = 0 -> m1 = V / 2 ^ g)
    /\ (0 < g -> 2 ^ 52 <= m1)
    /\ ((SFis_finite r = true /\ sval r = signed s (m1 * 2 ^ g))
        \/ (r = S754_infinity s /\ overflow_val <= m1 * 2 ^ g)).
Proof.
  intros He V g r.
  set (d := Zdigits2 (Z.pos m)).
  set (f := fexp prec emax (d + e)).
  assert (Hf : f = Z.max (d + e - 53) (-1074)) by (unfold f; apply fexp_eq).
  pose proof (shl_align_spec m e f) as [Sz Sm].
  unfold r, binary_round. change (Z.pos (digits2_pos m)) with d. fold f.
  destruct (shl_align m e f) as [mz ez]. simpl in Sz, Sm. subst ez.
  set (ez := Z.min e f) in *.
  assert (Hez : -1074 <= ez <= e) by (unfold ez; lia).
  assert (Dz : Zdigits2 (Z.pos mz) = d + (e - ez)).
  { rewrite Sm. apply Zdigits2_shift; lia. }
  assert (HV : V = Z.pos mz * 2 ^ (ez + 1074)).
  { unfold V. rewrite Sm, <- Z.mul_assoc, <- (Z.pow_add_r 2 (e - ez) (ez + 1074)) by lia.
    do 2 f_equal. lia. }
  assert (DV : Zdigits2 V = d + e + 1074).
  { unfold V. rewrite Zdigits2_shift by lia. fold d. lia. }
  assert (E1 : rexp (Z.pos mz) ez = f).
  { unfold rexp. rewrite fexp_eq, Dz. unfold ez. lia. }
  assert (Hg : g = f + 1074) by (unfold g, gexp; rewrite DV; lia).
  destruct (binary_round_aux_value s (Z.pos mz) 1 (Z.pos mz) loc_Exact ez) as (m1 & Hb & Hx & Hn & Hr);
    [lia | lia | rewrite Z.div_1_r; reflexivity
     | unfold loc_of; rewrite Z.mod_1_r; reflexivity |].
  rewrite E1 in Hb, Hx, Hn, Hr. rewrite Z.mul_1_l in Hb, Hx.
  assert (P1 : 0 < 2 ^ (f - ez)) by (apply pow2_pos; unfold ez; lia).
  assert (P2 : 0 < 2 ^ (ez + 1074)) by (apply pow2_pos; lia).
  assert (G2 : 2 ^ g = 2 ^ (f - ez) * 2 ^ (ez + 1074)).
  { rewrite <- (Z.pow_add_r 2 (f - ez) (ez + 1074)) by (unfold ez; lia). f_equal. lia. }
  assert (Q : V / 2 ^ g = Z.pos mz / 2 ^ (f - ez)).
  { rewrite HV, G2. apply Z.div_mul_cancel_r; lia. }
  assert (M : V mod 2 ^ g = (Z.pos mz mod 2 ^ (f - ez)) * 2 ^ (ez + 1074)).
  { rewrite HV, G2. apply Z.mul_mod_distr_r; lia. }
  assert (Hnorm : 0 < g -> 2 ^ 52 <= m1).
  { intros Hgp. destruct (Z.eq_dec ez f) as [Eq|Ne].
    + rewrite Eq, Z.sub_diag in Hb, Hx. change (2 ^ 0) with 1 in Hb, Hx.
      rewrite Z.div_1_r in Hx. rewrite (Hx (Z.mod_1_r _)).
      pose proof (Zdigits2_bounds (Z.pos mz) ltac:(lia)) as [Glo _].
      rewrite Dz in Glo. replace (d + (e - ez) - 1) with 52 in Glo by lia. exact Glo.
    + apply Hn; unfold ez in *; lia. }
  exists m1. rewrite Q. split; [exact Hb|]. split; [|split].
  - rewrite M. intros Hz. apply Hx.
    apply Z.mul_eq_0 in Hz. destruct Hz as [Hz|Hz]; [exact Hz | lia].
  - exact Hnorm.
  - replace (f + 1074) with g in Hr by lia.
    destruct Hr as [Hr|(Hr & Hp & Hi)]; [left; exact Hr | right].
    split; [exact Hr|].
    destruct Hi as [Hi|[Hi ->]].
    + specialize (Hnorm ltac:(lia)).
      change overflow_val with (2 ^ (52 + 2046)). apply mul_pow2_ge; lia.
    + change overflow_val with (2 ^ (53 + 2045)). apply mul_pow2_ge; lia.
Qed.

Lemma gexp_nonneg V : 0 <= gexp V.
Proof. unfold gexp. lia. Qed.

Lemma sval_opp r : sval (SFopp r) = - sval r.
Proof. destruct r as [s|s| |s m e]; simpl; try destruct s; simpl; lia. Qed.

Lemma SFis_finite_opp r : SFis_finite (SFopp r) = SFis_finite r.
Proof. destruct r; reflexivity. Qed.

Lemma rounds_to_opp V r : rounds_to V r -> rounds_to (- V) (SFopp r).
Proof.
  intros [(-> & Hf & Hv)|(Hnz & m1 & Hb & Hx & Hn & Hr)].
  - left. rewrite SFis_finite_opp, sval_opp. repeat split; [exact Hf | lia].
  - right. split; [lia|]. exists m1. rewrite Z.abs_opp.
    split; [exact Hb|]. split; [exact Hx|]. split; [exact Hn|].
    destruct Hr as [[Hf Hv]|[-> Hi]].
    + left. rewrite SFis_finite_opp, sval_opp, Hv, Z.sgn_opp. split; [exact Hf | ring].
    + right. split; [|exact Hi]. simpl. f_equal.
      destruct (Z.ltb_spec V 0), (Z.ltb_spec (- V) 0); try reflexivity; lia.
Qed.

Lemma binary_round_rounds s m e :
  -1074 <= e ->
  rounds_to (signed s (Z.pos m * 2 ^ (e + 1074))) (binary_round prec emax s m e).
Proof.
  intros He. pose proof (pow2_pos (e + 1074) ltac:(lia)) as P.
  destruct (binary_round_value s m e He) as (m1 & Hb & Hx & Hn & Hr).
  right. split; [unfold signed; destruct s; lia|].
  exists m1.
  assert (Ha : Z.abs (signed s (Z.pos m * 2 ^ (e + 1074))) = Z.pos m * 2 ^ (e + 1074))
    by (unfold signed; destruct s; lia).
  rewrite Ha. split; [exact Hb|]. split; [exact Hx|]. split; [exact Hn|].
  destruct Hr as [[Hf Hv]|[Hr Hi]].
  - left. split; [exact Hf|]. rewrite Hv. unfold signed. destruct s.
    + rewrite Z.sgn_neg by lia. ring.
    + rewrite Z.sgn_pos by lia. ring.
  - right. split; [|exact Hi]. rewrite Hr. f_equal. unfold signed.
    destruct s; [symmetry; apply Z.ltb_lt; lia | symmetry; apply Z.ltb_ge; lia].
Qed.

Lemma binary_normalize_rounds M e :
  -1074 <= e ->
  rounds_to (M * 2 ^ (e + 1074)) (binary_normalize prec emax M e false).
Proof.
  intros He. destruct M as [|m|m]; simpl binary_normalize.
  - left. repeat split.
  - apply (binary_round_rounds false m e He).
  - replace (Z.neg m * 2 ^ (e + 1074)) with (signed true (Z.pos m * 2 ^ (e + 1074)))
      by (unfold signed; lia).
    apply (binary_round_rounds true m e He).
Qed.

(** A valid finite double is at the exponent of its own value. *)
Lemma gexp_canonical m e :
  bounded prec emax m e = true -> gexp (Z.pos m * 2 ^ (e + 1074)) = e + 1074.
Proof.
  intros H. pose proof (bounded_inv m e H) as (He & Hm & Hn).
  unfold gexp. rewrite Zdigits2_shift by lia.
  pose proof (Zdigits2_bounds (Z.pos m) ltac:(lia)) as [Glo Ghi].
  pose proof (Zdigits2_nonneg (Z.pos m)) as Gd.
  assert (D53 : Zdigits2 (Z.pos m) <= 53).
  { assert (A1 : 2 ^ (Zdigits2 (Z.pos m) - 1) < 2 ^ 53) by lia.
    destruct (Z.eq_dec (Zdigits2 (Z.pos m)) 0); [lia|].
    apply Z.pow_lt_mono_r_iff in A1; lia. }
  destruct (Z.eq_dec e (-1074)) as [->|Hne]; [lia|].
  specialize (Hn ltac:(lia)).
  assert (A2 : 2 ^ 52 < 2 ^ Zdigits2 (Z.pos m)) by lia.
  apply Z.pow_lt_mono_r_iff in A2; lia.
Qed.

(** A valid finite double is the rounding of its own value. *)
Lemma rounds_to_self x : SFis_valid_finite x -> rounds_to (sval x) x.
Proof.
  intros [Hv Hf]. destruct x as [s|s| |s m e]; try discriminate.
  - left. repeat split.
  - simpl in Hv. pose proof (bounded_inv m e Hv) as (He & Hm & Hn).
    pose proof (pow2_pos (e + 1074) ltac:(lia)) as P.
    right. split; [simpl; destruct s; lia|]. exists (Z.pos m).
    assert (Ha : Z.abs (sval (S754_finite s m e)) = Z.pos m * 2 ^ (e + 1074))
      by (simpl; destruct s; lia).
    cbv zeta. rewrite Ha, (gexp_canonical m e Hv).
    rewrite Z.div_mul, Z.mod_mul by lia.
    split; [lia|]. split; [reflexivity|]. split; [intros; apply Hn; lia|].
    left. split; [reflexivity|]. simpl. destruct s.
    + rewrite Z.sgn_neg by lia. ring.
    + rewrite Z.sgn_pos by lia. ring.
Qed.

Lemma aligned_value m e ez :
  -1074 <= ez <= e ->
  Z.pos (fst (shl_align m e ez)) * 2 ^ (ez + 1074) = Z.pos m * 2 ^ (e + 1074).
Proof.
  intros He. destruct (shl_align_spec m e ez) as [_ ->].
  replace (Z.min e ez) with ez by lia.
  rewrite <- Z.mul_assoc, <- (Z.pow_add_r 2 (e - ez) (ez + 1074)) by lia.
  do 2 f_equal. lia.
Qed.

(** The sum of two finite doubles is a rounding of the exact sum. *)
Lemma SFadd_rounds x y :
  SFis_valid_finite x -> SFis_valid_finite y ->
  rounds_to (sval x + sval y) (SFadd prec emax x y).
Proof.
  intros Hx Hy.
  destruct x as [sx|sx| |sx mx ex]; try (destruct Hx as [_ Hx]; discriminate);
    destruct y as [sy|sy| |sy my ey]; try (destruct Hy as [_ Hy]; discriminate).
  - left. destruct sx, sy; repeat split.
  - change (sval (S754_zero sx)) with 0. rewrite Z.add_0_l. apply rounds_to_self, Hy.
  - change (sval (S754_zero sy)) with 0. rewrite Z.add_0_r. apply rounds_to_self, Hx.
  - destruct Hx as [Hx _], Hy as [Hy _]. simpl in Hx, Hy.
    pose proof (bounded_inv mx ex Hx) as (Hex & _).
    pose proof (bounded_inv my ey Hy) as (Hey & _).
    unfold SFadd. set (ez := Z.min ex ey).
    assert (Hez : -1074 <= ez) by (unfold ez; lia).
    pose proof (aligned_value mx ex ez ltac:(unfold ez; lia)) as Ax.
    pose proof (aligned_value my ey ez ltac:(unfold ez; lia)) as Ay.
    set (M := cond_Zopp sx (Z.pos (fst (shl_align mx ex ez)))
              + cond_Zopp sy (Z.pos (fst (shl_align my ey ez)))).
    replace (sval (S754_finite sx mx ex) + sval (S754_finite sy my ey))
      with (M * 2 ^ (ez + 1074)).
    + apply binary_normalize_rounds, Hez.
    + unfold M, cond_Zopp, sval. rewrite Z.mul_add_distr_r.
      destruct sx, sy; rewrite ?Z.mul_opp_l, Ax, Ay; reflexivity.
Qed.

Lemma SFsub_add_opp x y : SFsub prec emax x y = SFadd prec emax x (SFopp y).
Proof.
  destruct x as [sx|sx| |sx mx ex], y as [sy|sy| |sy my ey]; try reflexivity;
    destruct sx, sy; reflexivity.
Qed.

Lemma SFopp_valid_finite y : SFis_valid_finite y -> SFis_valid_finite (SFopp y).
Proof. destruct y; intros [H1 H2]; split; try discriminate; assumption. Qed.

(** The difference of two finite doubles is a rounding of the exact
    difference. *)
Lemma SFsub_rounds x y :
  SFis_valid_finite x -> SFis_valid_finite y ->
  rounds_to (sval x - sval y) (SFsub prec emax x y).
Proof.
  intros Hx Hy. rewrite SFsub_add_opp.
  replace (sval x - sval y) with (sval x + sval (SFopp y)) by (rewrite sval_opp; lia).
  apply SFadd_rounds; [exact Hx | apply SFopp_valid_finite, Hy].
Qed.

Lemma rounds_to_not_nan V r : rounds_to V r -> SFis_nan r = false.
Proof.
  intros [(_ & Hf & _)|(_ & m1 & _ & _ & _ & [[Hf _]|[-> _]])];
    try reflexivity; destruct r; try discriminate; reflexivity.
Qed.

Lemma rounds_to_sign V r :
  rounds_to V r -> (0 <= V -> 0 <= sval r) /\ (V <= 0 -> sval r <= 0).
Proof.
  intros [(-> & _ & ->)|(Hnz & m1 & Hb & _ & _ & Hr)]; [lia|].
  cbv zeta in Hb.
  assert (H0 : 0 <= Z.abs V / 2 ^ gexp (Z.abs V)).
  { apply Z.div_pos; [lia | apply pow2_pos, gexp_nonneg]. }
  pose proof (pow2_pos _ (gexp_nonneg (Z.abs V))) as P.
  assert (Hm : 0 <= m1 * 2 ^ gexp (Z.abs V)) by nia.
  destruct Hr as [[_ ->]|[-> _]].
  - split; intros HV.
    + rewrite Z.sgn_pos by lia. lia.
    + rewrite Z.sgn_neg by lia. lia.
  - pose proof beyond_val_pos.
    split; intros HV; simpl.
    + destruct (Z.ltb_spec V 0); lia.
    + destruct (Z.ltb_spec V 0); lia.
Qed.

(** Rounding does not cross a value of the grid above. *)
Lemma rounds_to_le_grid V r K :
  rounds_to V r -> 0 < V -> V <= K -> K mod 2 ^ gexp V = 0 -> K < overflow_val ->
  SFis_finite r = true /\ sval r <= K.
Proof.
  intros [(-> & _)|(Hnz & m1 & Hb & Hx & _ & Hr)] HV HK Hdiv Hmax; [lia|].
  cbv zeta in Hb, Hx, Hr. rewrite (Z.abs_eq V) in * by lia.
  set (g := gexp V) in *.
  pose proof (pow2_pos g (gexp_nonneg V)) as P.
  pose proof (Z.div_mod V (2 ^ g) ltac:(lia)) as DV.
  pose proof (Z.mod_pos_bound V (2 ^ g) P) as MV.
  pose proof (Z.div_mod K (2 ^ g) ltac:(lia)) as DK.
  rewrite Hdiv, Z.add_0_r in DK.
  assert (Hle : m1 * 2 ^ g <= K).
  { destruct (Z.eq_dec (V mod 2 ^ g) 0) as [E|NE].
    - rewrite (Hx E). nia.
    - assert (V / 2 ^ g < K / 2 ^ g) by nia. nia. }
  destruct Hr as [[Hf Hv]|[_ Hi]]; [|lia].
  split; [exact Hf|]. rewrite Hv, Z.sgn_pos by lia. lia.
Qed.

(** Rounding does not cross a double below. *)
Lemma rounds_to_ge_pos V r mk h :
  rounds_to V r -> 0 < mk < 2 ^ 53 -> 0 <= h -> mk * 2 ^ h <= V -> mk * 2 ^ h < beyond_val ->
  mk * 2 ^ h <= sval r.
Proof.
  intros Hr0 Hmk Hh HK Hmax.
  pose proof (pow2_pos h Hh) as Ph.
  assert (HV : 0 < V) by nia.
  destruct Hr0 as [(-> & _)|(Hnz & m1 & Hb & Hx & Hn & Hr)]; [lia|].
  cbv zeta in Hb, Hx, Hn, Hr. rewrite (Z.abs_eq V) in * by lia.
  set (g := gexp V) in *.
  pose proof (pow2_pos g (gexp_nonneg V)) as P.
  destruct Hr as [[Hf Hv]|[-> _]].
  - rewrite Hv, Z.sgn_pos by lia. rewrite Z.mul_1_l.
    destruct (Z_le_gt_dec g h) as [Hgh|Hgh].
    + replace h with ((h - g) + g) by lia.
      rewrite (Z.pow_add_r 2 (h - g) g), Z.mul_assoc by (unfold g; pose proof (gexp_nonneg V); lia).
      apply Z.mul_le_mono_nonneg_r; [lia|].
      eapply Z.le_trans; [|apply Hb].
      apply Z.div_le_lower_bound; [exact P|].
      replace h with ((h - g) + g) in HK by lia.
      rewrite (Z.pow_add_r 2 (h - g) g) in HK by (unfold g; pose proof (gexp_nonneg V); lia).
      lia.
    + specialize (Hn ltac:(lia)).
      replace g with ((g - h) + h) by lia.
      rewrite (Z.pow_add_r 2 (g - h) h) by lia.
      assert (2 ^ 1 <= 2 ^ (g - h)) by (apply Z.pow_le_mono_r; lia).
      change (2 ^ 1) with 2 in *. change (2 ^ 53) with (2 * 2 ^ 52) in Hmk.
      rewrite (Z.mul_comm (2 ^ (g - h)) (2 ^ h)).
      apply Z.lt_le_incl, (scaled_lt (2 ^ 52)); lia.
  - simpl. replace (V <? 0) with false by (symmetry; apply Z.ltb_ge; lia). lia.
Qed.

Lemma gexp_mono V K : 0 < V -> V <= K -> gexp V <= gexp K.
Proof. intros HV HK. unfold gexp. pose proof (Zdigits2_mono V K HV HK). lia. Qed.

(** Rounding is monotone against the doubles: it does not cross a finite
    double above the exact value, nor one below it. *)
Lemma rounds_to_le_float V r k :
  rounds_to V r -> SFis_valid_finite k -> V <= sval k -> sval r <= sval k.
Proof.
  intros Hr [Hv Hf] HV. pose proof (rounds_to_sign V r Hr) as [Sp Sn].
  destruct k as [s|s| |s m e]; try discriminate.
  - simpl in *. apply Sn, HV.
  - simpl in Hv. pose proof (bounded_inv m e Hv) as (He & Hm & _).
    pose proof (pow2_pos (e + 1074) ltac:(lia)) as P.
    pose proof (finite_val_bounds m e Hv) as [_ Hmax].
    destruct s; simpl in HV |- *.
    + apply rounds_to_opp in Hr.
      pose proof (rounds_to_ge_pos (- V) (SFopp r) (Z.pos m) (e + 1074) Hr
                    ltac:(lia) ltac:(lia) ltac:(lia)) as G.
      rewrite sval_opp in G.
      pose proof overflow_lt_beyond.
      specialize (G ltac:(lia)). lia.
    + destruct (Z_le_gt_dec V 0) as [Hle|Hgt]; [specialize (Sn Hle); lia|].
      pose proof (gexp_mono V _ ltac:(lia) HV) as Gm.
      rewrite (gexp_canonical m e Hv) in Gm.
      apply (rounds_to_le_grid V r); try assumption; try lia.
      replace (e + 1074) with ((e + 1074 - gexp V) + gexp V) by lia.
      rewrite (Z.pow_add_r 2 (e + 1074 - gexp V) (gexp V)) by (pose proof (gexp_nonneg V); lia).
      rewrite Z.mul_assoc. apply Z.mod_mul.
      pose proof (pow2_pos _ (gexp_nonneg V)). lia.
Qed.

Lemma rounds_to_ge_float V r k :
  rounds_to V r -> SFis_valid_finite k -> sval k <= V -> sval k <= sval r.
Proof.
  intros Hr Hk HV.
  pose proof (rounds_to_le_float (- V) (SFopp r) (SFopp k) (rounds_to_opp V r Hr)
                (SFopp_valid_finite k Hk)) as G.
  rewrite !sval_opp in G. lia.
Qed.

Lemma new_location_spec A B : 0 < B -> new_location B (A mod B) = loc_of A B.
Proof.
  intros HB. pose proof (Z.mod_pos_bound A B HB) as Hf.
  unfold new_location, new_location_even, new_location_odd, loc_of.
  destruct (Z.even B) eqn:Ev; [reflexivity|].
  destruct (Z.eqb_spec (A mod B) 0); [reflexivity|]. f_equal.
  assert (Hodd : Z.odd B = true) by (rewrite <- Z.negb_even, Ev; reflexivity).
  apply Z.odd_spec in Hodd. destruct Hodd as [c Hc].
  destruct (Z.compare_spec (2 * (A mod B) + 1) B);
    symmetry; first [apply Z.compare_lt_iff; lia | apply Z.compare_gt_iff; lia].
Qed.

Lemma Zdigits2_le V n : 0 < V -> V < 2 ^ n -> Zdigits2 V <= n.
Proof.
  intros HV Hn. pose proof (Zdigits2_bounds V HV) as [Glo _].
  destruct (Z_lt_le_dec n 0) as [Hneg|Hpos]; [rewrite Z.pow_neg_r in Hn by lia; lia|].
  assert (A1 : 2 ^ (Zdigits2 V - 1) < 2 ^ n) by lia.
  apply Z.pow_lt_mono_r_iff in A1; lia.
Qed.

Lemma pow2_le_cancel a b : 0 <= a -> 0 <= b -> 2 ^ a < 2 ^ b -> a < b.
Proof. intros Ha Hb H. apply Z.pow_lt_mono_r_iff in H; lia. Qed.

(** The quotient of a positive double by a larger one is at most 1. *)
Lemma SFdiv_le_one mx ex my ey :
  bounded prec emax mx ex = true -> bounded prec emax my ey = true ->
  Z.pos mx * 2 ^ (ex + 1074) <= Z.pos my * 2 ^ (ey + 1074) ->
  let r := SFdiv prec emax (S754_finite false mx ex) (S754_finite false my ey) in
  SFis_finite r = true /\ 0 <= sval r <= unit_val.
Proof.
  intros Hx Hy Hle r.
  pose proof (bounded_inv mx ex Hx) as (Hex & _).
  pose proof (bounded_inv my ey Hy) as (Hey & _).
  pose proof (Zdigits2_bounds (Z.pos mx) ltac:(lia)) as [X1 X2].
  pose proof (Zdigits2_bounds (Z.pos my) ltac:(lia)) as [Y1 Y2].
  pose proof (Zdigits2_nonneg (Z.pos mx)) as X0.
  pose proof (Zdigits2_nonneg (Z.pos my)) as Y0.
  assert (X3 : Zdigits2 (Z.pos mx) <> 0) by (simpl; lia).
  set (d1 := Zdigits2 (Z.pos mx)) in *. set (d2 := Zdigits2 (Z.pos my)) in *.
  pose proof (pow2_pos (ex + 1074) ltac:(lia)) as Px.
  pose proof (pow2_pos (ey + 1074) ltac:(lia)) as Py.
  (* the digits of the operands *)
  assert (Hd : d1 + ex <= d2 + ey).
  { assert (A1 : 2 ^ (d1 - 1 + (ex + 1074)) < 2 ^ (d2 + (ey + 1074))).
    { rewrite (Z.pow_add_r 2 (d1 - 1) (ex + 1074)), (Z.pow_add_r 2 d2 (ey + 1074)) by lia. nia. }
    apply pow2_le_cancel in A1; lia. }
  unfold r, SFdiv, SFdiv_core_binary. fold d1 d2.
  set (e' := Z.min (fexp prec emax (d1 + ex - (d2 + ey))) (ex - ey)).
  assert (He' : e' <= -53 /\ e' <= ex - ey) by (unfold e'; rewrite fexp_eq; lia).
  set (s := ex - ey - e').
  assert (Hs : 0 <= s) by (unfold s; lia).
  set (A := match s with Z.pos _ => Z.shiftl (Z.pos mx) s | 0 => Z.pos mx | Z.neg _ => 0 end).
  assert (HA : A = Z.pos mx * 2 ^ s).
  { unfold A. destruct s as [|p|p] eqn:Es; [lia | apply Z.shiftl_mul_pow2; lia | lia]. }
  pose proof (pow2_pos s Hs) as Ps.
  assert (EQ : Z.div_eucl A (Z.pos my) = (A / Z.pos my, A mod Z.pos my)).
  { unfold Z.div, Z.modulo. destruct (Z.div_eucl A (Z.pos my)); reflexivity. }
  rewrite EQ. simpl xorb.
  destruct (binary_round_aux_value false A (Z.pos my) (A / Z.pos my)
              (new_location (Z.pos my) (A mod Z.pos my)) e')
    as (m1 & Hb & Hxx & _ & Hr);
    [nia | lia | reflexivity | apply new_location_spec; lia |].
  set (q := A / Z.pos my) in *.
  set (e1 := rexp q e') in *.
  pose proof (rexp_ge q e') as (E1 & E2 & _). fold e1 in E1, E2.
  set (B' := Z.pos my * 2 ^ (e1 - e')) in *.
  pose proof (pow2_pos (e1 - e') ltac:(lia)) as P1.
  (* the exact quotient is at most 1 *)
  assert (HAB : A <= Z.pos my * 2 ^ (- e')).
  { apply (Z.mul_le_mono_pos_r _ _ (2 ^ (ey + 1074))); [exact Py|].
    rewrite HA, <- !Z.mul_assoc.
    rewrite <- (Z.pow_add_r 2 s (ey + 1074)), <- (Z.pow_add_r 2 (- e') (ey + 1074)) by lia.
    replace (s + (ey + 1074)) with ((ex + 1074) + (- e')) by (unfold s; lia).
    replace (- e' + (ey + 1074)) with ((ey + 1074) + (- e')) by lia.
    rewrite (Z.pow_add_r 2 (ex + 1074) (- e')), (Z.pow_add_r 2 (ey + 1074) (- e')) by lia.
    pose proof (pow2_pos (- e') ltac:(lia)).
    rewrite !Z.mul_assoc. apply Z.mul_le_mono_nonneg_r; [lia | exact Hle]. }
  pose proof (pow2_pos (- e') ltac:(lia)) as Pe.
  assert (Hq : 0 <= q <= 2 ^ (- e')).
  { split; [apply Z.div_pos; lia|]. apply Z.div_le_upper_bound; lia. }
  (* the rounding exponent is at most -52 *)
  assert (He1 : e1 <= -52).
  { unfold e1, rexp. rewrite fexp_eq.
    destruct (Z.eq_dec q 0) as [->|Hq0]; [simpl; lia|].
    assert (Zdigits2 q <= - e' + 1).
    { apply Zdigits2_le; [lia|].
      rewrite (Z.pow_add_r 2 (- e') 1) by lia. change (2 ^ 1) with 2. lia. }
    lia. }
  pose proof (pow2_pos (- e1) ltac:(lia)) as Pm.
  assert (HB' : A <= B' * 2 ^ (- e1)).
  { unfold B'. rewrite <- Z.mul_assoc, <- (Z.pow_add_r 2 (e1 - e') (- e1)) by lia.
    replace (e1 - e' + - e1) with (- e') by lia. exact HAB. }
  assert (HBp : 0 < B') by (unfold B'; nia).
  assert (Hm1 : 0 <= m1 <= 2 ^ (- e1)).
  { assert (0 <= A / B') by (apply Z.div_pos; lia).
    split; [lia|].
    pose proof (Z.div_mod A B' ltac:(lia)) as DM.
    pose proof (Z.mod_pos_bound A B' HBp) as MB.
    destruct (Z.eq_dec (A mod B') 0) as [E0|NE0].
    - rewrite (Hxx E0). apply Z.div_le_upper_bound; lia.
    - assert (A / B' < 2 ^ (- e1)); [|lia].
      apply Z.div_lt_upper_bound; [exact HBp|].
      destruct (Z.eq_dec A (B' * 2 ^ (- e1))) as [Eq|Ne]; [|lia].
      exfalso. apply NE0. rewrite Eq, Z.mul_comm. apply Z.mod_mul. lia. }
  destruct Hr as [[Hf Hv]|[_ [_ Hi]]]; [|lia].
  split; [exact Hf|]. rewrite Hv. unfold signed.
  pose proof (pow2_pos (e1 + 1074) ltac:(lia)) as Pg.
  split; [apply Z.mul_nonneg_nonneg; lia|].
  unfold unit_val. replace 1074 with (- e1 + (e1 + 1074)) at 2 by lia.
  rewrite (Z.pow_add_r 2 (- e1) (e1 + 1074)) by lia.
  apply Z.mul_le_mono_nonneg_r; lia.
Qed.

(** ** Primitive doubles *)

Lemma is_finite_spec x : is_finite x = SFis_finite (Prim2SF x).
Proof.
  unfold is_finite, is_infinity. rewrite is_nan_spec, eqb_spec, abs_spec.
  change (Prim2SF infinity) with (S754_infinity false).
  destruct (Prim2SF x) as [s|s| |s m e]; try reflexivity; destruct s; reflexivity.
Qed.

Lemma prim_valid_finite x : is_finite x = true -> SFis_valid_finite (Prim2SF x).
Proof. rewrite is_finite_spec. intros H. split; [apply Prim2SF_valid | exact H]. Qed.

Lemma is_finite_not_nan x : is_finite x = true -> is_nan x = false.
Proof.
  rewrite is_finite_spec, is_nan_spec. destruct (Prim2SF x); try discriminate; reflexivity.
Qed.

Lemma finite_by_value x :
  is_nan x = false -> - beyond_val < fval x < beyond_val -> is_finite x = true.
Proof.
  rewrite is_finite_spec, is_nan_spec. unfold fval.
  destruct (Prim2SF x) as [s|s| |s m e]; try discriminate; try reflexivity.
  simpl. destruct s; lia.
Qed.

Lemma fval_zero : fval 0%float = 0.
Proof. reflexivity. Qed.

Lemma fval_one : fval 1%float = unit_val.
Proof. vm_compute. reflexivity. Qed.

(** The sum and the difference of two finite doubles round the exact ones. *)
Lemma add_rounds x y :
  is_finite x = true -> is_finite y = true ->
  rounds_to (fval x + fval y) (Prim2SF (x + y)).
Proof.
  intros Hx Hy. rewrite add_spec. apply SFadd_rounds; apply prim_valid_finite; assumption.
Qed.

Lemma sub_rounds x y :
  is_finite x = true -> is_finite y = true ->
  rounds_to (fval x - fval y) (Prim2SF (x - y)).
Proof.
  intros Hx Hy. rewrite sub_spec. apply SFsub_rounds; apply prim_valid_finite; assumption.
Qed.

Lemma rounds_to_exact V r :
  rounds_to V r -> 0 <= V < 2 ^ 53 * unit_val -> V mod unit_val = 0 ->
  SFis_finite r = true /\ sval r = V.
Proof.
  intros Hr HV Hdiv.
  destruct (Z.eq_dec V 0) as [->|Hnz].
  - destruct Hr as [(_ & Hf & Hv)|[Hc _]]; [auto | lia].
  - assert (Hd : Zdigits2 V <= 53 + 1074).
    { apply Zdigits2_le; [lia|]. rewrite (Z.pow_add_r 2 53 1074) by lia. exact (proj2 HV). }
    assert (Hg : 0 <= gexp V <= 1074) by (unfold gexp; lia).
    pose proof (pow2_pos (gexp V) ltac:(lia)) as Pg.
    pose proof unit_val_pos as P.
    pose proof (Z.div_mod V unit_val ltac:(lia)) as DV. rewrite Hdiv, Z.add_0_r in DV.
    assert (Hk : 0 < V / unit_val < 2 ^ 53) by nia.
    assert (Hgrid : V mod 2 ^ gexp V = 0).
    { assert (G : (unit_val * (V / unit_val)) mod 2 ^ gexp V = 0).
      { unfold unit_val at 1. replace 1074 with (gexp V + (1074 - gexp V)) at 1 by lia.
        rewrite (Z.pow_add_r 2 (gexp V) (1074 - gexp V)) by lia.
        rewrite <- Z.mul_assoc, Z.mul_comm. apply Z.mod_mul. lia. }
      rewrite <- DV in G. exact G. }
    pose proof unit_lt_overflow as U. pose proof overflow_lt_beyond as O.
    destruct (rounds_to_le_grid V r V Hr ltac:(lia) ltac:(lia) Hgrid ltac:(lia)) as [Hf Hle].
    split; [exact Hf|].
    pose proof (rounds_to_ge_pos V r (V / unit_val) 1074 Hr Hk ltac:(lia)) as Hge.
    change (2 ^ 1074) with unit_val in Hge.
    rewrite Z.mul_comm, <- DV in Hge.
    specialize (Hge ltac:(lia) ltac:(lia)). lia.
Qed.

(** The conversion of an integer below 2^53 is exact. *)
Lemma of_int_value k :
  0 <= k < 2 ^ 53 -> is_finite (of_int k) = true /\ fval (of_int k) = k * unit_val.
Proof.
  intros Hk. unfold of_int. replace (k <? 0) with false by (symmetry; apply Z.ltb_ge; lia).
  rewrite is_finite_spec. unfold fval. rewrite of_uint63_spec.
  assert (Hz : Uint63.to_Z (Uint63.of_Z k) = k).
  { rewrite Uint63.of_Z_spec. apply Z.mod_small.
    assert (2 ^ 53 < Uint63.wB) by reflexivity. lia. }
  rewrite Hz.
  pose proof (binary_normalize_rounds k 0 ltac:(lia)) as Hr.
  change (2 ^ (0 + 1074)) with unit_val in Hr.
  pose proof unit_val_pos as P.
  apply (rounds_to_exact _ _ Hr); [nia | apply Z.mod_mul; lia].
Qed.

(** One step of a sum of numbers in [0,1): from a sum of at most [k] to one
    of at most [k + 1]. *)
Lemma add_unit_bound c w k :
  is_finite c = true -> 0 <= fval c <= k * unit_val -> 0 <= k -> k + 1 <= 2 ^ 53 ->
  (0 <=? w)%float = true -> (w <? 1)%float = true ->
  is_finite (c + w) = true /\ 0 <= fval (c + w) <= (k + 1) * unit_val.
Proof.
  intros Hc Hcv Hk0 Hk H0 H1.
  destruct (leb_not_nan _ _ H0) as [N0 Nw].
  rewrite leb_fval in H0 by assumption. rewrite ltb_fval in H1 by (try assumption; reflexivity).
  rewrite fval_zero in H0. rewrite fval_one in H1.
  apply Z.leb_le in H0. apply Z.ltb_lt in H1.
  pose proof unit_val_pos as P. pose proof unit_lt_overflow as U.
  pose proof overflow_lt_beyond as O.
  assert (P2 : unit_val < beyond_val) by nia.
  assert (Hw : is_finite w = true) by (apply finite_by_value; [assumption | lia]).
  pose proof (add_rounds c w Hc Hw) as Hr.
  set (V := fval c + fval w) in *.
  pose proof (rounds_to_sign V _ Hr) as [Sp _].
  pose proof (rounds_to_not_nan V _ Hr) as Nn.
  assert (HVK : V < (k + 1) * unit_val) by (unfold V; lia).
  assert (Hfin : SFis_finite (Prim2SF (c + w)) = true /\ sval (Prim2SF (c + w)) <= (k + 1) * unit_val).
  { destruct (Z.eq_dec V 0) as [E0|NE0].
    - destruct Hr as [(_ & Hf & Hv)|[Hc' _]]; [|lia]. rewrite Hv. split; [exact Hf | lia].
    - assert (Hd : Zdigits2 V <= 53 + 1074).
      { apply Zdigits2_le; [unfold V in *; lia|]. rewrite (Z.pow_add_r 2 53 1074) by lia.
        change (2 ^ 1074) with unit_val. nia. }
      assert (Hg : 0 <= gexp V <= 1074) by (unfold gexp; lia).
      apply (rounds_to_le_grid V _ _ Hr); [unfold V in *; lia | lia | | nia].
      unfold unit_val. replace 1074 with ((1074 - gexp V) + gexp V) by lia.
      rewrite (Z.pow_add_r 2 (1074 - gexp V) (gexp V)) by lia.
      rewrite Z.mul_assoc. apply Z.mod_mul.
      pose proof (pow2_pos (gexp V) ltac:(lia)). lia. }
  destruct Hfin as [Hf Hle]. rewrite is_finite_spec. split; [exact Hf|].
  unfold fval. split; [apply Sp; unfold V; lia | exact Hle].
Qed.

Lemma fold_add_unit_bound (ws : list float) c k :
  Forall (fun w => (0 <=? w)%float = true /\ (w <? 1)%float = true) ws ->
  is_finite c = true -> 0 <= fval c <= k * unit_val -> 0 <= k ->
  k + Z.of_nat (length ws) <= 2 ^ 53 ->
  is_finite (fold_left PrimFloat.add ws c) = true
  /\ 0 <= fval (fold_left PrimFloat.add ws c) <= (k + Z.of_nat (length ws)) * unit_val.
Proof.
  revert c k. induction ws as [|w ws IH]; intros c k Hall Hc Hv Hk Hlen.
  - simpl. rewrite Z.add_0_r. auto.
  - apply Forall_cons in Hall. destruct Hall as [[H0 H1] Hall].
    simpl length in *. simpl fold_left.
    destruct (add_unit_bound c w k Hc Hv Hk ltac:(lia) H0 H1) as [Hc' Hv'].
    replace (k + Z.of_nat (S (length ws))) with ((k + 1) + Z.of_nat (length ws)) by lia.
    apply IH; try assumption; lia.
Qed.

(** A non-negative finite double divided by a larger one is in [0,1]. *)
Lemma div_unit_bound c n :
  is_finite c = true -> is_finite n = true -> 0 <= fval c <= fval n -> 0 < fval n ->
  is_finite (c / n) = true /\ 0 <= fval (c / n) <= unit_val.
Proof.
  intros Hc Hn Hv Hpos. rewrite is_finite_spec in *. unfold fval in *. rewrite div_spec.
  pose proof (Prim2SF_valid c) as Vc. pose proof (Prim2SF_valid n) as Vn.
  pose proof unit_val_pos as P.
  destruct (Prim2SF c) as [sc|sc| |sc mc ec], (Prim2SF n) as [sn|sn| |sn mn en];
    try discriminate; simpl in Hpos; try lia.
  - simpl. split; [reflexivity | lia].
  - simpl in Vc, Vn. pose proof (finite_val_bounds _ _ Vc). pose proof (finite_val_bounds _ _ Vn).
    destruct sc; [simpl in Hv; lia|]. destruct sn; [lia|].
    apply SFdiv_le_one; try assumption. simpl in Hv. lia.
Qed.

Lemma finite_value_range x : is_finite x = true -> - beyond_val < fval x < beyond_val.
Proof.
  rewrite is_finite_spec. unfold fval. pose proof (Prim2SF_valid x) as Hv.
  pose proof beyond_val_pos as P. pose proof overflow_lt_beyond as O.
  destruct (Prim2SF x) as [s|s| |s m e]; try discriminate; intros _; simpl.
  - lia.
  - simpl in Hv. pose proof (finite_val_bounds m e Hv). destruct s; lia.
Qed.

(** The sign of a difference of doubles is that of the exact difference, or
    the difference is a zero. *)
Lemma sub_sign t o :
  is_finite t = true -> is_nan o = false ->
  is_nan (t - o) = false
  /\ (fval o <= fval t -> 0 <= fval (t - o))
  /\ (fval t <= fval o -> fval (t - o) <= 0).
Proof.
  intros Ht No. pose proof (finite_value_range t Ht) as Rt.
  destruct (is_finite o) eqn:Fo.
  - pose proof (sub_rounds t o Ht Fo) as Hr.
    pose proof (rounds_to_sign _ _ Hr) as [Sp Sn].
    rewrite is_nan_spec. split; [exact (rounds_to_not_nan _ _ Hr)|].
    unfold fval in *. split; intros H; [apply Sp | apply Sn]; lia.
  - rewrite is_finite_spec in Ht, Fo. rewrite is_nan_spec in *. unfold fval in *.
    rewrite sub_spec.
    destruct (Prim2SF t) as [st|st| |st mt et], (Prim2SF o) as [so|so| |so mo eo];
      try discriminate; simpl in *; destruct so; simpl; repeat split; intros; lia.
Qed.

(** A product by a positive finite double keeps the sign. *)
Lemma mul_sign e r :
  is_nan e = false -> is_finite r = true -> 0 < fval r ->
  is_nan (e * r) = false
  /\ (0 <= fval e -> 0 <= fval (e * r))
  /\ (fval e <= 0 -> fval (e * r) <= 0).
Proof.
  intros Ne Fr Hr. rewrite is_finite_spec in Fr. rewrite is_nan_spec in *.
  unfold fval in *. rewrite mul_spec.
  pose proof beyond_val_pos as P.
  destruct (Prim2SF e) as [se|se| |se me ee] eqn:Ee, (Prim2SF r) as [sr|sr| |sr mr er] eqn:Er;
    try discriminate; simpl in Hr; try lia.
  - simpl. repeat split; lia.
  - assert (sr = false) by (destruct sr; [lia | reflexivity]). subst sr.
    simpl. destruct se; simpl; repeat split; lia.
  - assert (sr = false) by (destruct sr; [lia | reflexivity]). subst sr.
    unfold SF64mul, SFmul. rewrite Bool.xorb_false_r.
    destruct (binary_round_aux_value se (Z.pos (me * mr)) 1 (Z.pos (me * mr)) loc_Exact (ee + er))
      as (m1 & Hb & _ & _ & Hres);
      [lia | lia | rewrite Z.div_1_r; reflexivity
       | unfold loc_of; rewrite Z.mod_1_r; reflexivity |].
    set (e1 := rexp (Z.pos (me * mr)) (ee + er)) in *.
    pose proof (rexp_ge (Z.pos (me * mr)) (ee + er)) as (G1 & G2 & _). fold e1 in G1, G2.
    assert (H0 : 0 <= Z.pos (me * mr) / (1 * 2 ^ (e1 - (ee + er)))).
    { apply Z.div_pos; [lia|]. rewrite Z.mul_1_l. apply pow2_pos. lia. }
    pose proof (pow2_pos (e1 + 1074) ltac:(lia)) as Pg.
    assert (Hm : 0 <= m1 * 2 ^ (e1 + 1074)) by nia.
    pose proof (Prim2SF_valid e) as Ve. rewrite Ee in Ve. simpl in Ve.
    pose proof (finite_val_bounds me ee Ve) as Be.
    destruct Hres as [[Hf Hv]|[Hi _]].
    + split; [destruct (binary_round_aux _ _ _ _ _ _); try discriminate; reflexivity|].
      rewrite Hv. unfold signed. destruct se; simpl; split; intros; lia.
    + rewrite Hi. simpl. split; [reflexivity|]. destruct se; simpl; split; intros; lia.
Qed.

(** Adding a non-negative double does not decrease a finite double, and
    adding a non-positive one does not increase it. *)
Lemma add_direction w d :
  is_finite w = true -> is_nan d = false ->
  is_nan (w + d) = false
  /\ (0 <= fval d -> fval w <= fval (w + d))
  /\ (fval d <= 0 -> fval (w + d) <= fval w).
Proof.
  intros Fw Nd. pose proof (finite_value_range w Fw) as Rw.
  destruct (is_finite d) eqn:Fd.
  - pose proof (add_rounds w d Fw Fd) as Hr.
    rewrite is_nan_spec. split; [exact (rounds_to_not_nan _ _ Hr)|].
    pose proof (prim_valid_finite w Fw) as Vw.
    unfold fval in *. split; intros H.
    + apply (rounds_to_ge_float _ _ _ Hr Vw). lia.
    + apply (rounds_to_le_float _ _ _ Hr Vw). lia.
  - rewrite is_finite_spec in Fw, Fd. rewrite is_nan_spec in *. unfold fval in *.
    rewrite add_spec.
    destruct (Prim2SF w) as [sw|sw| |sw mw ew], (Prim2SF d) as [sd|sd| |sd md ed];
      try discriminate; simpl in *; destruct sd; simpl; repeat split; intros; lia.
Qed.
(** ** The loops over the input cells *)

Section Loops.

Variable N : nat.
Variable LR : double.

Lemma binarize_cases p : (p = 0 /\ binarize p = 0) \/ (p <> 0 /\ binarize p = 1).
Proof. unfold binarize. destruct (Z.eqb_spec p 0); auto. Qed.

Lemma sum_active_snoc mask ws m w :
  length mask = length ws ->
  sum_active (mask ++ [m]) (ws ++ [w]) =
  if m =? 1 then (sum_active mask ws + w)%float else sum_active mask ws.
Proof.
  intros Hlen. unfold sum_active.
  rewrite (zip_with_app pair mask [m] ws [w] Hlen).
  rewrite filter_app, fmap_app, fold_left_app. simpl.
  rewrite filter_cons, filter_nil. simpl.
  destruct (Z.eqb_spec m 1); case_decide; try done.
Qed.

(** After [n] iterations the first [n] inputs are the binarized pixels and
    the running sum is the sum of the active weights among the first [n]. *)
Lemma forward_loop_prefix img c n :
  (n <= length (pixel img))%nat -> (n <= length (input c))%nat -> (n <= length (weight c))%nat ->
  fold_left (forward_step img) (seq 0 n) (c, 0%float)
  = (mkCell ((binarize <$> take n (pixel img)) ++ drop n (input c)) (weight c) (output c),
     sum_active (binarize <$> take n (pixel img)) (take n (weight c))).
Proof.
  induction n as [|n IH]; intros Hp Hi Hw.
  - destruct c; reflexivity.
  - rewrite seq_S, fold_left_app, IH by lia. simpl.
    destruct (lookup_lt_is_Some_2 (pixel img) n) as [p Hpn]; [lia|].
    destruct (lookup_lt_is_Some_2 (input c) n) as [x Hxn]; [lia|].
    destruct (lookup_lt_is_Some_2 (weight c) n) as [w Hwn]; [lia|].
    unfold forward_step; simpl.
    rewrite (list_lookup_total_correct _ _ _ Hpn), (list_lookup_total_correct _ _ _ Hwn).
    assert (Hl : length (binarize <$> take n (pixel img)) = n)
      by (rewrite length_fmap, length_take; lia).
    rewrite insert_app_r_alt by lia. rewrite Hl, Nat.sub_diag.
    rewrite (drop_S _ _ _ Hxn). simpl.
    rewrite (take_S_r _ _ _ Hpn), (take_S_r _ _ _ Hwn), fmap_app. simpl.
    rewrite sum_active_snoc by (rewrite Hl, length_take; lia).
    rewrite <- (assoc_L (++)). simpl.
    replace ((((binarize <$> take n (pixel img)) ++ binarize p :: drop (S n) (input c)) !!! n))
      with (binarize p).
    2:{ symmetry. apply list_lookup_total_correct.
        rewrite lookup_app_r by lia. rewrite Hl, Nat.sub_diag. reflexivity. }
    destruct (binarize_cases p) as [[_ ->]|[_ ->]]; reflexivity.
Qed.

Lemma computeCell_eq img c :
  wf_image N img -> wf_cell N c ->
  computeCell N img c
  = mkCell (binarize <$> pixel img) (weight c)
      (sum_active (binarize <$> pixel img) (weight c) / of_int (Z.of_nat N))%float.
Proof.
  intros Hp [Hi Hw]. unfold wf_image in Hp. unfold computeCell.
  rewrite forward_loop_prefix by lia. simpl. unfold set_output. simpl.
  rewrite !take_ge, drop_ge, (right_id_L [] (++)) by lia. reflexivity.
Qed.

Lemma computeCell_wf img c : wf_image N img -> wf_cell N c -> wf_cell N (computeCell N img c).
Proof.
  intros Hp Hc. rewrite computeCell_eq by done. destruct Hc as [_ Hw].
  split; simpl; [rewrite length_fmap; exact Hp | exact Hw].
Qed.

(** The forward loop never writes a weight, whatever the array sizes. *)
Lemma forward_loop_weight img js st :
  weight (fold_left (forward_step img) js st).1 = weight st.1.
Proof.
  revert st. induction js as [|j js IH]; intros st; [reflexivity|].
  simpl. rewrite IH. unfold forward_step. simpl.
  destruct (_ =? 0); reflexivity.
Qed.

Lemma computeCell_weight img c : weight (computeCell N img c) = weight c.
Proof. unfold computeCell. simpl. apply forward_loop_weight. Qed.

(** After [n] iterations of the update loop the first [n] weights are
    updated and nothing else has changed. *)
Lemma update_loop_prefix temp c n :
  (n <= length (input c))%nat -> (n <= length (weight c))%nat ->
  fold_left (update_step temp) (seq 0 n) c
  = mkCell (input c)
      (zip_with (updated temp) (take n (input c)) (take n (weight c)) ++ drop n (weight c))
      (output c).
Proof.
  induction n as [|n IH]; intros Hi Hw.
  - destruct c; reflexivity.
  - rewrite seq_S, fold_left_app, IH by lia. simpl.
    destruct (lookup_lt_is_Some_2 (input c) n) as [x Hxn]; [lia|].
    destruct (lookup_lt_is_Some_2 (weight c) n) as [w Hwn]; [lia|].
    assert (Hl : length (zip_with (updated temp) (take n (input c)) (take n (weight c))) = n)
      by (rewrite length_zip_with, !length_take; lia).
    unfold update_step; simpl.
    rewrite (list_lookup_total_correct _ _ _ Hxn).
    rewrite (take_S_r _ _ _ Hxn), (take_S_r _ _ _ Hwn).
    rewrite zip_with_app by (rewrite !length_take; lia).
    rewrite <- (assoc_L (++)). simpl.
    rewrite (drop_S _ _ _ Hwn).
    change (updated temp x w) with (if x =? 0 then w else (w + temp)%float).
    destruct (x =? 0); [reflexivity|].
    unfold set_weight; simpl. f_equal.
    rewrite insert_app_r_alt by lia. rewrite Hl, Nat.sub_diag. simpl. do 3 f_equal.
    apply list_lookup_total_correct.
    rewrite lookup_app_r by lia. rewrite Hl, Nat.sub_diag. reflexivity.
Qed.

Lemma updateCell_eq t c :
  wf_cell N c ->
  updateCell N LR t c
  = mkCell (input c)
      (zip_with (updated ((t - output c) * LR)%float) (input c) (weight c))
      (output c).
Proof.
  intros [Hi Hw]. unfold updateCell. rewrite update_loop_prefix by lia.
  rewrite !take_ge, drop_ge, (right_id_L [] (++)) by lia. reflexivity.
Qed.

Lemma updateCell_lookup t c j x w :
  wf_cell N c -> input c !! j = Some x -> weight c !! j = Some w ->
  weight (updateCell N LR t c) !! j = Some (updated ((t - output c) * LR)%float x w).
Proof.
  intros Hc Hx Hw. rewrite updateCell_eq by done. simpl.
  rewrite lookup_zip_with, Hx, Hw. reflexivity.
Qed.

(** The update loop writes weights only, whatever the array sizes. *)
Lemma update_loop_frame temp js c :
  input (fold_left (update_step temp) js c) = input c
  /\ output (fold_left (update_step temp) js c) = output c
  /\ length (weight (fold_left (update_step temp) js c)) = length (weight c).
Proof.
  revert c. induction js as [|j js IH]; intros c; [done|].
  simpl. destruct (IH (update_step temp c j)) as (-> & -> & ->).
  unfold update_step. destruct (_ =? 0); simpl; [done|].
  rewrite length_insert. done.
Qed.

End Loops.

(** ** The loops over the output cells and over the samples *)

Section Cells.

Variable N C : nat.
Variable LR : double.

(** A loop that rewrites [cell[i]] from [cell[i]] alone, for [i] below [n]. *)
Lemma cells_loop_prefix (f : nat -> Cell -> Cell) (l : Layer) n :
  (n <= length l)%nat ->
  fold_left (fun (l : Layer) (i : nat) => <[i := f i (l !!! i)]> l) (seq 0 n) l
  = imap f (take n l) ++ drop n l.
Proof.
  induction n as [|n IH]; intros Hn; [reflexivity|].
  rewrite seq_S, fold_left_app, IH by lia. simpl.
  destruct (lookup_lt_is_Some_2 l n) as [c Hc]; [lia|].
  assert (Hl : length (imap f (take n l)) = n) by (rewrite length_imap, length_take; lia).
  rewrite insert_app_r_alt by lia. rewrite Hl, Nat.sub_diag.
  rewrite (drop_S _ _ _ Hc). simpl.
  rewrite (take_S_r _ _ _ Hc), imap_app, <- (assoc_L (++)). simpl.
  rewrite length_take, Nat.min_l, Nat.add_0_r by lia. do 3 f_equal.
  apply list_lookup_total_correct.
  rewrite lookup_app_r by lia. rewrite Hl, Nat.sub_diag. reflexivity.
Qed.

(** The same loop run over the indices in any order, each once. *)
Lemma cells_loop_lookup (f : nat -> Cell -> Cell) (js : list nat) (l : Layer) i :
  NoDup js ->
  fold_left (fun (l : Layer) (i : nat) => <[i := f i (l !!! i)]> l) js l !! i
  = if decide (i ∈ js) then f i <$> l !! i else l !! i.
Proof.
  revert l. induction js as [|j js IH]; intros l Hnd.
  - rewrite decide_False by apply not_elem_of_nil. reflexivity.
  - apply NoDup_cons in Hnd. destruct Hnd as [Hj Hnd]. cbn [fold_left].
    rewrite IH by assumption.
    destruct (decide (i = j)) as [->|Hne].
    + rewrite (decide_False (P := j ∈ js)) by assumption.
      rewrite (decide_True (P := j ∈ j :: js)) by (apply elem_of_cons; auto).
      destruct (l !! j) as [c|] eqn:Hc.
      * rewrite list_lookup_insert_eq by (eapply lookup_lt_Some; eassumption).
        rewrite (list_lookup_total_correct _ _ _ Hc). reflexivity.
      * rewrite list_insert_ge by (apply lookup_ge_None; assumption).
        rewrite Hc. reflexivity.
    + rewrite list_lookup_insert_ne by congruence.
      destruct (decide (i ∈ js)).
      * rewrite (decide_True (P := i ∈ j :: js)) by (apply elem_of_cons; auto). reflexivity.
      * rewrite (decide_False (P := i ∈ j :: js)) by (rewrite elem_of_cons; tauto). reflexivity.
Qed.

Lemma cells_loop_any_order (f : nat -> Cell -> Cell) (js : list nat) (l : Layer) :
  js ≡ₚ seq 0 (length l) ->
  fold_left (fun (l : Layer) (i : nat) => <[i := f i (l !!! i)]> l) js l = imap f l.
Proof.
  intros Hperm. apply list_eq. intros i.
  rewrite cells_loop_lookup by (rewrite Hperm; apply NoDup_seq).
  rewrite list_lookup_imap.
  destruct (decide (i ∈ js)) as [Hin|Hnin]; [reflexivity|].
  destruct (l !! i) as [c|] eqn:Hc; [|reflexivity].
  exfalso. apply Hnin. rewrite Hperm. apply elem_of_seq.
  apply lookup_lt_Some in Hc. lia.
Qed.

Lemma test_cells_eq img (l : Layer) :
  length l = C -> test_cells N C img l = computeCell N img <$> l.
Proof.
  intros Hl. unfold test_cells, test_cell.
  rewrite (cells_loop_prefix (fun _ => computeCell N img)) by lia.
  rewrite take_ge, drop_ge, (right_id_L [] (++)) by lia.
  apply (imap_const (computeCell N img)).
Qed.

Lemma train_cells_eq img (tgt : Vector) (l : Layer) :
  length l = C ->
  train_cells N C LR img tgt l
  = imap (fun i c => updateCell N LR (tgt !!! i) (computeCell N img c)) l.
Proof.
  intros Hl. unfold train_cells, train_cell.
  rewrite (cells_loop_prefix (fun i c => updateCell N LR (tgt !!! i) (computeCell N img c))) by lia.
  rewrite take_ge, drop_ge, (right_id_L [] (++)) by lia. reflexivity.
Qed.

(** The iterations of the loop over the cells are independent: run in any
    order, each once, they leave the layer of the sequential loop. *)
Lemma train_cells_any_order img (tgt : Vector) (js : list nat) (l : Layer) :
  length l = C -> js ≡ₚ seq 0 C ->
  fold_left (train_cell N LR img tgt) js l = train_cells N C LR img tgt l.
Proof.
  intros Hl Hperm. rewrite train_cells_eq by assumption. unfold train_cell.
  apply (cells_loop_any_order (fun i c => updateCell N LR (tgt !!! i) (computeCell N img c))).
  rewrite Hl. exact Hperm.
Qed.

Lemma test_cells_any_order img (js : list nat) (l : Layer) :
  length l = C -> js ≡ₚ seq 0 C ->
  fold_left (test_cell N img) js l = test_cells N C img l.
Proof.
  intros Hl Hperm. rewrite test_cells_eq by assumption. unfold test_cell.
  rewrite (cells_loop_any_order (fun _ => computeCell N img)) by (rewrite Hl; exact Hperm).
  apply (imap_const (computeCell N img)).
Qed.

Lemma test_cells_length img js (l : Layer) :
  length (fold_left (test_cell N img) js l) = length l.
Proof.
  revert l. induction js as [|j js IH]; intros l; [reflexivity|].
  simpl. rewrite IH. unfold test_cell. apply length_insert.
Qed.

Lemma train_cells_length img tgt js (l : Layer) :
  length (fold_left (train_cell N LR img tgt) js l) = length l.
Proof.
  revert l. induction js as [|j js IH]; intros l; [reflexivity|].
  simpl. rewrite IH. unfold train_cell. apply length_insert.
Qed.

(** Writing back a cell with the weights it had leaves the weights of the
    layer as they were. *)
Lemma insert_same_weight (l : Layer) i c' :
  weight c' = weight (l !!! i) -> weight <$> <[i := c']> l = weight <$> l.
Proof.
  intros Hw. destruct (decide (i < length l)%nat) as [Hi|Hi].
  - destruct (lookup_lt_is_Some_2 l i Hi) as [c Hc].
    rewrite list_fmap_insert. apply list_insert_id.
    rewrite list_lookup_fmap, Hc. simpl. f_equal.
    rewrite Hw. f_equal. symmetry. apply list_lookup_total_correct, Hc.
  - rewrite list_insert_ge by lia. reflexivity.
Qed.

Lemma test_cells_loop_weights img js (l : Layer) :
  weight <$> fold_left (test_cell N img) js l = weight <$> l.
Proof.
  revert l. induction js as [|j js IH]; intros l; [reflexivity|].
  simpl. rewrite IH. unfold test_cell.
  apply insert_same_weight, computeCell_weight.
Qed.

Lemma test_loop_weights samples (st : Layer * Z) :
  weight <$> (fold_left (test_sample N C) samples st).1 = weight <$> st.1.
Proof.
  revert st. induction samples as [|s samples IH]; intros st; [reflexivity|].
  simpl. rewrite IH. unfold test_sample. simpl. apply test_cells_loop_weights.
Qed.

Lemma test_loop_length samples (st : Layer * Z) :
  length (fold_left (test_sample N C) samples st).1 = length st.1.
Proof.
  revert st. induction samples as [|s samples IH]; intros st; [reflexivity|].
  simpl. rewrite IH. apply test_cells_length.
Qed.

Lemma train_loop_length samples (st : Layer * Z) :
  length (fold_left (train_sample N C LR) samples st).1 = length st.1.
Proof.
  revert st. induction samples as [|s samples IH]; intros st; [reflexivity|].
  simpl. rewrite IH. apply train_cells_length.
Qed.

(** The update writes neither the cached input nor the output. *)
Lemma updateCell_frame t c :
  input (updateCell N LR t c) = input c /\ output (updateCell N LR t c) = output c.
Proof.
  unfold updateCell.
  destruct (update_loop_frame ((t - output c) * LR)%float (seq 0 N) c) as (Hi & Ho & _).
  split; assumption.
Qed.

Lemma train_cells_outputs img tgt (l : Layer) :
  length l = C ->
  output <$> train_cells N C LR img tgt l = output <$> test_cells N C img l.
Proof.
  intros Hl. rewrite train_cells_eq, test_cells_eq by done.
  rewrite fmap_imap, <- list_fmap_compose.
  rewrite <- (imap_const (output ∘ computeCell N img)).
  apply imap_ext. intros i c _. simpl.
  apply updateCell_frame.
Qed.

End Cells.

(** ** The error count of a pass *)

Section Counting.

Variable N C : nat.
Variable LR : double.

Lemma int_incr_small e : 0 <= e < INT_MAX -> int_incr e = e + 1.
Proof.
  unfold int_incr, INT_MAX. intros He.
  rewrite Z.mod_small; lia.
Qed.

Lemma mismatches_nil samples : mismatches [] samples = 0%nat.
Proof. reflexivity. Qed.

Lemma mismatches_cons p ps (s : Sample) samples :
  mismatches (p :: ps) (s :: samples)
  = ((if (p =? s.2)%Z then 0 else 1) + mismatches ps samples)%nat.
Proof.
  unfold mismatches. simpl. rewrite filter_cons. simpl.
  destruct (Z.eqb_spec p s.2); case_decide; try done.
Qed.

Lemma mismatches_le ps samples : (mismatches ps samples <= length samples)%nat.
Proof.
  revert ps. induction samples as [|s samples IH]; intros [|p ps]; simpl; try (unfold mismatches; simpl; lia).
  rewrite mismatches_cons. specialize (IH ps). destruct (p =? s.2); lia.
Qed.

Lemma count_error_small p lbl e :
  0 <= e < INT_MAX -> count_error p lbl e = e + (if p =? lbl then 0 else 1).
Proof.
  intros He. unfold count_error. destruct (p =? lbl); [lia|]. apply int_incr_small, He.
Qed.

Lemma train_loop_count samples (l : Layer) e :
  0 <= e -> e + Z.of_nat (length samples) <= INT_MAX ->
  (fold_left (train_sample N C LR) samples (l, e)).2
  = e + Z.of_nat (mismatches (train_predictions N C LR l samples) samples).
Proof.
  revert l e. induction samples as [|s samples IH]; intros l e He Hlen.
  - simpl. rewrite mismatches_nil. lia.
  - simpl in *. unfold train_sample at 2. simpl.
    rewrite mismatches_cons, count_error_small by lia.
    rewrite IH by (destruct (_ =? s.2); lia).
    destruct (_ =? s.2); lia.
Qed.

Lemma test_loop_count samples (l : Layer) e :
  0 <= e -> e + Z.of_nat (length samples) <= INT_MAX ->
  (fold_left (test_sample N C) samples (l, e)).2
  = e + Z.of_nat (mismatches (test_predictions N C l samples) samples).
Proof.
  revert l e. induction samples as [|s samples IH]; intros l e He Hlen.
  - simpl. rewrite mismatches_nil. lia.
  - simpl in *. unfold test_sample at 2. simpl.
    rewrite mismatches_cons, count_error_small by lia.
    rewrite IH by (destruct (_ =? s.2); lia).
    destruct (_ =? s.2); lia.
Qed.

End Counting.

(** ** What a pass keeps *)

Section Passes.

Variable N C : nat.
Variable LR : double.

Lemma forward_loop_input_length img js st :
  length (input (fold_left (forward_step img) js st).1) = length (input st.1).
Proof.
  revert st. induction js as [|j js IH]; intros st; [reflexivity|].
  simpl. rewrite IH. unfold forward_step. simpl.
  destruct (_ =? 0); simpl; apply length_insert.
Qed.

(** The forward computation keeps the sizes of the arrays of a cell, also
    on an image of another size. *)
Lemma computeCell_sizes img c : wf_cell N c -> wf_cell N (computeCell N img c).
Proof.
  intros [Hi Hw]. split.
  - unfold computeCell. simpl. rewrite forward_loop_input_length. exact Hi.
  - rewrite computeCell_weight. exact Hw.
Qed.

Lemma test_cells_loop_wf img js (l : Layer) :
  Forall (wf_cell N) l -> Forall (wf_cell N) (fold_left (test_cell N img) js l).
Proof.
  revert l. induction js as [|j js IH]; intros l Hl; [exact Hl|].
  simpl. apply IH. unfold test_cell.
  destruct (decide (j < length l)%nat) as [Hj|Hj].
  - destruct (lookup_lt_is_Some_2 l j Hj) as [c Hc].
    apply Forall_insert; [exact Hl|].
    rewrite (list_lookup_total_correct _ _ _ Hc).
    apply computeCell_sizes. exact (proj1 (Forall_lookup _ _) Hl _ _ Hc).
  - rewrite list_insert_ge by lia. exact Hl.
Qed.

Lemma test_loop_wf samples (st : Layer * Z) :
  Forall (wf_cell N) st.1 -> Forall (wf_cell N) (fold_left (test_sample N C) samples st).1.
Proof.
  revert st. induction samples as [|s samples IH]; intros st Hst; [exact Hst|].
  simpl. apply IH. unfold test_sample. simpl. apply test_cells_loop_wf, Hst.
Qed.

(** The cells an evaluation step leaves, from the weights alone. *)
Lemma test_cells_from_weights img (l : Layer) :
  length l = C -> wf_image N img -> Forall (wf_cell N) l ->
  test_cells N C img l
  = (fun ws => mkCell (binarize <$> pixel img) ws
                 (sum_active (binarize <$> pixel img) ws / of_int (Z.of_nat N))%float)
    <$> (weight <$> l).
Proof.
  intros Hl Himg Hwf. rewrite test_cells_eq by done.
  rewrite <- list_fmap_compose. apply Forall_fmap_ext_1.
  eapply Forall_impl; [exact Hwf|]. intros c Hc. simpl.
  apply computeCell_eq; assumption.
Qed.

End Passes.

(** ** The range of the output *)

Section Range.

Variable N : nat.

Lemma active_weights_in_unit (mask : list Z) (ws : list double) :
  Forall in_unit ws ->
  Forall in_unit ((filter (fun p : Z * double => p.1 = 1) (zip mask ws)).*2)
  /\ (length ((filter (fun p : Z * double => p.1 = 1%Z) (zip mask ws)).*2) <= length ws)%nat.
Proof.
  revert ws. induction mask as [|m mask IH]; intros [|w ws] Hall;
    try (split; [constructor | simpl; lia]).
  simpl.
  apply Forall_cons in Hall. destruct Hall as [Hw Hall].
  destruct (IH ws Hall) as [IH1 IH2].
  rewrite filter_cons. case_decide; rewrite ?fmap_cons; cbn [length].
  - split; [constructor; assumption | lia].
  - split; [assumption | lia].
Qed.

Lemma sum_active_bound (mask : list Z) (ws : list double) :
  Forall in_unit ws -> Z.of_nat (length ws) <= 2 ^ 53 ->
  is_finite (sum_active mask ws) = true
  /\ 0 <= fval (sum_active mask ws) <= Z.of_nat (length ws) * unit_val.
Proof.
  intros Hall Hlen. destruct (active_weights_in_unit mask ws Hall) as [Ha Hl].
  unfold sum_active.
  set (L := (filter (fun p : Z * double => p.1 = 1) (zip mask ws)).*2) in *.
  destruct (fold_add_unit_bound L 0%float 0 Ha) as [Hf Hv];
    [reflexivity | rewrite fval_zero; lia | lia | lia |].
  split; [exact Hf|].
  pose proof unit_val_pos as P.
  nia.
Qed.

Lemma computeCell_range img c :
  wf_image N img -> wf_cell N c -> (0 < N)%nat -> Z.of_nat N <= INT_MAX ->
  Forall in_unit (weight c) ->
  is_finite (output (computeCell N img c)) = true
  /\ 0 <= fval (output (computeCell N img c)) <= unit_val.
Proof.
  intros Himg Hc HN HNmax Hall. rewrite computeCell_eq by assumption. simpl.
  destruct Hc as [_ Hw].
  assert (H53 : Z.of_nat N < 2 ^ 53) by (unfold INT_MAX in HNmax; lia).
  destruct (sum_active_bound (binarize <$> pixel img) (weight c) Hall) as [Sf Sv];
    [rewrite Hw; lia|].
  rewrite Hw in Sv.
  destruct (of_int_value (Z.of_nat N)) as [Nf Nv]; [lia|].
  pose proof unit_val_pos as P.
  apply div_unit_bound; try assumption; rewrite Nv; nia.
Qed.

End Range.

(** ** The prediction *)

Section Prediction.

Variable C : nat.




End Prediction.

(** * The claims *)

(** C1. In both passes every cell of the layer goes through the forward
    computation of the image: the pixels are binarized (non-zero to 1, zero to
    0), the binarized vector becomes the cached input of the cell, and the
    output becomes the sum of the weights at the positions where that input is
    1, divided by the feature count N, whatever the number of active
    positions; the training pass then applies the update to that cell. *)
Theorem computeCell_forward N C LR img (tgt : Vector) (l : Layer) i c :
  wf_image N img -> length l = C -> l !! i = Some c -> wf_cell N c ->
  let mask := binarize <$> pixel img in
  (forall j p, pixel img !! j = Some p -> mask !! j = Some (if p =? 0 then 0 else 1))
  /\ input (computeCell N img c) = mask
  /\ output (computeCell N img c) = (sum_active mask (weight c) / of_int (Z.of_nat N))%float
  /\ test_cells N C img l !! i = Some (computeCell N img c)
  /\ train_cells N C LR img tgt l !! i
     = Some (updateCell N LR (tgt !!! i) (computeCell N img c)).
Proof.
  intros Himg Hl Hi Hc mask. repeat split.
  - intros j p Hp. unfold mask. rewrite list_lookup_fmap, Hp. reflexivity.
  - rewrite computeCell_eq by done. reflexivity.
  - rewrite computeCell_eq by done. reflexivity.
  - rewrite test_cells_eq by done. rewrite list_lookup_fmap, Hi. reflexivity.
  - rewrite train_cells_eq by done. rewrite list_lookup_imap, Hi. reflexivity.
Qed.

Lemma computeCell_forward_witness :
  wf_image 4 scenario_sample.1
  /\ length scenario_layer = 2%nat
  /\ scenario_layer !! 0%nat = Some scenario_cell0
  /\ wf_cell 4 scenario_cell0
  /\ input (computeCell 4 scenario_sample.1 scenario_cell0) = [1; 0; 1; 0]
  /\ output (computeCell 4 scenario_sample.1 scenario_cell0)
     = (sum_active [1; 0; 1; 0]%Z [0.5; 0.5; 0.5; 0.5] / of_int 4%Z)%float
  /\ test_cells 4 2 scenario_sample.1 scenario_layer !! 0%nat
     = Some (computeCell 4 scenario_sample.1 scenario_cell0).
Proof.
  assert (H1 : wf_image 4 scenario_sample.1) by reflexivity.
  assert (H2 : length scenario_layer = 2%nat) by reflexivity.
  assert (H3 : scenario_layer !! 0%nat = Some scenario_cell0) by reflexivity.
  assert (H4 : wf_cell 4 scenario_cell0) by (split; reflexivity).
  pose proof (computeCell_forward 4 2 1%float scenario_sample.1 [0; 1]%float
                scenario_layer 0 scenario_cell0 H1 H2 H3 H4) as H.
  cbv zeta in H. destruct H as (_ & Hin & Hout & Ht & _).
  exact (conj H1 (conj H2 (conj H3 (conj H4 (conj Hin (conj Hout Ht)))))).
Defined.

(** C2. The update computes the error as the target value minus the output
    of the cell and adds error times learning rate to the weight at every
    index whose cached input is 1; a weight at an index whose cached input is
    0 is left as it was. *)
Theorem updateCell_weights N LR t c j x w :
  wf_cell N c -> input c !! j = Some x -> weight c !! j = Some w ->
  let err := (t - output c)%float in
  (x = 1 -> weight (updateCell N LR t c) !! j = Some (w + err * LR)%float)
  /\ (x = 0 -> weight (updateCell N LR t c) !! j = Some w).
Proof.
  intros Hc Hx Hw err. rewrite (updateCell_lookup N LR t c j x w) by assumption.
  split; intros ->; reflexivity.
Qed.

Lemma updateCell_weights_witness :
  let c := computeCell 4 scenario_sample.1 scenario_cell1 in
  wf_cell 4 c
  /\ input c !! 0%nat = Some 1
  /\ weight c !! 0%nat = Some 0.2%float
  /\ weight (updateCell 4 1%float 1%float c) !! 0%nat
     = Some (0.2 + (1 - output c) * 1)%float.
Proof.
  cbv zeta.
  assert (H1 : wf_cell 4 (computeCell 4 scenario_sample.1 scenario_cell1)) by (split; reflexivity).
  assert (H2 : input (computeCell 4 scenario_sample.1 scenario_cell1) !! 0%nat = Some 1)
    by reflexivity.
  assert (H3 : weight (computeCell 4 scenario_sample.1 scenario_cell1) !! 0%nat = Some 0.2%float)
    by reflexivity.
  pose proof (updateCell_weights 4 1%float 1%float _ 0 1 0.2%float H1 H2 H3) as H.
  cbv zeta in H. destruct H as [Hup _].
  exact (conj H1 (conj H2 (conj H3 (Hup eq_refl)))).
Defined.

(** C3. An evaluation pass over any sequence of samples leaves the weight
    vector of every cell exactly as it was: the pass runs the forward
    computation only, and the forward computation writes no weight. *)
Theorem testLayer_weights N C (l : Layer) (samples : list Sample) :
  weight <$> layer_after (testLayer N C l samples) = weight <$> l.
Proof. unfold testLayer. simpl. apply test_loop_weights. Qed.

(** C9. The forward computation run twice in a row on the same cell with the
    same image gives the cell, and so the output, of the first run; and it
    leaves the weights as they were. *)
Theorem computeCell_idempotent N img c :
  wf_image N img -> wf_cell N c ->
  computeCell N img (computeCell N img c) = computeCell N img c
  /\ output (computeCell N img (computeCell N img c)) = output (computeCell N img c)
  /\ weight (computeCell N img c) = weight c.
Proof.
  intros Himg Hc.
  assert (H2 : computeCell N img (computeCell N img c) = computeCell N img c).
  { rewrite (computeCell_eq N img (computeCell N img c)) by auto using computeCell_wf.
    rewrite computeCell_weight. symmetry. apply computeCell_eq; assumption. }
  split; [exact H2|]. split; [rewrite H2; reflexivity | apply computeCell_weight].
Qed.

Lemma computeCell_idempotent_witness :
  wf_image 4 scenario_sample.1
  /\ wf_cell 4 scenario_cell0
  /\ output (computeCell 4 scenario_sample.1 (computeCell 4 scenario_sample.1 scenario_cell0))
     = output (computeCell 4 scenario_sample.1 scenario_cell0).
Proof.
  assert (H1 : wf_image 4 scenario_sample.1) by reflexivity.
  assert (H2 : wf_cell 4 scenario_cell0) by (split; reflexivity).
  destruct (computeCell_idempotent 4 scenario_sample.1 scenario_cell0 H1 H2) as (_ & Hout & _).
  exact (conj H1 (conj H2 Hout)).
Defined.

(** C10. The update writes the weights of the cell and neither its cached
    input nor its output. So in a training iteration the outputs the
    prediction reads are the outputs of the forward computation on the
    weights as they were before the update of that sample, and the
    prediction compared with the label is the prediction of the forward
    computation alone. *)
Theorem update_frame_prediction N C LR t c (l : Layer) (s : Sample) e :
  length l = C ->
  input (updateCell N LR t c) = input c
  /\ output (updateCell N LR t c) = output c
  /\ output <$> train_cells N C LR s.1 (getTargetOutput C s.2) l
     = (fun c => output (computeCell N s.1 c)) <$> l
  /\ getLayerPrediction C (train_cells N C LR s.1 (getTargetOutput C s.2) l)
     = getLayerPrediction C (computeCell N s.1 <$> l)
  /\ (train_sample N C LR (l, e) s).2
     = count_error (getLayerPrediction C (computeCell N s.1 <$> l)) s.2 e.
Proof.
  intros Hl.
  assert (Hout : output <$> train_cells N C LR s.1 (getTargetOutput C s.2) l
                 = output <$> (computeCell N s.1 <$> l)).
  { rewrite train_cells_outputs by done. rewrite test_cells_eq by done. reflexivity. }
  destruct (updateCell_frame N LR t c) as [Hi Ho].
  repeat split; try assumption.
  - rewrite Hout, <- list_fmap_compose. reflexivity.
  - unfold getLayerPrediction. rewrite Hout. reflexivity.
  - unfold train_sample. cbv zeta. cbn [fst snd]. unfold getLayerPrediction.
    rewrite Hout. reflexivity.
Qed.

Lemma update_frame_prediction_witness :
  length scenario_layer = 2%nat
  /\ getLayerPrediction 2 (train_cells 4 2 1%float scenario_sample.1
                             (getTargetOutput 2 scenario_sample.2) scenario_layer)
     = getLayerPrediction 2 (computeCell 4 scenario_sample.1 <$> scenario_layer).
Proof.
  assert (H1 : length scenario_layer = 2%nat) by reflexivity.
  destruct (update_frame_prediction 4 2 1%float 0%float scenario_cell0
              scenario_layer scenario_sample 0 H1) as (_ & _ & _ & Hp & _).
  exact (conj H1 Hp).
Defined.

(** C7, as the code has it. Every training sample rewrites the layer once:
    each cell goes through the forward computation and the update of that
    sample. An evaluation pass writes no weight, but it is not read-only: each
    of its samples overwrites the cached input and the output of every cell,
    so after the pass every cell holds the binarized last image and the output
    of its unchanged weights on it. *)
Theorem evaluation_keeps_weights_only N C LR (l : Layer) (samples : list Sample) (s : Sample) :
  length l = C -> Forall (wf_cell N) l -> wf_image N s.1 ->
  let mask := binarize <$> pixel s.1 in
  layer_after (trainLayer N C LR l (samples ++ [s]))
  = imap (fun i c => updateCell N LR (getTargetOutput C s.2 !!! i) (computeCell N s.1 c))
      (layer_after (trainLayer N C LR l samples))
  /\ weight <$> layer_after (testLayer N C l (samples ++ [s])) = weight <$> l
  /\ layer_after (testLayer N C l (samples ++ [s]))
     = (fun c => mkCell mask (weight c) (sum_active mask (weight c) / of_int (Z.of_nat N))%float)
       <$> l.
Proof.
  intros Hl Hwf Himg mask. split; [|split].
  - unfold trainLayer. simpl. rewrite fold_left_app. simpl.
    apply train_cells_eq. rewrite train_loop_length. exact Hl.
  - unfold testLayer. simpl. apply test_loop_weights.
  - unfold testLayer. simpl. rewrite fold_left_app. simpl.
    rewrite (test_cells_from_weights N C) by
      (try rewrite test_loop_length; try apply test_loop_wf; assumption).
    rewrite test_loop_weights. simpl. rewrite <- list_fmap_compose. reflexivity.
Qed.

Lemma evaluation_keeps_weights_only_witness :
  length scenario_layer = 2%nat
  /\ Forall (wf_cell 4) scenario_layer
  /\ wf_image 4 scenario_sample.1
  /\ weight <$> layer_after (testLayer 4 2 scenario_layer ([] ++ [scenario_sample]))
     = weight <$> scenario_layer
  /\ input <$> layer_after (testLayer 4 2 scenario_layer ([] ++ [scenario_sample]))
     = [[1; 0; 1; 0]; [1; 0; 1; 0]].
Proof.
  assert (H1 : length scenario_layer = 2%nat) by reflexivity.
  assert (H2 : Forall (wf_cell 4) scenario_layer) by (repeat constructor).
  assert (H3 : wf_image 4 scenario_sample.1) by reflexivity.
  pose proof (evaluation_keeps_weights_only 4 2 1%float scenario_layer [] scenario_sample
                H1 H2 H3) as H.
  cbv zeta in H. destruct H as (_ & Hw & Hl).
  refine (conj H1 (conj H2 (conj H3 (conj Hw _)))).
  rewrite Hl. reflexivity.
Defined.

(** C7 as stated fails: the evaluation pass over the sample of the scenario
    writes the cached input and the output of both cells. *)
Lemma evaluation_writes_input_and_output :
  input <$> layer_after (testLayer 4 2 scenario_layer [scenario_sample])
    <> input <$> scenario_layer
  /\ output <$> layer_after (testLayer 4 2 scenario_layer [scenario_sample])
    <> output <$> scenario_layer.
Proof.
  split.
  - vm_compute. discriminate.
  - intros H. apply (f_equal (fmap Prim2SF)) in H. vm_compute in H. discriminate.
Qed.

(** C5. A pass over T samples reports 100 - E/T*100, where E, the error
    count, is the number of samples whose prediction differs from the label;
    and 0 <= E <= T. For the training pass and for the evaluation pass. *)
Theorem pass_statistics N C LR (l : Layer) (samples : list Sample) :
  Z.of_nat (length samples) <= INT_MAX ->
  let T := Z.of_nat (length samples) in
  let tr := trainLayer N C LR l samples in
  let te := testLayer N C l samples in
  errCount tr = Z.of_nat (mismatches (train_predictions N C LR l samples) samples)
  /\ errCount te = Z.of_nat (mismatches (test_predictions N C l samples) samples)
  /\ successRate tr = (100 - of_int (errCount tr) / of_int T * 100)%float
  /\ successRate te = (100 - of_int (errCount te) / of_int T * 100)%float
  /\ 0 <= errCount tr <= T
  /\ 0 <= errCount te <= T.
Proof.
  intros Hlen T tr te.
  assert (Htr : errCount tr = Z.of_nat (mismatches (train_predictions N C LR l samples) samples)).
  { unfold tr, trainLayer. simpl. rewrite train_loop_count by lia. lia. }
  assert (Hte : errCount te = Z.of_nat (mismatches (test_predictions N C l samples) samples)).
  { unfold te, testLayer. simpl. rewrite test_loop_count by lia. lia. }
  pose proof (mismatches_le (train_predictions N C LR l samples) samples).
  pose proof (mismatches_le (test_predictions N C l samples) samples).
  repeat split; try assumption; try reflexivity; unfold T; lia.
Qed.

Lemma pass_statistics_witness :
  Z.of_nat (length [scenario_sample]) <= INT_MAX
  /\ errCount (trainLayer 4 2 1%float scenario_layer [scenario_sample]) = 1
  /\ successRate (trainLayer 4 2 1%float scenario_layer [scenario_sample])
     = (100 - of_int 1 / of_int 1 * 100)%float
  /\ errCount (testLayer 4 2 scenario_layer [scenario_sample]) = 1.
Proof.
  assert (H1 : Z.of_nat (length [scenario_sample]) <= INT_MAX) by (vm_compute; discriminate).
  pose proof (pass_statistics 4 2 1%float scenario_layer [scenario_sample] H1) as H.
  cbv zeta in H. destruct H as (He & He' & Hr & _).
  exact (conj H1 (conj He (conj Hr He'))).
Defined.

(** C8. If every weight of the cell lies in [0,1), the output of the forward
    computation lies in [0,1]: the sum of at most N doubles below 1 is at most
    N, also after the rounding of each addition, and its quotient by N is at
    most 1. N is a positive [int]. *)
Theorem computeCell_output_range N img c :
  wf_image N img -> wf_cell N c -> (0 < N)%nat -> Z.of_nat N <= INT_MAX ->
  Forall in_unit (weight c) ->
  (0 <=? output (computeCell N img c))%float = true
  /\ (output (computeCell N img c) <=? 1)%float = true.
Proof.
  intros Himg Hc HN HNmax Hall.
  destruct (computeCell_range N img c Himg Hc HN HNmax Hall) as [Hf Hv].
  pose proof (is_finite_not_nan _ Hf) as Hn.
  rewrite !leb_fval by (try assumption; reflexivity).
  rewrite fval_zero, fval_one.
  split; apply Z.leb_le; lia.
Qed.

Lemma computeCell_output_range_witness :
  wf_image 4 scenario_sample.1
  /\ wf_cell 4 scenario_cell0
  /\ Forall in_unit (weight scenario_cell0)
  /\ (0 <=? output (computeCell 4 scenario_sample.1 scenario_cell0))%float = true
  /\ (output (computeCell 4 scenario_sample.1 scenario_cell0) <=? 1)%float = true.
Proof.
  assert (H1 : wf_image 4 scenario_sample.1) by reflexivity.
  assert (H2 : wf_cell 4 scenario_cell0) by (split; reflexivity).
  assert (H3 : (0 < 4)%nat) by lia.
  assert (H4 : Z.of_nat 4 <= INT_MAX) by (vm_compute; discriminate).
  assert (H5 : Forall in_unit (weight scenario_cell0)) by (repeat constructor).
  destruct (computeCell_output_range 4 scenario_sample.1 scenario_cell0 H1 H2 H3 H4 H5)
    as [Hlo Hhi].
  exact (conj H1 (conj H2 (conj H5 (conj Hlo Hhi)))).
Defined.




(** C6, as the code has it. After one update of a cell whose weight at an
    active position j is finite, with a finite target and a positive finite
    learning rate, the new weight is weight + (target - output) * rate in
    double arithmetic, each operation rounded to nearest. So it never moves
    against the sign of target - output: it does not decrease when
    target > output, it does not increase when target < output, and it keeps
    its value when target == output. The move need not be strict: an
    increment below half a unit in the last place of the weight is lost to
    rounding. *)
Theorem update_direction N LR t c j w :
  wf_cell N c -> input c !! j = Some 1 -> weight c !! j = Some w ->
  is_finite w = true -> is_finite t = true ->
  is_finite LR = true -> (0 <? LR)%float = true ->
  let w' := (w + (t - output c) * LR)%float in
  weight (updateCell N LR t c) !! j = Some w'
  /\ ((output c <? t)%float = true -> (w <=? w')%float = true)
  /\ ((t <? output c)%float = true -> (w' <=? w)%float = true)
  /\ ((t =? output c)%float = true -> (w' =? w)%float = true).
Proof.
  intros Hc Hx Hw Fw Ft Fr Hr w'.
  split; [apply (updateCell_lookup N LR t c j 1 w); assumption|].
  pose proof (is_finite_not_nan _ Fw) as Nw.
  pose proof (is_finite_not_nan _ Ft) as Nt.
  pose proof (is_finite_not_nan _ Fr) as Nr.
  rewrite ltb_fval in Hr by (try assumption; reflexivity).
  rewrite fval_zero in Hr. apply Z.ltb_lt in Hr.
  assert (Hdir : forall (No : is_nan (output c) = false),
            is_nan w' = false
            /\ (fval (output c) <= fval t -> fval w <= fval w')
            /\ (fval t <= fval (output c) -> fval w' <= fval w)).
  { intros No.
    destruct (sub_sign t (output c) Ft No) as (Ne & Ep & En).
    destruct (mul_sign (t - output c) LR Ne Fr Hr) as (Nm & Mp & Mn).
    destruct (add_direction w ((t - output c) * LR) Fw Nm) as (Na & Ap & An).
    split; [exact Na|]. split; intros H; [apply Ap, Mp, Ep, H | apply An, Mn, En, H]. }
  split; [|split]; intros Hcmp.
  - destruct (ltb_not_nan _ _ Hcmp) as [No _].
    destruct (Hdir No) as (Nw' & Hup' & _).
    rewrite ltb_fval in Hcmp by assumption. apply Z.ltb_lt in Hcmp.
    rewrite leb_fval by assumption. apply Z.leb_le, Hup'. lia.
  - destruct (ltb_not_nan _ _ Hcmp) as [_ No].
    destruct (Hdir No) as (Nw' & _ & Hdown).
    rewrite ltb_fval in Hcmp by assumption. apply Z.ltb_lt in Hcmp.
    rewrite leb_fval by assumption. apply Z.leb_le, Hdown. lia.
  - assert (No : is_nan (output c) = false).
    { rewrite eqb_spec in Hcmp. rewrite is_nan_spec. unfold SFeqb in Hcmp.
      destruct (Prim2SF t), (Prim2SF (output c)); simpl in Hcmp; try discriminate; reflexivity. }
    destruct (Hdir No) as (Nw' & Hup' & Hdown).
    rewrite eqb_fval in Hcmp by assumption. apply Z.eqb_eq in Hcmp.
    rewrite eqb_fval by assumption. apply Z.eqb_eq.
    specialize (Hup' ltac:(lia)). specialize (Hdown ltac:(lia)). lia.
Qed.

Lemma update_direction_witness :
  let c := computeCell 4 scenario_sample.1 scenario_cell1 in
  let w' := (0.2 + (1 - output c) * 1)%float in
  wf_cell 4 c
  /\ input c !! 0%nat = Some 1
  /\ weight c !! 0%nat = Some 0.2%float
  /\ (output c <? 1)%float = true
  /\ weight (updateCell 4 1%float 1%float c) !! 0%nat = Some w'
  /\ (0.2 <=? w')%float = true.
Proof.
  cbv zeta.
  assert (H1 : wf_cell 4 (computeCell 4 scenario_sample.1 scenario_cell1)) by (split; reflexivity).
  assert (H2 : input (computeCell 4 scenario_sample.1 scenario_cell1) !! 0%nat = Some 1)
    by reflexivity.
  assert (H3 : weight (computeCell 4 scenario_sample.1 scenario_cell1) !! 0%nat = Some 0.2%float)
    by reflexivity.
  assert (H4 : (output (computeCell 4 scenario_sample.1 scenario_cell1) <? 1)%float = true)
    by reflexivity.
  pose proof (update_direction 4 1%float 1%float _ 0 0.2%float H1 H2 H3
                eq_refl eq_refl eq_refl eq_refl) as H.
  cbv zeta in H. destruct H as (Hw & Hup & _).
  exact (conj H1 (conj H2 (conj H3 (conj H4 (conj Hw (Hup H4)))))).
Defined.

(** C6 as stated fails. In the cell of [absorbing_cell] after the forward
    computation of [absorbing_image], the target 0 differs from the output
    2^-55, the sign of target - output is -1, and the update with learning
    rate 1 leaves the weight 1.0 at the active position 0 as it is: the sign
    of the change is 0. *)
Lemma update_absorbed_by_rounding :
  let c := computeCell 4 absorbing_image absorbing_cell in
  let c' := updateCell 4 1%float 0%float c in
  input c !! 0%nat = Some 1
  /\ (0 =? output c)%float = false
  /\ fsign (0 - output c) = -1
  /\ fsign (weight c' !!! 0%nat - weight c !!! 0%nat) = 0
  /\ weight c' = weight c.
Proof. vm_compute. repeat split; reflexivity. Qed.

(** * Further properties of the passes *)

(** ** The parallel loops *)

Lemma run_stmts_snoc (ss : list Stmt) (s : Stmt) st :
  run_stmts (ss ++ [s]) st = s (run_stmts ss st).
Proof. unfold run_stmts. rewrite fold_left_app. reflexivity. Qed.

Lemma run_stmts_app (ss1 ss2 : list Stmt) st :
  run_stmts (ss1 ++ ss2) st = run_stmts ss2 (run_stmts ss1 st).
Proof. unfold run_stmts. apply fold_left_app. Qed.

Section Parallel.

Variable body : nat -> list Stmt.
Variable l0 : Layer.
Variable locals0 : list Locals.

Hypothesis body_local : forall i stmt, stmt ∈ body i -> local_to i stmt.

Lemma omp_reached_init : omp_reached body l0 locals0 (l0, pair 0%nat <$> locals0).
Proof.
  split; [reflexivity|]. split; [apply length_fmap|].
  intros i loc Hloc. exists 0%nat. split; [lia|].
  rewrite take_0. simpl. split; [reflexivity|].
  rewrite list_lookup_fmap, Hloc. reflexivity.
Qed.

(** A step of the iteration [i] is a step of its body run alone, as far as
    the cell [i] and its locals go, and it leaves the other cells. *)
Lemma omp_reached_step st i :
  omp_reached body l0 locals0 st -> omp_reached body l0 locals0 (omp_step body st i).
Proof.
  intros (Hl & Ht & Hinv). unfold omp_step.
  destruct (st.2 !! i) as [[pc loc]|] eqn:Hti; [|repeat split; assumption].
  destruct (body i !! pc) as [stmt|] eqn:Hpc; [|repeat split; assumption].
  destruct (body_local i stmt (list_elem_of_lookup_2 _ _ _ Hpc)) as (Llen & Lframe & Lread).
  unfold omp_reached. cbv zeta. cbn [fst snd].
  split; [rewrite Llen; exact Hl|].
  split; [rewrite length_insert; exact Ht|].
  intros k loc0 Hloc0.
  destruct (Hinv k loc0 Hloc0) as (pc' & Hle & Hcell & Hthr).
  destruct (decide (k = i)) as [->|Hne].
  - rewrite Hti in Hthr. injection Hthr as <- Hloc.
    exists (S pc). split; [apply lookup_lt_Some in Hpc; lia|].
    rewrite (take_S_r _ _ _ Hpc), run_stmts_snoc.
    rewrite (surjective_pairing (run_stmts (take pc (body i)) (l0, loc0))), <- Hloc.
    destruct (Lread st.1 (run_stmts (take pc (body i)) (l0, loc0)).1 loc Hcell) as [R1 R2].
    split; [exact R1|].
    rewrite list_lookup_insert_eq by (rewrite Ht; eapply lookup_lt_Some, Hloc0).
    rewrite R2. reflexivity.
  - exists pc'. split; [exact Hle|].
    rewrite Lframe by exact Hne. split; [exact Hcell|].
    rewrite list_lookup_insert_ne by congruence. exact Hthr.
Qed.

Lemma omp_reached_run schedule :
  omp_reached body l0 locals0 (omp_run body schedule l0 locals0).
Proof.
  unfold omp_run.
  generalize (omp_reached_init). generalize (l0, pair 0%nat <$> locals0).
  induction schedule as [|i schedule IH]; intros st Hst; [exact Hst|].
  simpl. apply IH, omp_reached_step; assumption.
Qed.

Lemma omp_finished_lookup threads i pc loc :
  omp_finished body threads = true -> threads !! i = Some (pc, loc) -> pc = length (body i).
Proof.
  unfold omp_finished. rewrite forallb_forall. intros Hall Hi.
  assert (Hin : In (i, (pc, loc)) (zip (seq 0 (length threads)) threads)).
  { apply list_elem_of_In. apply (list_elem_of_lookup_2 _ i).
    rewrite lookup_zip_with, lookup_seq_lt by (eapply lookup_lt_Some, Hi).
    simpl. rewrite Hi. reflexivity. }
  specialize (Hall _ Hin). simpl in Hall. apply Nat.eqb_eq in Hall. exact Hall.
Qed.

(** When every iteration has finished, the cell [i] is the one its body,
    run alone from the first layer, leaves; whatever the schedule was. *)
Lemma omp_run_finished schedule :
  omp_finished body (omp_run body schedule l0 locals0).2 = true ->
  length (omp_run body schedule l0 locals0).1 = length l0
  /\ forall i loc, locals0 !! i = Some loc ->
       (omp_run body schedule l0 locals0).1 !! i = (run_stmts (body i) (l0, loc)).1 !! i.
Proof.
  intros Hfin. destruct (omp_reached_run schedule) as (Hl & Ht & Hinv).
  split; [exact Hl|]. intros i loc Hloc.
  destruct (Hinv i loc Hloc) as (pc & Hle & Hcell & Hthr).
  rewrite (omp_finished_lookup _ _ _ _ Hfin Hthr) in Hcell.
  rewrite take_ge in Hcell by lia. exact Hcell.
Qed.

End Parallel.

Section Progress.

Variable body : nat -> list Stmt.

(** The steps an iteration is given in a schedule. *)
Lemma steps_cons (i k : nat) (schedule : list nat) :
  length (filter (fun x => x = i) (k :: schedule))
  = ((if decide (k = i) then 1 else 0) + length (filter (fun x => x = i) schedule))%nat.
Proof. rewrite filter_cons. destruct (decide (k = i)); reflexivity. Qed.

(** One step advances the iteration that takes it, unless it has finished,
    and no other. *)
Lemma omp_step_pc st k i pc loc :
  st.2 !! i = Some (pc, loc) -> (pc <= length (body i))%nat ->
  exists loc',
    (omp_step body st k).2 !! i
    = Some (if decide (k = i) then Nat.min (S pc) (length (body i)) else pc, loc').
Proof.
  intros Hi Hpc. unfold omp_step.
  destruct (decide (k = i)) as [->|Hne].
  - rewrite Hi. destruct (body i !! pc) as [stmt|] eqn:Hb.
    + apply lookup_lt_Some in Hb. cbn [fst snd].
      rewrite list_lookup_insert_eq by (eapply lookup_lt_Some, Hi).
      rewrite Nat.min_l by lia. eexists. reflexivity.
    + apply lookup_ge_None in Hb. rewrite Hi, Nat.min_r by lia.
      replace (length (body i)) with pc by lia. eexists. reflexivity.
  - destruct (st.2 !! k) as [[pck lock]|]; [|eexists; exact Hi].
    destruct (body k !! pck); [|eexists; exact Hi].
    cbn [fst snd]. rewrite list_lookup_insert_ne by exact Hne. eexists. exact Hi.
Qed.

Lemma omp_steps_pc schedule st i pc loc :
  st.2 !! i = Some (pc, loc) -> (pc <= length (body i))%nat ->
  exists loc',
    (fold_left (omp_step body) schedule st).2 !! i
    = Some (Nat.min (pc + length (filter (fun x => x = i) schedule)) (length (body i)), loc').
Proof.
  revert st pc loc. induction schedule as [|k schedule IH]; intros st pc loc Hi Hpc.
  - exists loc. simpl. rewrite Nat.add_0_r, Nat.min_l by lia. exact Hi.
  - destruct (omp_step_pc st k i pc loc Hi Hpc) as [loc1 H1].
    cbn [fold_left]. rewrite steps_cons.
    destruct (decide (k = i)) as [->|Hne].
    + destruct (IH _ _ _ H1 ltac:(lia)) as [loc' H']. exists loc'. rewrite H'.
      do 2 f_equal. lia.
    + destruct (IH _ _ _ H1 Hpc) as [loc' H']. exists loc'. rewrite H'. reflexivity.
Qed.

Lemma omp_finished_intro threads :
  (forall i pc loc, threads !! i = Some (pc, loc) -> pc = length (body i)) ->
  omp_finished body threads = true.
Proof.
  intros Hall. unfold omp_finished. apply forallb_forall. intros [i [pc loc]] Hin.
  apply list_elem_of_In, list_elem_of_lookup_1 in Hin. destruct Hin as [j Hj].
  rewrite lookup_zip_with in Hj.
  destruct (seq 0 (length threads) !! j) as [i'|] eqn:Hs; [|discriminate].
  destruct (threads !! j) as [t|] eqn:Ht; [|discriminate].
  simpl in Hj. injection Hj as -> ->.
  apply lookup_seq in Hs. destruct Hs as [-> _]. simpl.
  apply Nat.eqb_eq. eapply Hall. exact Ht.
Qed.

(** A schedule that gives every iteration as many steps as its body has
    statements lets every iteration finish. *)
Lemma omp_complete_finished schedule (l : Layer) (locals : list Locals) :
  (forall i, (i < length locals)%nat ->
     (length (body i) <= length (filter (fun x => x = i) schedule))%nat) ->
  omp_finished body (omp_run body schedule l locals).2 = true.
Proof.
  intros Hsteps. apply omp_finished_intro. intros i pc loc Hi.
  destruct (decide (i < length locals)%nat) as [Hlt|Hge].
  - destruct (lookup_lt_is_Some_2 locals i Hlt) as [loc0 Hloc0].
    destruct (omp_steps_pc schedule (l, pair 0%nat <$> locals) i 0 loc0) as [loc' H'];
      [simpl; rewrite list_lookup_fmap, Hloc0; reflexivity | lia|].
    unfold omp_run in Hi. rewrite H' in Hi. injection Hi as <- _.
    specialize (Hsteps i Hlt). lia.
  - exfalso. apply lookup_lt_Some in Hi.
    assert (Hlen : forall sch st, length (fold_left (omp_step body) sch st).2 = length st.2).
    { induction sch as [|k sch IH]; intros st; [reflexivity|].
      simpl. rewrite IH. unfold omp_step.
      destruct (st.2 !! k) as [[pck lock]|]; [|reflexivity].
      destruct (body k !! pck); [|reflexivity]. simpl. apply length_insert. }
    unfold omp_run in Hi. rewrite Hlen in Hi. simpl in Hi. rewrite length_fmap in Hi. lia.
Qed.

End Progress.

Section Bodies.

Variable N C : nat.
Variable LR : double.

Lemma insert_lookup_total_id (l : Layer) i : <[i := l !!! i]> l = l.
Proof. apply list_insert_id'. intros Hi. apply list_lookup_lookup_total_lt, Hi. Qed.

(** A statement that rewrites [cell[i]] and the locals from [cell[i]] and
    the locals is local to the cell [i]. *)
Lemma cell_stmt_local i (g : Cell -> Locals -> Cell) (h : Cell -> Locals -> Locals)
    (stmt : Stmt) :
  (forall l loc, stmt (l, loc) = (<[i := g (l !!! i) loc]> l, h (l !!! i) loc)) ->
  local_to i stmt.
Proof.
  intros Hs. split; [|split].
  - intros l loc. rewrite Hs. apply length_insert.
  - intros l loc k Hk. rewrite Hs. apply list_lookup_insert_ne. congruence.
  - intros l l' loc Hi. rewrite !Hs. cbn [fst snd].
    assert (Ht : l !!! i = l' !!! i) by (rewrite !list_lookup_total_alt, Hi; reflexivity).
    rewrite Ht. split; [|reflexivity].
    destruct (l !! i) as [c|] eqn:Hc.
    + rewrite !list_lookup_insert_eq by (eapply lookup_lt_Some; eauto). reflexivity.
    + symmetry in Hi. rewrite !list_insert_ge by (apply lookup_ge_None; assumption).
      rewrite Hc, Hi. reflexivity.
Qed.

(** Every statement of the forward computation of the iteration [i] goes
    through [cell[i]] only. *)
Lemma forward_body_local img i : Forall (local_to i) (forward_body N img i).
Proof.
  unfold forward_body. apply Forall_cons. split.
  { apply (cell_stmt_local i (fun c _ => c)
             (fun _ loc => mkLocals 0%float (err loc) (temp loc))).
    intros l loc. cbn [fst snd]. rewrite insert_lookup_total_id. reflexivity. }
  apply Forall_app. split.
  - apply Forall_concat, Forall_fmap, Forall_forall. intros j _.
    unfold forward_stmts. cbn [compose]. repeat apply Forall_cons_2; [| |apply Forall_nil_2].
    + apply (cell_stmt_local i
               (fun c _ => set_input c (<[j := binarize (pixel img !!! j)]> (input c)))
               (fun _ loc => loc)).
      intros l loc. reflexivity.
    + apply (cell_stmt_local i (fun c _ => c)
               (fun c loc => if input c !!! j =? 0 then loc
                             else mkLocals (c_output loc + weight c !!! j)%float
                                    (err loc) (temp loc))).
      intros l loc. cbn [fst snd]. unfold read_input, read_weight.
      rewrite insert_lookup_total_id. destruct (_ =? 0); reflexivity.
  - apply Forall_cons_2; [|apply Forall_nil_2].
    apply (cell_stmt_local i
             (fun c loc => set_output c (c_output loc / of_int (Z.of_nat N))%float)
             (fun _ loc => loc)).
    intros l loc. reflexivity.
Qed.

(** So does every statement of the update. *)
Lemma update_body_local (tgt : Vector) i : Forall (local_to i) (update_body N LR tgt i).
Proof.
  unfold update_body. repeat apply Forall_cons_2.
  - apply (cell_stmt_local i (fun c _ => c)
             (fun c loc => mkLocals (c_output loc) (tgt !!! i - output c)%float (temp loc))).
    intros l loc. cbn [fst snd]. unfold read_output.
    rewrite insert_lookup_total_id. reflexivity.
  - apply (cell_stmt_local i (fun c _ => c)
             (fun _ loc => mkLocals (c_output loc) (err loc) (err loc * LR)%float)).
    intros l loc. cbn [fst snd]. rewrite insert_lookup_total_id. reflexivity.
  - apply Forall_fmap, Forall_forall. intros j _. cbn [compose].
    apply (cell_stmt_local i (fun c loc => update_step (temp loc) c j) (fun _ loc => loc)).
    intros l loc. unfold update_stmt, update_step. cbn [fst snd].
    unfold read_input, read_weight, write_weight.
    destruct (_ =? 0); [rewrite insert_lookup_total_id|]; reflexivity.
Qed.

Lemma train_body_local img (tgt : Vector) i stmt :
  stmt ∈ train_body N LR img tgt i -> local_to i stmt.
Proof.
  revert stmt. apply Forall_forall. unfold train_body. apply Forall_app.
  split; [apply forward_body_local | apply update_body_local].
Qed.

Lemma test_body_local img i stmt : stmt ∈ test_body N img i -> local_to i stmt.
Proof. revert stmt. apply Forall_forall. apply forward_body_local. Qed.

(** The statements of the first loop over [j], run alone, are the
    iterations of [forward_step] on [cell[i]] and [c_output]. *)
Lemma run_forward_loop img i js (l : Layer) loc :
  (i < length l)%nat ->
  run_stmts (concat (forward_stmts img i <$> js)) (l, loc)
  = (<[i := (fold_left (forward_step img) js (l !!! i, c_output loc)).1]> l,
     mkLocals (fold_left (forward_step img) js (l !!! i, c_output loc)).2 (err loc) (temp loc)).
Proof.
  intros Hi. induction js as [|j js IH] using rev_ind.
  - simpl. rewrite insert_lookup_total_id. destruct loc; reflexivity.
  - rewrite fmap_app, concat_app, run_stmts_app, IH, fold_left_app.
    cbn [fmap list_fmap concat app run_stmts fold_left forward_stmts fst snd].
    unfold read_input, read_weight, write_input. cbn [fst snd].
    rewrite !list_lookup_total_insert_eq, list_insert_insert_eq
      by (rewrite ?length_insert; exact Hi).
    unfold forward_step. cbn [fst snd input weight set_input c_output err temp].
    destruct (_ =? 0); reflexivity.
Qed.

Lemma run_update_loop i js (l : Layer) loc :
  (i < length l)%nat ->
  run_stmts (update_stmt i <$> js) (l, loc)
  = (<[i := fold_left (update_step (temp loc)) js (l !!! i)]> l, loc).
Proof.
  intros Hi. induction js as [|j js IH] using rev_ind.
  - simpl. rewrite insert_lookup_total_id. reflexivity.
  - rewrite fmap_app, run_stmts_app, IH, fold_left_app.
    cbn [fmap list_fmap run_stmts fold_left fst snd].
    unfold update_stmt, read_input, read_weight, write_weight. cbn [fst snd].
    rewrite !list_lookup_total_insert_eq by exact Hi.
    set (c := fold_left (update_step (temp loc)) js (l !!! i)).
    unfold update_step.
    destruct (_ =? 0); [reflexivity|].
    rewrite list_insert_insert_eq. reflexivity.
Qed.

(** The body of an iteration of the loop of [testLayer], run alone, is the
    iteration [test_cell] of the sequential loop. *)
Lemma run_forward_body img i (l : Layer) loc :
  (i < length l)%nat ->
  exists loc', run_stmts (forward_body N img i) (l, loc) = (test_cell N img l i, loc').
Proof.
  intros Hi. unfold forward_body.
  change (run_stmts (?s :: ?ss) ?st) with (run_stmts ss (s st)).
  rewrite run_stmts_app, run_forward_loop by exact Hi.
  cbn [run_stmts fold_left fst snd c_output err temp]. unfold write_output.
  rewrite list_lookup_total_insert_eq, list_insert_insert_eq by exact Hi.
  eexists. reflexivity.
Qed.

Lemma run_update_body (tgt : Vector) i (l : Layer) loc :
  (i < length l)%nat ->
  (run_stmts (update_body N LR tgt i) (l, loc)).1
  = <[i := updateCell N LR (tgt !!! i) (l !!! i)]> l.
Proof.
  intros Hi. unfold update_body.
  change (run_stmts (?s1 :: ?s2 :: ?ss) ?st) with (run_stmts ss (s2 (s1 st))).
  cbn [fst snd c_output err temp]. rewrite run_update_loop by exact Hi.
  reflexivity.
Qed.

(** The body of an iteration of the loop of [trainLayer], run alone, is the
    iteration [train_cell] of the sequential loop. *)
Lemma run_train_body img (tgt : Vector) i (l : Layer) loc :
  (i < length l)%nat ->
  (run_stmts (train_body N LR img tgt i) (l, loc)).1 = train_cell N LR img tgt l i.
Proof.
  intros Hi. unfold train_body. rewrite run_stmts_app.
  destruct (run_forward_body img i l loc Hi) as [loc' ->].
  unfold test_cell, train_cell.
  rewrite run_update_body by (rewrite length_insert; exact Hi).
  rewrite list_lookup_total_insert_eq, list_insert_insert_eq by exact Hi. reflexivity.
Qed.

Lemma forward_loop_length img i js :
  length (concat (forward_stmts img i <$> js)) = (2 * length js)%nat.
Proof.
  induction js as [|j js IH]; [reflexivity|].
  rewrite fmap_cons, concat_cons, length_app, IH. simpl. lia.
Qed.

Lemma forward_body_length img i : length (forward_body N img i) = (2 * N + 2)%nat.
Proof.
  unfold forward_body.
  rewrite length_cons, length_app, forward_loop_length, length_seq. simpl. lia.
Qed.

Lemma train_body_length img (tgt : Vector) i :
  length (train_body N LR img tgt i) = (3 * N + 4)%nat.
Proof.
  unfold train_body. rewrite length_app, forward_body_length. unfold update_body.
  rewrite !length_cons, length_fmap, length_seq. lia.
Qed.

Lemma test_body_length img i : length (test_body N img i) = (2 * N + 2)%nat.
Proof. apply forward_body_length. Qed.

End Bodies.

(** X1. The parallel loop of [trainLayer] over the cells leaves the layer of
    the sequential loop whatever the schedule: the statements of the
    iterations may interleave in any order, and the locals may start with any
    values. It is enough that the schedule gives every iteration the 3N+4
    steps of its body; every iteration has then finished. The statements
    are given the whole layer; that the iteration [i] reads and writes
    [cell[i]] only is read off the body ([train_body_local]). *)
Theorem train_cells_any_schedule N C LR img (tgt : Vector) (l : Layer)
    (locals : list Locals) (schedule : list nat) :
  length l = C -> length locals = C ->
  (forall i, (i < C)%nat -> (3 * N + 4 <= length (filter (fun k => k = i) schedule))%nat) ->
  omp_finished (train_body N LR img tgt)
    (omp_run (train_body N LR img tgt) schedule l locals).2 = true
  /\ (omp_run (train_body N LR img tgt) schedule l locals).1 = train_cells N C LR img tgt l.
Proof.
  intros Hl Hlocals Hsteps.
  assert (Hfin : omp_finished (train_body N LR img tgt)
                   (omp_run (train_body N LR img tgt) schedule l locals).2 = true).
  { apply omp_complete_finished. intros i Hi. rewrite train_body_length.
    apply Hsteps. lia. }
  split; [exact Hfin|].
  destruct (omp_run_finished (train_body N LR img tgt) l locals
              (train_body_local N LR img tgt) schedule Hfin) as [Hlen Hcells].
  rewrite train_cells_eq by assumption.
  apply list_eq. intros i. rewrite list_lookup_imap.
  destruct (l !! i) as [c|] eqn:Hc.
  - pose proof (lookup_lt_Some _ _ _ Hc) as Hi.
    destruct (lookup_lt_is_Some_2 locals i) as [loc Hloc]; [lia|].
    rewrite (Hcells i loc Hloc), run_train_body by exact Hi.
    unfold train_cell. rewrite list_lookup_insert_eq by exact Hi.
    rewrite (list_lookup_total_correct _ _ _ Hc). reflexivity.
  - apply lookup_ge_None. rewrite Hlen. apply lookup_ge_None, Hc.
Qed.

Lemma train_cells_any_schedule_witness :
  (forall i, (i < 2)%nat ->
     (3 * 4 + 4 <= length (filter (fun k => k = i) scenario_schedule))%nat)
  /\ (omp_run (train_body 4 1%float scenario_sample.1 (getTargetOutput 2 scenario_sample.2))
        scenario_schedule scenario_layer scenario_locals).1
     = train_cells 4 2 1%float scenario_sample.1 (getTargetOutput 2 scenario_sample.2)
         scenario_layer.
Proof.
  assert (H : forall i, (i < 2)%nat ->
                (3 * 4 + 4 <= length (filter (fun k => k = i) scenario_schedule))%nat).
  { intros [|[|i]] Hi; [vm_compute; lia | vm_compute; lia | lia]. }
  exact (conj H (proj2 (train_cells_any_schedule 4 2 1%float scenario_sample.1
                          (getTargetOutput 2 scenario_sample.2) scenario_layer
                          scenario_locals scenario_schedule eq_refl eq_refl H))).
Defined.

(** X2. The parallel loop of [testLayer] over the cells leaves the layer of
    the sequential loop whatever the schedule of the statements of its
    iterations, once every iteration has been given the 2N+2 steps of its
    body; steps given to an iteration that has finished change nothing.
    That the iteration [i] goes through [cell[i]] only is read off the body
    ([test_body_local]). *)
Theorem test_cells_any_schedule N C img (l : Layer)
    (locals : list Locals) (schedule : list nat) :
  length l = C -> length locals = C ->
  (forall i, (i < C)%nat -> (2 * N + 2 <= length (filter (fun k => k = i) schedule))%nat) ->
  omp_finished (test_body N img) (omp_run (test_body N img) schedule l locals).2 = true
  /\ (omp_run (test_body N img) schedule l locals).1 = test_cells N C img l.
Proof.
  intros Hl Hlocals Hsteps.
  assert (Hfin : omp_finished (test_body N img)
                   (omp_run (test_body N img) schedule l locals).2 = true).
  { apply omp_complete_finished. intros i Hi. rewrite test_body_length.
    apply Hsteps. lia. }
  split; [exact Hfin|].
  destruct (omp_run_finished (test_body N img) l locals
              (test_body_local N img) schedule Hfin) as [Hlen Hcells].
  rewrite test_cells_eq by assumption.
  apply list_eq. intros i. rewrite list_lookup_fmap.
  destruct (l !! i) as [c|] eqn:Hc.
  - pose proof (lookup_lt_Some _ _ _ Hc) as Hi.
    destruct (lookup_lt_is_Some_2 locals i) as [loc Hloc]; [lia|].
    rewrite (Hcells i loc Hloc). unfold test_body.
    destruct (run_forward_body N img i l loc Hi) as [loc' ->].
    unfold test_cell. cbn [fst]. rewrite list_lookup_insert_eq by exact Hi.
    rewrite (list_lookup_total_correct _ _ _ Hc). reflexivity.
  - apply lookup_ge_None. rewrite Hlen. apply lookup_ge_None, Hc.
Qed.

Lemma test_cells_any_schedule_witness :
  (forall i, (i < 2)%nat ->
     (2 * 4 + 2 <= length (filter (fun k => k = i) (rev scenario_schedule)))%nat)
  /\ (omp_run (test_body 4 scenario_sample.1) (rev scenario_schedule) scenario_layer
        scenario_locals).1
     = test_cells 4 2 scenario_sample.1 scenario_layer.
Proof.
  assert (H : forall i, (i < 2)%nat ->
                (2 * 4 + 2 <= length (filter (fun k => k = i) (rev scenario_schedule)))%nat).
  { intros [|[|i]] Hi; [vm_compute; lia | vm_compute; lia | lia]. }
  exact (conj H (proj2 (test_cells_any_schedule 4 2 scenario_sample.1 scenario_layer
                          scenario_locals (rev scenario_schedule) eq_refl eq_refl H))).
Defined.

(** The schedule matters to a loop whose iterations share a cell: the two
    iterations of [shared_cell_body] run one after the other add 2 to the
    output of the cell 0, and interleaved they add 1. Its statements are
    not local to the cell of their iteration. *)
Example shared_cell_race :
  output <$> (omp_run shared_cell_body [0; 0; 1; 1]%nat scenario_layer scenario_locals).1
  = [2; 0]%float
  /\ output <$> (omp_run shared_cell_body [0; 1; 0; 1]%nat scenario_layer scenario_locals).1
     = [1; 0]%float
  /\ ~ (forall stmt, stmt ∈ shared_cell_body 1 -> local_to 1 stmt).
Proof.
  split; [vm_compute; reflexivity|]. split; [vm_compute; reflexivity|].
  intros H.
  destruct (H (fun st => (write_output st.1 0 (c_output st.2 + 1)%float, st.2))) as (_ & Hframe & _).
  { unfold shared_cell_body. apply elem_of_cons. right. apply elem_of_cons. left. reflexivity. }
  specialize (Hframe scenario_layer (mkLocals 0%float 0%float 0%float) 0%nat ltac:(lia)).
  apply (f_equal (fmap (fun c => Prim2SF (output c)))) in Hframe.
  vm_compute in Hframe. discriminate.
Qed.

(** ** What the passes keep, and what they read *)

Section Frames.

Variable N C : nat.
Variable LR : double.

(** Writing back a cell that agrees with the old one under [f] leaves the
    layer as it was under [f]. *)
Lemma insert_same_fmap {B} (f : Cell -> B) (l : Layer) i c' :
  f c' = f (l !!! i) -> f <$> <[i := c']> l = f <$> l.
Proof.
  intros Hf. destruct (decide (i < length l)%nat) as [Hi|Hi].
  - destruct (lookup_lt_is_Some_2 l i Hi) as [c Hc].
    rewrite list_fmap_insert. apply list_insert_id.
    rewrite list_lookup_fmap, Hc. simpl. f_equal.
    rewrite Hf. f_equal. symmetry. apply list_lookup_total_correct, Hc.
  - rewrite list_insert_ge by lia. reflexivity.
Qed.

Lemma computeCell_cell_sizes img c : cell_sizes (computeCell N img c) = cell_sizes c.
Proof.
  unfold cell_sizes. rewrite computeCell_weight. f_equal.
  unfold computeCell. simpl. apply forward_loop_input_length.
Qed.

Lemma updateCell_cell_sizes t c : cell_sizes (updateCell N LR t c) = cell_sizes c.
Proof.
  unfold cell_sizes, updateCell.
  destruct (update_loop_frame ((t - output c) * LR)%float (seq 0 N) c) as (-> & _ & ->).
  reflexivity.
Qed.

Lemma train_cells_loop_sizes img tgt js (l : Layer) :
  cell_sizes <$> fold_left (train_cell N LR img tgt) js l = cell_sizes <$> l.
Proof.
  revert l. induction js as [|j js IH]; intros l; [reflexivity|].
  simpl. rewrite IH. unfold train_cell. apply insert_same_fmap.
  rewrite updateCell_cell_sizes. apply computeCell_cell_sizes.
Qed.

Lemma test_cells_loop_sizes img js (l : Layer) :
  cell_sizes <$> fold_left (test_cell N img) js l = cell_sizes <$> l.
Proof.
  revert l. induction js as [|j js IH]; intros l; [reflexivity|].
  simpl. rewrite IH. unfold test_cell. apply insert_same_fmap, computeCell_cell_sizes.
Qed.

Lemma train_loop_sizes samples (st : Layer * Z) :
  cell_sizes <$> (fold_left (train_sample N C LR) samples st).1 = cell_sizes <$> st.1.
Proof.
  revert st. induction samples as [|s samples IH]; intros st; [reflexivity|].
  simpl. rewrite IH. apply train_cells_loop_sizes.
Qed.

Lemma test_loop_sizes samples (st : Layer * Z) :
  cell_sizes <$> (fold_left (test_sample N C) samples st).1 = cell_sizes <$> st.1.
Proof.
  revert st. induction samples as [|s samples IH]; intros st; [reflexivity|].
  simpl. rewrite IH. apply test_cells_loop_sizes.
Qed.

Lemma wf_cell_sizes c : wf_cell N c <-> cell_sizes c = (N, N).
Proof.
  unfold wf_cell, cell_sizes. split; [intros [-> ->]; reflexivity|].
  intros H. injection H as -> ->. split; reflexivity.
Qed.

Lemma wf_by_sizes (l l' : Layer) :
  cell_sizes <$> l' = cell_sizes <$> l -> Forall (wf_cell N) l -> Forall (wf_cell N) l'.
Proof.
  intros Hs Hwf. apply Forall_lookup. intros i c' Hc'.
  assert (H : (cell_sizes <$> l) !! i = Some (cell_sizes c'))
    by (rewrite <- Hs, list_lookup_fmap, Hc'; reflexivity).
  rewrite list_lookup_fmap in H. destruct (l !! i) as [c|] eqn:Hc; [|discriminate].
  simpl in H. assert (Hcc : cell_sizes c = cell_sizes c') by congruence.
  apply wf_cell_sizes. rewrite <- Hcc. apply wf_cell_sizes.
  exact (proj1 (Forall_lookup _ _) Hwf _ _ Hc).
Qed.

Lemma train_step_wf img t c : wf_cell N c -> wf_cell N (updateCell N LR t (computeCell N img c)).
Proof.
  intros Hc. apply wf_cell_sizes.
  rewrite updateCell_cell_sizes, computeCell_cell_sizes. apply wf_cell_sizes, Hc.
Qed.

(** The layer component of the loop over the samples does not depend on the
    error count. *)
Lemma train_loop_layer samples (l : Layer) e e' :
  (fold_left (train_sample N C LR) samples (l, e)).1
  = (fold_left (train_sample N C LR) samples (l, e')).1.
Proof.
  revert l e e'. induction samples as [|s samples IH]; intros l e e'; [reflexivity|].
  simpl. unfold train_sample at 2 4. simpl. apply IH.
Qed.

Lemma test_loop_layer samples (l : Layer) e e' :
  (fold_left (test_sample N C) samples (l, e)).1
  = (fold_left (test_sample N C) samples (l, e')).1.
Proof.
  revert l e e'. induction samples as [|s samples IH]; intros l e e'; [reflexivity|].
  simpl. unfold test_sample at 2 4. simpl. apply IH.
Qed.

(** A cell of the layer goes through the pass on its own. *)
Lemma train_loop_cell samples (l : Layer) e i :
  length l = C ->
  (fold_left (train_sample N C LR) samples (l, e)).1 !! i
  = (fun c => train_cell_pass N C LR i c samples) <$> l !! i.
Proof.
  revert l e. induction samples as [|s samples IH]; intros l e Hl.
  - simpl. destruct (l !! i); reflexivity.
  - simpl. unfold train_sample at 2. cbv zeta. cbn [fst snd].
    rewrite IH by (unfold train_cells; rewrite train_cells_length; exact Hl).
    rewrite train_cells_eq by exact Hl.
    rewrite list_lookup_imap. destruct (l !! i); reflexivity.
Qed.

(** A weight under a zero pixel is not written by a training step. *)
Lemma train_step_zero_pixel img t c j :
  wf_image N img -> wf_cell N c -> pixel img !! j = Some 0 ->
  weight (updateCell N LR t (computeCell N img c)) !! j = weight c !! j.
Proof.
  intros Himg Hc Hp.
  rewrite updateCell_eq by (apply computeCell_wf; assumption).
  rewrite computeCell_eq by assumption. simpl.
  rewrite lookup_zip_with, list_lookup_fmap, Hp. simpl.
  destruct (weight c !! j); reflexivity.
Qed.

Lemma train_cell_pass_zero_pixel samples i j c :
  wf_cell N c -> Forall (fun s : Sample => wf_image N s.1 /\ pixel s.1 !! j = Some 0) samples ->
  wf_cell N (train_cell_pass N C LR i c samples)
  /\ weight (train_cell_pass N C LR i c samples) !! j = weight c !! j.
Proof.
  revert c. induction samples as [|s samples IH]; intros c Hc Hall; [split; [exact Hc | reflexivity]|].
  apply Forall_cons in Hall. destruct Hall as [[Himg Hp] Hall].
  unfold train_cell_pass. simpl.
  destruct (IH (updateCell N LR (getTargetOutput C s.2 !!! i) (computeCell N s.1 c))
              (train_step_wf _ _ _ Hc) Hall) as [Hwf Hw].
  split; [exact Hwf|]. unfold train_cell_pass in Hw. rewrite Hw.
  apply train_step_zero_pixel; assumption.
Qed.

End Frames.

Section Reads.

Variable N C : nat.
Variable LR : double.

(** Two loop bodies that agree on every state give the same loop. *)
Lemma fold_left_agree {S X : Type} (step step' : S -> X -> S) (xs : list X) :
  (forall s x, step s x = step' s x) ->
  forall s, fold_left step xs s = fold_left step' xs s.
Proof.
  intros Hstep. induction xs as [|x xs IH]; intros s; [reflexivity|].
  simpl. rewrite Hstep. apply IH.
Qed.

(** Two images with the same non-zero pixels are read alike. *)
Lemma binarize_lookup_same (p1 p2 : list Z) j :
  binarize <$> p1 = binarize <$> p2 -> binarize (p1 !!! j) = binarize (p2 !!! j).
Proof.
  intros H.
  assert (Hlen : length p1 = length p2)
    by (apply (f_equal length) in H; rewrite !length_fmap in H; exact H).
  destruct (decide (j < length p1)%nat) as [Hj|Hj].
  - rewrite <- !(list_lookup_total_fmap binarize) by lia. rewrite H. reflexivity.
  - rewrite !list_lookup_total_alt, !(proj2 (lookup_ge_None _ _)) by lia. reflexivity.
Qed.

Lemma computeCell_same_pixels img1 img2 c :
  binarize <$> pixel img1 = binarize <$> pixel img2 ->
  computeCell N img1 c = computeCell N img2 c.
Proof.
  intros H. unfold computeCell.
  rewrite (fold_left_agree (forward_step img1) (forward_step img2)); [reflexivity|].
  intros st j. unfold forward_step. rewrite (binarize_lookup_same _ _ j H). reflexivity.
Qed.

Lemma train_sample_same_shape st (s1 s2 : Sample) :
  same_shape s1 s2 -> train_sample N C LR st s1 = train_sample N C LR st s2.
Proof.
  intros [Hlbl Hpix]. unfold train_sample, train_cells. rewrite Hlbl.
  rewrite (fold_left_agree (train_cell N LR s1.1 (getTargetOutput C s2.2))
             (train_cell N LR s2.1 (getTargetOutput C s2.2))); [reflexivity|].
  intros l i. unfold train_cell. rewrite (computeCell_same_pixels _ _ _ Hpix). reflexivity.
Qed.

Lemma test_sample_same_shape st (s1 s2 : Sample) :
  same_shape s1 s2 -> test_sample N C st s1 = test_sample N C st s2.
Proof.
  intros [Hlbl Hpix]. unfold test_sample, test_cells. rewrite Hlbl.
  rewrite (fold_left_agree (test_cell N s1.1) (test_cell N s2.1)); [reflexivity|].
  intros l i. unfold test_cell. rewrite (computeCell_same_pixels _ _ _ Hpix). reflexivity.
Qed.

(** The forward computation reads the weights of the cell, not the input
    and the output it held. *)
Lemma computeCell_same_weights img c1 c2 :
  wf_image N img -> wf_cell N c1 -> wf_cell N c2 -> weight c1 = weight c2 ->
  computeCell N img c1 = computeCell N img c2.
Proof.
  intros Himg H1 H2 Hw. rewrite !computeCell_eq by assumption. rewrite Hw. reflexivity.
Qed.

Lemma same_weights_lookup (l1 l2 : Layer) i c1 :
  weight <$> l1 = weight <$> l2 -> l1 !! i = Some c1 ->
  exists c2, l2 !! i = Some c2 /\ weight c1 = weight c2.
Proof.
  intros Hw H1.
  assert (H : (weight <$> l2) !! i = Some (weight c1))
    by (rewrite <- Hw, list_lookup_fmap, H1; reflexivity).
  rewrite list_lookup_fmap in H. destruct (l2 !! i) as [c2|]; [|discriminate].
  exists c2. split; [reflexivity | simpl in H; congruence].
Qed.

Lemma same_weights_length (l1 l2 : Layer) :
  weight <$> l1 = weight <$> l2 -> length l1 = length l2.
Proof. intros H. apply (f_equal length) in H. rewrite !length_fmap in H. exact H. Qed.

Lemma same_weights_cells (f : nat -> Cell -> Cell) (l1 l2 : Layer) :
  Forall (wf_cell N) l1 -> Forall (wf_cell N) l2 -> weight <$> l1 = weight <$> l2 ->
  (forall i c1 c2, wf_cell N c1 -> wf_cell N c2 -> weight c1 = weight c2 -> f i c1 = f i c2) ->
  imap f l1 = imap f l2.
Proof.
  intros W1 W2 Hw Hf. apply list_eq. intros i. rewrite !list_lookup_imap.
  destruct (l1 !! i) as [c1|] eqn:H1.
  - destruct (same_weights_lookup l1 l2 i c1 Hw H1) as (c2 & H2 & Hc).
    rewrite H2. simpl. f_equal. apply Hf; [| |exact Hc].
    + exact (proj1 (Forall_lookup _ _) W1 _ _ H1).
    + exact (proj1 (Forall_lookup _ _) W2 _ _ H2).
  - pose proof (same_weights_length l1 l2 Hw) as Hlen.
    apply lookup_ge_None in H1. rewrite (proj2 (lookup_ge_None l2 i)) by lia. reflexivity.
Qed.

Lemma train_cells_same_weights img tgt (l1 l2 : Layer) :
  length l1 = C -> wf_image N img ->
  Forall (wf_cell N) l1 -> Forall (wf_cell N) l2 -> weight <$> l1 = weight <$> l2 ->
  train_cells N C LR img tgt l1 = train_cells N C LR img tgt l2.
Proof.
  intros Hl Himg W1 W2 Hw.
  assert (Hl2 : length l2 = C) by (rewrite <- (same_weights_length l1 l2 Hw); exact Hl).
  rewrite !train_cells_eq by assumption.
  apply same_weights_cells; try assumption.
  intros i c1 c2 H1 H2 Hc. rewrite (computeCell_same_weights img c1 c2); auto.
Qed.

Lemma test_cells_same_weights img (l1 l2 : Layer) :
  length l1 = C -> wf_image N img ->
  Forall (wf_cell N) l1 -> Forall (wf_cell N) l2 -> weight <$> l1 = weight <$> l2 ->
  test_cells N C img l1 = test_cells N C img l2.
Proof.
  intros Hl Himg W1 W2 Hw.
  assert (Hl2 : length l2 = C) by (rewrite <- (same_weights_length l1 l2 Hw); exact Hl).
  rewrite !test_cells_eq by assumption.
  rewrite <- !(imap_const (computeCell N img)).
  apply same_weights_cells; try assumption.
  intros i c1 c2 H1 H2 Hc. apply computeCell_same_weights; assumption.
Qed.

End Reads.

(** X3. A weight whose pixel is zero in every image of a training pass is
    never written: after the pass it is the weight the cell had before,
    whatever the labels, the other pixels and the other weights. *)
Theorem zero_pixel_keeps_weight N C LR (l : Layer) (samples : list Sample) i j c :
  length l = C -> l !! i = Some c -> wf_cell N c ->
  Forall (fun s : Sample => wf_image N s.1 /\ pixel s.1 !! j = Some 0) samples ->
  exists c', layer_after (trainLayer N C LR l samples) !! i = Some c'
             /\ weight c' !! j = weight c !! j.
Proof.
  intros Hl Hc Hwf Hall. unfold trainLayer. simpl.
  rewrite (train_loop_cell N C LR samples l 0 i Hl), Hc. simpl.
  eexists. split; [reflexivity|].
  apply train_cell_pass_zero_pixel; assumption.
Qed.

Lemma zero_pixel_keeps_weight_witness :
  Forall (fun s : Sample => wf_image 4 s.1 /\ pixel s.1 !! 1%nat = Some 0)
    [scenario_sample; (mkImage [7; 0; 0; 9], 0)]
  /\ exists c', layer_after (trainLayer 4 2 1%float scenario_layer
                              [scenario_sample; (mkImage [7; 0; 0; 9], 0)]) !! 1%nat = Some c'
                /\ weight c' !! 1%nat = Some 0.2%float.
Proof.
  assert (H : Forall (fun s : Sample => wf_image 4 s.1 /\ pixel s.1 !! 1%nat = Some 0)
                [scenario_sample; (mkImage [7; 0; 0; 9], 0)])
    by (repeat constructor).
  exact (conj H (zero_pixel_keeps_weight 4 2 1%float scenario_layer _ 1 1 scenario_cell1
                   eq_refl eq_refl (conj eq_refl eq_refl) H)).
Defined.

(** X4. Only whether a pixel is zero is read: two passes over samples with
    the same labels and the same non-zero pixels leave the same layer and
    report the same numbers, whatever the intensities are. *)
Theorem intensity_is_ignored N C LR (l : Layer) (samples1 samples2 : list Sample) :
  Forall2 same_shape samples1 samples2 ->
  trainLayer N C LR l samples1 = trainLayer N C LR l samples2
  /\ testLayer N C l samples1 = testLayer N C l samples2.
Proof.
  intros H.
  assert (Hlen : length samples1 = length samples2) by (eapply Forall2_length, H).
  unfold trainLayer, testLayer. rewrite Hlen. clear Hlen.
  generalize (l, 0). intros st.
  enough (Hloops : fold_left (train_sample N C LR) samples1 st
                   = fold_left (train_sample N C LR) samples2 st
                   /\ fold_left (test_sample N C) samples1 st
                      = fold_left (test_sample N C) samples2 st)
    by (destruct Hloops as [-> ->]; split; reflexivity).
  revert st. induction H as [|s1 s2 r1 r2 Hs _ IH]; intros st; [split; reflexivity|].
  simpl. rewrite (train_sample_same_shape N C LR st s1 s2 Hs).
  rewrite (test_sample_same_shape N C st s1 s2 Hs).
  split; apply IH.
Qed.

Lemma intensity_is_ignored_witness :
  Forall2 same_shape [scenario_sample] [(mkImage [255; 0; 7; 0], 1)]
  /\ trainLayer 4 2 1%float scenario_layer [scenario_sample]
     = trainLayer 4 2 1%float scenario_layer [(mkImage [255; 0; 7; 0], 1)].
Proof.
  assert (H : Forall2 same_shape [scenario_sample] [(mkImage [255; 0; 7; 0], 1)])
    by (repeat constructor).
  exact (conj H (proj1 (intensity_is_ignored 4 2 1%float scenario_layer _ _ H))).
Defined.

(** X5. A pass reads the weights of the layer it is given and nothing else
    of it: the cached inputs and the outputs the cells hold at the start are
    overwritten by the first sample before they are read. Two layers with
    the same weights give the same pass over at least one sample. *)
Theorem pass_reads_weights_only N C LR (l1 l2 : Layer) (s : Sample) (samples : list Sample) :
  length l1 = C -> Forall (wf_cell N) l1 -> Forall (wf_cell N) l2 ->
  weight <$> l1 = weight <$> l2 -> wf_image N s.1 ->
  trainLayer N C LR l1 (s :: samples) = trainLayer N C LR l2 (s :: samples)
  /\ testLayer N C l1 (s :: samples) = testLayer N C l2 (s :: samples).
Proof.
  intros Hl W1 W2 Hw Himg. unfold trainLayer, testLayer. cbn [fold_left].
  assert (Htrain : train_sample N C LR (l1, 0) s = train_sample N C LR (l2, 0) s).
  { unfold train_sample. cbn [fst snd].
    rewrite (train_cells_same_weights N C LR s.1 _ l1 l2); auto. }
  assert (Htest : test_sample N C (l1, 0) s = test_sample N C (l2, 0) s).
  { unfold test_sample. cbn [fst snd].
    rewrite (test_cells_same_weights N C s.1 l1 l2); auto. }
  rewrite Htrain, Htest. split; reflexivity.
Qed.

Lemma pass_reads_weights_only_witness :
  let l2 := [mkCell [1; 1; 1; 1] (weight scenario_cell0) 7%float;
             mkCell [0; 1; 0; 1] (weight scenario_cell1) (-3)%float] in
  Forall (wf_cell 4) scenario_layer /\ Forall (wf_cell 4) l2
  /\ weight <$> scenario_layer = weight <$> l2
  /\ trainLayer 4 2 1%float scenario_layer [scenario_sample]
     = trainLayer 4 2 1%float l2 [scenario_sample].
Proof.
  cbv zeta.
  assert (H1 : Forall (wf_cell 4) scenario_layer) by (repeat constructor).
  assert (H2 : Forall (wf_cell 4)
                 [mkCell [1; 1; 1; 1] (weight scenario_cell0) 7%float;
                  mkCell [0; 1; 0; 1] (weight scenario_cell1) (-3)%float])
    by (repeat constructor).
  assert (H3 : weight <$> scenario_layer
               = weight <$> [mkCell [1; 1; 1; 1] (weight scenario_cell0) 7%float;
                             mkCell [0; 1; 0; 1] (weight scenario_cell1) (-3)%float])
    by reflexivity.
  exact (conj H1 (conj H2 (conj H3
           (proj1 (pass_reads_weights_only 4 2 1%float scenario_layer _ scenario_sample []
                     eq_refl H1 H2 H3 eq_refl))))).
Defined.

(** X7. A pass over two runs of samples one after the other is the pass
    over the second run started from the layer the first run left, and its
    error count is the sum of the two counts. *)
Theorem pass_app N C LR (l : Layer) (samples1 samples2 : list Sample) :
  Z.of_nat (length (samples1 ++ samples2)) <= INT_MAX ->
  let tr1 := trainLayer N C LR l samples1 in
  let tr2 := trainLayer N C LR (layer_after tr1) samples2 in
  let te1 := testLayer N C l samples1 in
  let te2 := testLayer N C (layer_after te1) samples2 in
  layer_after (trainLayer N C LR l (samples1 ++ samples2)) = layer_after tr2
  /\ errCount (trainLayer N C LR l (samples1 ++ samples2)) = errCount tr1 + errCount tr2
  /\ layer_after (testLayer N C l (samples1 ++ samples2)) = layer_after te2
  /\ errCount (testLayer N C l (samples1 ++ samples2)) = errCount te1 + errCount te2.
Proof.
  intros Hlen. rewrite length_app in Hlen. cbv zeta. unfold trainLayer, testLayer.
  cbn [layer_after errCount]. rewrite !fold_left_app.
  pose proof (mismatches_le (train_predictions N C LR l samples1) samples1) as M1.
  pose proof (mismatches_le (test_predictions N C l samples1) samples1) as M2.
  pose proof (train_loop_count N C LR samples1 l 0 ltac:(lia) ltac:(lia)) as E1.
  pose proof (test_loop_count N C samples1 l 0 ltac:(lia) ltac:(lia)) as E2.
  rewrite (surjective_pairing (fold_left (train_sample N C LR) samples1 (l, 0))).
  rewrite (surjective_pairing (fold_left (test_sample N C) samples1 (l, 0))).
  split; [apply train_loop_layer|]. split; [|split; [apply test_loop_layer|]].
  - rewrite (train_loop_count N C LR samples2 _ _) by lia.
    rewrite (train_loop_count N C LR samples2 _ 0) by lia. cbn [fst snd]. lia.
  - rewrite (test_loop_count N C samples2 _ _) by lia.
    rewrite (test_loop_count N C samples2 _ 0) by lia. cbn [fst snd]. lia.
Qed.

Lemma pass_app_witness :
  Z.of_nat (length ([scenario_sample] ++ [scenario_sample])) <= INT_MAX
  /\ errCount (trainLayer 4 2 1%float scenario_layer ([scenario_sample] ++ [scenario_sample]))
     = errCount (trainLayer 4 2 1%float scenario_layer [scenario_sample])
       + errCount (trainLayer 4 2 1%float
                     (layer_after (trainLayer 4 2 1%float scenario_layer [scenario_sample]))
                     [scenario_sample]).
Proof.
  assert (H : Z.of_nat (length ([scenario_sample] ++ [scenario_sample])) <= INT_MAX)
    by (vm_compute; discriminate).
  pose proof (pass_app 4 2 1%float scenario_layer [scenario_sample] [scenario_sample] H) as P.
  cbv zeta in P. destruct P as (_ & P & _).
  exact (conj H P).
Defined.

(** X8. The cells learn independently: what a training pass leaves in the
    cell [i] is that cell taken alone through the forward computation and
    the update of every sample, so it depends on no other cell of the
    layer. *)
Theorem cells_learn_independently N C LR (l : Layer) (samples : list Sample) i :
  length l = C ->
  layer_after (trainLayer N C LR l samples) !! i
  = (fun c => train_cell_pass N C LR i c samples) <$> l !! i
  /\ forall l' : Layer, length l' = C -> l' !! i = l !! i ->
       layer_after (trainLayer N C LR l' samples) !! i
       = layer_after (trainLayer N C LR l samples) !! i.
Proof.
  intros Hl. unfold trainLayer. simpl. split.
  - apply train_loop_cell, Hl.
  - intros l' Hl' Hi. rewrite !train_loop_cell by assumption. rewrite Hi. reflexivity.
Qed.

Lemma cells_learn_independently_witness :
  length scenario_layer = 2%nat
  /\ layer_after (trainLayer 4 2 1%float scenario_layer [scenario_sample]) !! 1%nat
     = Some (train_cell_pass 4 2 1%float 1 scenario_cell1 [scenario_sample]).
Proof.
  exact (conj eq_refl
           (proj1 (cells_learn_independently 4 2 1%float scenario_layer [scenario_sample] 1
                     eq_refl))).
Defined.

(** ** The reported rate *)

Lemma fval_hundred : fval 100%float = 100 * unit_val.
Proof. vm_compute. reflexivity. Qed.

(** A double in [0,1] times 100 is in [0,100]. *)
Lemma mul_hundred_bound q :
  is_finite q = true -> 0 <= fval q <= unit_val ->
  is_finite (q * 100) = true /\ 0 <= fval (q * 100) <= 100 * unit_val.
Proof.
  intros Fq Hq. rewrite is_finite_spec in *. unfold fval in *. rewrite mul_spec.
  pose proof (Prim2SF_valid q) as Vq. pose proof unit_val_pos as P.
  change (Prim2SF 100) with (S754_finite false 7036874417766400 (-46)).
  destruct (Prim2SF q) as [s|s| |s mq eq]; try discriminate.
  - simpl. split; [reflexivity | lia].
  - simpl in Vq. pose proof (bounded_inv mq eq Vq) as (He & _ & _).
    pose proof (pow2_pos (eq + 1074) ltac:(lia)) as Pe.
    destruct s; [simpl in Hq; lia|]. simpl in Hq. destruct Hq as [_ Hq].
    unfold SF64mul, SFmul. cbn [xorb].
    set (A := Z.pos (mq * 7036874417766400)). set (ex := eq + -46).
    assert (HA : A = Z.pos mq * (25 * 2 ^ 48)) by (unfold A; lia).
    assert (Heq : eq <= 0).
    { assert (H2 : 2 ^ (eq + 1074) <= 2 ^ 1074) by (change (2 ^ 1074) with unit_val; nia).
      apply Z.pow_le_mono_r_iff in H2; lia. }
    assert (Hmq : Z.pos mq <= 2 ^ (- eq)).
    { assert (H2 : unit_val = 2 ^ (- eq) * 2 ^ (eq + 1074)).
      { rewrite <- (Z.pow_add_r 2 (- eq) (eq + 1074)) by lia.
        unfold unit_val. f_equal. lia. }
      rewrite H2 in Hq. apply Z.mul_le_mono_pos_r in Hq; assumption. }
    pose proof (pow2_pos (- eq) ltac:(lia)) as Pk.
    assert (HAle : A <= 25 * 2 ^ (2 - ex)).
    { replace (2 - ex) with (48 + - eq) by (unfold ex; lia).
      rewrite (Z.pow_add_r 2 48 (- eq)) by lia. rewrite HA. nia. }
    destruct (binary_round_aux_value false A 1 A loc_Exact ex)
      as (m1 & Hb & Hx & _ & Hres);
      [unfold A; lia | lia | rewrite Z.div_1_r; reflexivity
       | unfold loc_of; rewrite Z.mod_1_r; reflexivity |].
    set (e1 := rexp A ex) in *.
    pose proof (rexp_ge A ex) as (G1 & G2 & _). fold e1 in G1, G2.
    assert (Hd : Zdigits2 A <= 53 + - eq).
    { apply Zdigits2_le; [unfold A; lia|].
      rewrite (Z.pow_add_r 2 53 (- eq)) by lia. rewrite HA.
      assert (25 * 2 ^ 48 < 2 ^ 53) by reflexivity. nia. }
    assert (G3 : e1 <= -46).
    { unfold e1, rexp. rewrite fexp_eq. unfold ex. lia. }
    rewrite Z.mul_1_l in Hb, Hx.
    pose proof (pow2_pos (e1 - ex) ltac:(lia)) as Pd.
    pose proof (pow2_pos (2 - e1) ltac:(lia)) as Pk'.
    assert (Hsplit : 2 ^ (2 - ex) = 2 ^ (2 - e1) * 2 ^ (e1 - ex)).
    { rewrite <- (Z.pow_add_r 2 (2 - e1) (e1 - ex)) by lia. f_equal. lia. }
    assert (H0 : 0 <= A / 2 ^ (e1 - ex)) by (apply Z.div_pos; [unfold A|]; lia).
    assert (Hm1 : m1 <= 25 * 2 ^ (2 - e1)).
    { destruct (Z.eq_dec (A mod 2 ^ (e1 - ex)) 0) as [E|NE].
      - rewrite (Hx E). apply Z.div_le_upper_bound; [lia|].
        rewrite Hsplit in HAle. lia.
      - assert (HAlt : A < 25 * 2 ^ (2 - e1) * 2 ^ (e1 - ex)).
        { destruct (Z.eq_dec A (25 * 2 ^ (2 - e1) * 2 ^ (e1 - ex))) as [E|NE'].
          - exfalso. apply NE. rewrite E. apply Z.mod_mul. lia.
          - rewrite Hsplit in HAle. lia. }
        assert (A / 2 ^ (e1 - ex) < 25 * 2 ^ (2 - e1))
          by (apply Z.div_lt_upper_bound; lia).
        lia. }
    pose proof (pow2_pos (e1 + 1074) ltac:(lia)) as Pg.
    assert (Hu : 2 ^ (2 - e1) * 2 ^ (e1 + 1074) = 4 * unit_val).
    { rewrite <- (Z.pow_add_r 2 (2 - e1) (e1 + 1074)) by lia.
      replace (2 - e1 + (e1 + 1074)) with (2 + 1074) by lia.
      rewrite (Z.pow_add_r 2 2 1074) by lia. reflexivity. }
    destruct Hres as [[Hf Hv]|(_ & _ & Hi)]; [|lia].
    split; [exact Hf|]. rewrite Hv. unfold signed. split; [nia|].
    replace (100 * unit_val) with (25 * (2 ^ (2 - e1) * 2 ^ (e1 + 1074))) by lia.
    rewrite Z.mul_assoc. apply Z.mul_le_mono_nonneg_r; lia.
Qed.

(** 100 minus a double in [0,100] is in [0,100]. *)
Lemma sub_hundred_bound p :
  is_finite p = true -> 0 <= fval p <= 100 * unit_val ->
  is_finite (100 - p) = true /\ 0 <= fval (100 - p) <= 100 * unit_val.
Proof.
  intros Fp Hp.
  pose proof (sub_rounds 100 p eq_refl Fp) as Hr. rewrite fval_hundred in Hr.
  pose proof (rounds_to_sign _ _ Hr) as [Sp _].
  pose proof (rounds_to_le_float _ _ (Prim2SF 100) Hr (prim_valid_finite 100 eq_refl)) as Hle.
  fold (fval 100) in Hle. rewrite fval_hundred in Hle.
  specialize (Sp ltac:(lia)). specialize (Hle ltac:(lia)).
  fold (fval (100 - p)) in Sp, Hle.
  pose proof unit_val_pos as P. pose proof unit_lt_overflow as U.
  pose proof overflow_lt_beyond as O.
  assert (H100 : 100 * unit_val < beyond_val).
  { assert (100 < 2 ^ 53) by reflexivity. nia. }
  split; [|lia]. apply finite_by_value; [|lia].
  rewrite is_nan_spec. exact (rounds_to_not_nan _ _ Hr).
Qed.

(** The rate of [e] errors among [t] images is a percentage. *)
Lemma success_rate_range e (t : nat) :
  0 <= e <= Z.of_nat t -> (0 < t)%nat -> Z.of_nat t <= INT_MAX ->
  (0 <=? success_rate e t)%float = true /\ (success_rate e t <=? 100)%float = true.
Proof.
  intros He Ht Hmax. unfold success_rate.
  assert (H53 : Z.of_nat t < 2 ^ 53) by (unfold INT_MAX in Hmax; lia).
  destruct (of_int_value e ltac:(lia)) as [Fe Ve].
  destruct (of_int_value (Z.of_nat t) ltac:(lia)) as [Ft Vt].
  pose proof unit_val_pos as P.
  destruct (div_unit_bound (of_int e) (of_int (Z.of_nat t)) Fe Ft) as [Fq Vq];
    [rewrite Ve, Vt; nia | rewrite Vt; nia|].
  destruct (mul_hundred_bound _ Fq Vq) as [Fp Vp].
  destruct (sub_hundred_bound _ Fp Vp) as [Fr Vr].
  pose proof (is_finite_not_nan _ Fr) as Nr.
  rewrite !leb_fval by (try assumption; reflexivity).
  rewrite fval_zero, fval_hundred. split; apply Z.leb_le; lia.
Qed.

(** X9. The rate a pass reports over at least one sample is a percentage:
    not a NaN, at least 0 and at most 100, after the rounding of the
    division, the product and the difference. Over no sample at all the
    rate is 0/0, a NaN. *)
Theorem success_rate_is_a_percentage N C LR (l : Layer) (samples : list Sample) :
  Z.of_nat (length samples) <= INT_MAX ->
  let tr := trainLayer N C LR l samples in
  let te := testLayer N C l samples in
  (samples = [] -> is_nan (successRate tr) = true /\ is_nan (successRate te) = true)
  /\ (samples <> [] ->
      (0 <=? successRate tr)%float = true /\ (successRate tr <=? 100)%float = true
      /\ (0 <=? successRate te)%float = true /\ (successRate te <=? 100)%float = true).
Proof.
  intros Hlen. cbv zeta. split.
  - intros ->. split; reflexivity.
  - intros Hne.
    assert (Ht : (0 < length samples)%nat) by (destruct samples; [congruence | simpl; lia]).
    pose proof (mismatches_le (train_predictions N C LR l samples) samples) as M1.
    pose proof (mismatches_le (test_predictions N C l samples) samples) as M2.
    unfold trainLayer, testLayer. cbn [successRate].
    rewrite (train_loop_count N C LR samples l 0) by lia.
    rewrite (test_loop_count N C samples l 0) by lia.
    destruct (success_rate_range
                (0 + Z.of_nat (mismatches (train_predictions N C LR l samples) samples))
                (length samples)) as [A1 A2]; [lia | exact Ht | exact Hlen|].
    destruct (success_rate_range
                (0 + Z.of_nat (mismatches (test_predictions N C l samples) samples))
                (length samples)) as [B1 B2]; [lia | exact Ht | exact Hlen|].
    auto.
Qed.

Lemma success_rate_is_a_percentage_witness :
  Z.of_nat (length [scenario_sample]) <= INT_MAX
  /\ [scenario_sample] <> []
  /\ (0 <=? successRate (trainLayer 4 2 1%float scenario_layer [scenario_sample]))%float = true
  /\ (successRate (trainLayer 4 2 1%float scenario_layer [scenario_sample]) <=? 100)%float
     = true.
Proof.
  assert (H1 : Z.of_nat (length [scenario_sample]) <= INT_MAX) by (vm_compute; discriminate).
  assert (H2 : [scenario_sample] <> []) by discriminate.
  pose proof (success_rate_is_a_percentage 4 2 1%float scenario_layer [scenario_sample] H1) as H.
  cbv zeta in H. destruct H as [_ H]. destruct (H H2) as (A1 & A2 & _).
  exact (conj H1 (conj H2 (conj A1 A2))).
Defined.

(** ** Weights that are not numbers, and weights that are not read *)

Lemma nan_add_l x y : is_nan x = true -> is_nan (x + y) = true.
Proof.
  rewrite !is_nan_spec, add_spec.
  destruct (Prim2SF x); try discriminate. intros _. destruct (Prim2SF y); reflexivity.
Qed.

Lemma nan_add_r x y : is_nan y = true -> is_nan (x + y) = true.
Proof.
  rewrite !is_nan_spec, add_spec.
  destruct (Prim2SF y); try discriminate. intros _. destruct (Prim2SF x); reflexivity.
Qed.

Lemma nan_sub_r x y : is_nan y = true -> is_nan (x - y) = true.
Proof.
  rewrite !is_nan_spec, sub_spec.
  destruct (Prim2SF y); try discriminate. intros _. destruct (Prim2SF x); reflexivity.
Qed.

Lemma nan_mul_l x y : is_nan x = true -> is_nan (x * y) = true.
Proof.
  rewrite !is_nan_spec, mul_spec.
  destruct (Prim2SF x); try discriminate. intros _. destruct (Prim2SF y); reflexivity.
Qed.

Lemma nan_div_l x y : is_nan x = true -> is_nan (x / y) = true.
Proof.
  rewrite !is_nan_spec, div_spec.
  destruct (Prim2SF x); try discriminate. intros _. destruct (Prim2SF y); reflexivity.
Qed.

Lemma fold_add_nan_acc (ws : list double) c :
  is_nan c = true -> is_nan (fold_left PrimFloat.add ws c) = true.
Proof.
  revert c. induction ws as [|w ws IH]; intros c Hc; [exact Hc|].
  simpl. apply IH, nan_add_l, Hc.
Qed.

Lemma fold_add_nan_elem (ws : list double) c w :
  w ∈ ws -> is_nan w = true -> is_nan (fold_left PrimFloat.add ws c) = true.
Proof.
  revert c. induction ws as [|w' ws IH]; intros c Hin Hw.
  - apply not_elem_of_nil in Hin. destruct Hin.
  - simpl. apply elem_of_cons in Hin. destruct Hin as [->|Hin].
    + apply fold_add_nan_acc, nan_add_r, Hw.
    + apply IH; assumption.
Qed.

Lemma sum_active_nan (mask : list Z) (ws : list double) j w :
  mask !! j = Some 1 -> ws !! j = Some w -> is_nan w = true ->
  is_nan (sum_active mask ws) = true.
Proof.
  intros Hm Hw Hn. unfold sum_active. apply (fold_add_nan_elem _ _ w); [|exact Hn].
  apply list_elem_of_fmap. exists (1, w). split; [reflexivity|].
  apply list_elem_of_filter. split; [reflexivity|].
  apply (list_elem_of_lookup_2 _ j). rewrite lookup_zip_with, Hm. simpl. rewrite Hw. reflexivity.
Qed.

(** The active weights alone are summed. *)
Lemma sum_active_agree (mask : list Z) (ws1 ws2 : list double) :
  length ws1 = length ws2 ->
  (forall j, mask !! j = Some 1 -> ws1 !! j = ws2 !! j) ->
  sum_active mask ws1 = sum_active mask ws2.
Proof.
  intros Hlen Hag. unfold sum_active. f_equal. f_equal.
  revert ws1 ws2 Hlen Hag. induction mask as [|m mask IH]; intros ws1 ws2 Hlen Hag; [reflexivity|].
  destruct ws1 as [|w1 ws1], ws2 as [|w2 ws2]; try discriminate; [reflexivity|].
  simpl. rewrite !filter_cons. simpl.
  rewrite (IH ws1 ws2) by
    (try (simpl in Hlen; lia); intros j Hj; exact (Hag (S j) Hj)).
  case_decide as Hm; [|reflexivity].
  specialize (Hag 0%nat). simpl in Hag. rewrite Hm in Hag.
  specialize (Hag eq_refl). congruence.
Qed.

Lemma sum_active_blank (mask : list Z) (ws : list double) :
  Forall (fun m => m = 0) mask -> sum_active mask ws = 0%float.
Proof.
  intros Hall. unfold sum_active.
  replace (filter (fun p : Z * double => p.1 = 1) (zip mask ws)) with (@nil (Z * double));
    [reflexivity|].
  revert ws. induction Hall as [|m mask -> _ IH]; intros ws; [reflexivity|].
  destruct ws as [|w ws]; [reflexivity|].
  simpl. rewrite filter_cons. simpl. rewrite <- IH. reflexivity.
Qed.

(** Zero divided by the number of the inputs. *)
Lemma zero_div_of_int k : 0 < k < 2 ^ 53 -> (0 / of_int k)%float = 0%float.
Proof.
  intros Hk. destruct (of_int_value k ltac:(lia)) as [Fk Vk].
  pose proof unit_val_pos as P.
  apply Prim2SF_inj. rewrite div_spec.
  rewrite is_finite_spec in Fk. unfold fval in Vk.
  change (Prim2SF 0) with (S754_zero false).
  destruct (Prim2SF (of_int k)) as [s|s| |s m e]; try discriminate; simpl in Vk; try nia.
  destruct s; [nia | reflexivity].
Qed.

Lemma mask_active (pixels : list Z) j :
  (binarize <$> pixels) !! j = Some 1 -> exists p, pixels !! j = Some p /\ p <> 0.
Proof.
  rewrite list_lookup_fmap. destruct (pixels !! j) as [p|]; [|discriminate].
  simpl. intros H. exists p. split; [reflexivity|].
  destruct (binarize_cases p) as [[_ E]|[Hp _]]; [congruence | exact Hp].
Qed.

Lemma mask_of_active (pixels : list Z) j p :
  pixels !! j = Some p -> p <> 0 -> (binarize <$> pixels) !! j = Some 1.
Proof.
  intros Hp Hnz. rewrite list_lookup_fmap, Hp. simpl. f_equal.
  destruct (binarize_cases p) as [[E _]|[_ E]]; [congruence | exact E].
Qed.

(** X10. A NaN among the weights under the non-zero pixels of an image makes
    the output of the cell a NaN, and the update that follows then turns
    every weight under a non-zero pixel into a NaN, whatever the target and
    the learning rate: nothing in the pass tests for it. *)
Theorem nan_weight_poisons_cell N LR img t c j p w :
  wf_image N img -> wf_cell N c ->
  pixel img !! j = Some p -> p <> 0 -> weight c !! j = Some w -> is_nan w = true ->
  is_nan (output (computeCell N img c)) = true
  /\ forall k pk wk, pixel img !! k = Some pk -> pk <> 0 ->
       weight (updateCell N LR t (computeCell N img c)) !! k = Some wk -> is_nan wk = true.
Proof.
  intros Himg Hc Hp Hnz Hw Hn.
  assert (Hout : is_nan (output (computeCell N img c)) = true).
  { rewrite computeCell_eq by assumption. simpl. apply nan_div_l.
    apply (sum_active_nan _ _ j w); [eapply mask_of_active; eassumption | exact Hw | exact Hn]. }
  split; [exact Hout|]. intros k pk wk Hpk Hnzk Hwk.
  pose proof (computeCell_wf N img c Himg Hc) as Hc'.
  assert (Hik : input (computeCell N img c) !! k = Some 1).
  { rewrite computeCell_eq by assumption. simpl. eapply mask_of_active; eassumption. }
  destruct (lookup_lt_is_Some_2 (weight (computeCell N img c)) k) as [w0 Hw0].
  { destruct Hc' as [Hi' Hw']. rewrite Hw', <- Hi'. eapply lookup_lt_Some, Hik. }
  rewrite (updateCell_lookup N LR t _ k 1 w0 Hc' Hik Hw0) in Hwk.
  injection Hwk as <-. unfold updated. simpl.
  apply nan_add_r, nan_mul_l, nan_sub_r, Hout.
Qed.

Lemma nan_weight_poisons_cell_witness :
  wf_image 4 scenario_sample.1 /\ wf_cell 4 poisoned_cell
  /\ is_nan (output (computeCell 4 scenario_sample.1 poisoned_cell)) = true
  /\ is_nan (weight (updateCell 4 1%float 1%float
                       (computeCell 4 scenario_sample.1 poisoned_cell)) !!! 2%nat) = true.
Proof.
  assert (H1 : wf_image 4 scenario_sample.1) by reflexivity.
  assert (H2 : wf_cell 4 poisoned_cell) by (split; reflexivity).
  destruct (nan_weight_poisons_cell 4 1%float scenario_sample.1 1%float poisoned_cell
              0 1 nan H1 H2 eq_refl ltac:(discriminate) eq_refl eq_refl) as [Hout Hw].
  refine (conj H1 (conj H2 (conj Hout (Hw 2%nat 1 _ eq_refl ltac:(discriminate) _)))).
  vm_compute. reflexivity.
Defined.

(** X11. The output of the forward computation depends on the weights under
    the non-zero pixels only: two cells whose weights agree there have the
    same output, whatever the weights under the zero pixels are. *)
Theorem output_reads_active_weights N img c1 c2 :
  wf_image N img -> wf_cell N c1 -> wf_cell N c2 ->
  (forall j p, pixel img !! j = Some p -> p <> 0 -> weight c1 !! j = weight c2 !! j) ->
  output (computeCell N img c1) = output (computeCell N img c2).
Proof.
  intros Himg H1 H2 Hag. rewrite !computeCell_eq by assumption. simpl. f_equal.
  apply sum_active_agree; [destruct H1 as [_ ->], H2 as [_ ->]; reflexivity|].
  intros j Hj. destruct (mask_active _ _ Hj) as (p & Hp & Hnz). eapply Hag; eassumption.
Qed.

Lemma output_reads_active_weights_witness :
  wf_cell 4 poisoned_cell
  /\ output (computeCell 4 (mkImage [0; 1; 9; 0]) poisoned_cell)
     = output (computeCell 4 (mkImage [0; 1; 9; 0]) scenario_cell0).
Proof.
  assert (H1 : wf_image 4 (mkImage [0; 1; 9; 0])) by reflexivity.
  assert (H2 : wf_cell 4 poisoned_cell) by (split; reflexivity).
  assert (H3 : wf_cell 4 scenario_cell0) by (split; reflexivity).
  refine (conj H2 (output_reads_active_weights 4 _ poisoned_cell scenario_cell0 H1 H2 H3 _)).
  intros [|[|[|[|j]]]] p Hp Hnz; try reflexivity; simpl in Hp; try discriminate;
    injection Hp as <-; congruence.
Defined.

(** X12. A blank image teaches nothing: when every pixel is zero the output
    of every cell is 0, whatever its weights, and the update that follows
    leaves every weight as it was, whatever the target. *)
Theorem blank_image_teaches_nothing N LR img t c :
  wf_image N img -> wf_cell N c -> (0 < N)%nat -> Z.of_nat N <= INT_MAX ->
  Forall (fun p => p = 0) (pixel img) ->
  output (computeCell N img c) = 0%float
  /\ weight (updateCell N LR t (computeCell N img c)) = weight c.
Proof.
  intros Himg Hc HN Hmax Hall.
  assert (Hmask : Forall (fun m => m = 0) (binarize <$> pixel img)).
  { apply Forall_fmap. eapply Forall_impl; [exact Hall|]. intros p ->. reflexivity. }
  split.
  - rewrite computeCell_eq by assumption. simpl. rewrite sum_active_blank by exact Hmask.
    apply zero_div_of_int. unfold INT_MAX in Hmax. lia.
  - rewrite updateCell_eq by (apply computeCell_wf; assumption).
    rewrite computeCell_eq by assumption. simpl.
    destruct Hc as [_ Hw]. unfold wf_image in Himg.
    assert (Hlen : length (binarize <$> pixel img) = length (weight c))
      by (rewrite length_fmap; congruence).
    revert Hmask Hlen. generalize (binarize <$> pixel img) as mask.
    generalize (weight c) as ws. intros ws mask Hmask. revert ws.
    induction Hmask as [|m mask -> _ IH]; intros [|w ws] Hlen; try discriminate; [reflexivity|].
    simpl. f_equal. apply IH. simpl in Hlen. lia.
Qed.

Lemma blank_image_teaches_nothing_witness :
  Forall (fun p => p = 0) (pixel (mkImage [0; 0; 0; 0]))
  /\ output (computeCell 4 (mkImage [0; 0; 0; 0]) poisoned_cell) = 0%float
  /\ weight (updateCell 4 1%float 1%float (computeCell 4 (mkImage [0; 0; 0; 0]) poisoned_cell))
     = weight poisoned_cell.
Proof.
  assert (H : Forall (fun p => p = 0) (pixel (mkImage [0; 0; 0; 0]))) by (repeat constructor).
  assert (Hmax : Z.of_nat 4 <= INT_MAX) by (vm_compute; discriminate).
  exact (conj H (blank_image_teaches_nothing 4 1%float (mkImage [0; 0; 0; 0]) 1%float
                   poisoned_cell eq_refl (conj eq_refl eq_refl) ltac:(lia) Hmax H)).
Defined.

(** X13. [main] evaluates the weights the training pass left and leaves them
    as they are: the weights at the end of the program are those at the end
    of the training pass, they do not depend on the testing data, and the
    layer still has the shape [initLayer] gave it. *)
Theorem main_keeps_trained_weights N C LR (outputLayer : Layer)
    (training testing : list Sample) :
  let r := main N C LR outputLayer training testing in
  weight <$> layer_after r.1.2 = weight <$> layer_after r.1.1
  /\ (forall testing' : list Sample,
        weight <$> layer_after (main N C LR outputLayer training testing').1.2
        = weight <$> layer_after r.1.2)
  /\ cell_sizes <$> layer_after r.1.2 = cell_sizes <$> outputLayer
  /\ r.2 = 0.
Proof.
  cbv zeta. unfold main. cbn [fst snd].
  assert (Hw : forall l ts, weight <$> layer_after (testLayer N C l ts) = weight <$> l).
  { intros l ts. unfold testLayer. simpl. apply test_loop_weights. }
  split; [apply Hw|]. split; [intros testing'; rewrite !Hw; reflexivity|].
  split; [|reflexivity].
  unfold testLayer, trainLayer. simpl.
  pose proof (test_loop_sizes N C testing
                ((fold_left (train_sample N C LR) training (outputLayer, 0)).1, 0)) as H1.
  pose proof (train_loop_sizes N C LR training (outputLayer, 0)) as H2.
  simpl in H1, H2. rewrite H1. exact H2.
Qed.

(** ** The order of the samples of an evaluation *)

Section Order.

Variable N C : nat.
Variable prediction : Layer -> Z.

Lemma test_misses_cons (l : Layer) (s : Sample) samples :
  test_misses prediction N C l (s :: samples)
  = ((if (prediction (test_cells N C s.1 l) =? s.2)%Z then 0 else 1)
     + test_misses prediction N C l samples)%nat.
Proof.
  unfold test_misses. rewrite filter_cons.
  destruct (Z.eqb_spec (prediction (test_cells N C s.1 l)) s.2);
    case_decide; try done.
Qed.

(** Every sample of an evaluation is judged by the weights the pass was
    given. *)
Lemma test_loop_misses (l : Layer) samples (l' : Layer) e :
  length l = C -> Forall (wf_cell N) l -> Forall (wf_cell N) l' ->
  weight <$> l' = weight <$> l ->
  Forall (fun s : Sample => wf_image N s.1) samples ->
  0 <= e -> e + Z.of_nat (length samples) <= INT_MAX ->
  (fold_left (test_sample_with prediction N C) samples (l', e)).2
  = e + Z.of_nat (test_misses prediction N C l samples).
Proof.
  intros Hl Wl. revert l' e.
  induction samples as [|s samples IH]; intros l' e Wl' Hw Himgs He Hmax.
  - simpl. unfold test_misses. simpl. lia.
  - apply Forall_cons in Himgs. destruct Himgs as [Himg Himgs].
    assert (Hl' : length l' = C) by (rewrite (same_weights_length l' l Hw); exact Hl).
    simpl in Hmax. cbn [fold_left]. unfold test_sample_with at 2. cbv zeta. cbn [fst snd].
    rewrite IH; try assumption.
    + rewrite test_misses_cons, count_error_small by lia.
      rewrite (test_cells_same_weights N C s.1 l' l) by assumption.
      destruct (_ =? s.2); lia.
    + apply test_cells_loop_wf, Wl'.
    + unfold test_cells. rewrite test_cells_loop_weights. exact Hw.
    + rewrite count_error_small by lia. destruct (_ =? s.2); lia.
    + rewrite count_error_small by lia. destruct (_ =? s.2); lia.
Qed.

End Order.

(** X14. An evaluation judges every sample by the weights it was given, so
    its error count is the number of the samples that layer predicts wrong,
    and neither the count nor the rate depends on the order of the samples.
    This holds of any function of the layer in the place of
    [getLayerPrediction], and [testLayer] is the pass with
    [getLayerPrediction] in that place. *)
Theorem evaluation_order_is_irrelevant N C (prediction : Layer -> Z) (l : Layer)
    (samples samples' : list Sample) :
  length l = C -> Forall (wf_cell N) l ->
  Forall (fun s : Sample => wf_image N s.1) samples ->
  Z.of_nat (length samples) <= INT_MAX ->
  samples ≡ₚ samples' ->
  testLayer_with (getLayerPrediction C) N C l samples = testLayer N C l samples
  /\ errCount (testLayer_with prediction N C l samples)
     = Z.of_nat (test_misses prediction N C l samples)
  /\ errCount (testLayer_with prediction N C l samples')
     = errCount (testLayer_with prediction N C l samples)
  /\ successRate (testLayer_with prediction N C l samples')
     = successRate (testLayer_with prediction N C l samples).
Proof.
  intros Hl Wl Himgs Hmax Hperm. split; [reflexivity|].
  assert (Himgs' : Forall (fun s : Sample => wf_image N s.1) samples')
    by (rewrite <- Hperm; exact Himgs).
  assert (Hlen : length samples' = length samples) by (rewrite Hperm; reflexivity).
  assert (Hm : test_misses prediction N C l samples' = test_misses prediction N C l samples)
    by (unfold test_misses; rewrite Hperm; reflexivity).
  assert (E : errCount (testLayer_with prediction N C l samples)
              = Z.of_nat (test_misses prediction N C l samples)).
  { unfold testLayer_with. cbn [errCount].
    rewrite (test_loop_misses N C prediction l samples l 0)
      by (try assumption; try reflexivity; lia).
    lia. }
  assert (E' : errCount (testLayer_with prediction N C l samples')
               = Z.of_nat (test_misses prediction N C l samples')).
  { unfold testLayer_with. cbn [errCount].
    rewrite (test_loop_misses N C prediction l samples' l 0)
      by (try assumption; try reflexivity; lia).
    lia. }
  split; [exact E|]. split; [rewrite E, E', Hm; reflexivity|].
  unfold testLayer_with in *. cbn [errCount successRate] in *.
  rewrite E, E', Hm, Hlen. reflexivity.
Qed.

Lemma evaluation_order_is_irrelevant_witness :
  let s2 : Sample := (mkImage [0; 9; 0; 9], 0) in
  [scenario_sample; s2] ≡ₚ [s2; scenario_sample]
  /\ errCount (testLayer 4 2 scenario_layer [s2; scenario_sample])
     = errCount (testLayer 4 2 scenario_layer [scenario_sample; s2]).
Proof.
  cbv zeta.
  assert (H1 : Forall (wf_cell 4) scenario_layer) by (repeat constructor).
  assert (H2 : Forall (fun s : Sample => wf_image 4 s.1)
                 [scenario_sample; (mkImage [0; 9; 0; 9], 0)]) by (repeat constructor).
  assert (H3 : Z.of_nat (length [scenario_sample; (mkImage [0; 9; 0; 9], 0)]) <= INT_MAX)
    by (vm_compute; discriminate).
  assert (H4 : [scenario_sample; (mkImage [0; 9; 0; 9], 0)]
               ≡ₚ [(mkImage [0; 9; 0; 9], 0); scenario_sample]) by apply perm_swap.
  exact (conj H4 (proj1 (proj2 (proj2
           (evaluation_order_is_irrelevant 4 2 (getLayerPrediction 2) scenario_layer _ _
              eq_refl H1 H2 H3 H4))))).
Defined.
